(** * consul-ns1: the catalog reconciliation engine

    A shallow embedding of package [catalog] (service.go, consul.go, ns1.go)
    and the properties of its diff, its DNS projection and its fetch loop.

    Conventions of the embedding.
    - Go [string] is a byte sequence: [string] (a list of 8-bit [ascii]).
    - Go [int64], and [int] on the 64-bit targets the tool is built for, are
      [Z]; the code performs no arithmetic on them apart from the error
      counter of the fetch loop, which stays below 12.
    - Go [map[K]V] is [gmap K V].  A nil map and an empty map are both [∅]:
      [len], lookup and [range] do not tell them apart, and each of the map
      writes of the package is preceded by the allocation of the map.
    - [for k, v := range m] over a map is [map_fold], and a loop that only
      tests its elements is [forallb] over [map_to_list]; Go leaves the order
      unspecified and so do the statements below.
    - The remote systems are functions from a request to its answer, given
      to the code; an error is [None] or [false].
    - The logger is modelled where the code can also panic, in
      [transformZoneRecords]; elsewhere the log calls are left out.
    - Goroutines and channels are not modelled: [create] and [remove] return
      the calls they make, and the fetch loop and the reconciliation pass are
      functions of what they receive at each iteration. *)

From stdpp Require Import gmap strings list fin_maps.
From Stdlib Require Import ZArith Ascii String DecimalString.
From Stdlib Require DecimalPos.

Local Open Scope string_scope.
Local Open Scope Z_scope.

(** ** service.go: the data model *)

Inductive health := passing | critical | unknown.

Record srvAnswer := SrvAnswer {
  priority : Z;
  weight : Z;
  port : Z;
  address : string;
}.

Record node := Node {
  host : string;
  datacenter : string;
  node_consulID : string;
  aRecAnswer : string;
  srvRecAnswers : gmap Z srvAnswer;
}.

Record recordIDs := RecordIDs {
  aRecID : string;
  srvRecID : string;
}.

Record recordTTLs := RecordTTLs {
  aRecTTL : Z;
  srvRecTTL : Z;
}.

Record service := Service {
  svc_id : string;
  svc_name : string;
  nodes : gmap string node;
  healths : gmap string health;
  ttls : recordTTLs;
  ns1IDs : recordIDs;
  svc_consulID : string;
}.

#[global] Instance srvAnswer_eq_dec : EqDecision srvAnswer.
Proof. solve_decision. Defined.

#[global] Instance recordTTLs_eq_dec : EqDecision recordTTLs.
Proof. solve_decision. Defined.

#[global] Instance recordIDs_eq_dec : EqDecision recordIDs.
Proof. solve_decision. Defined.

(** Go's zero values. *)
Definition node_zero : node := Node "" "" "" "" ∅.
Definition service_zero : service :=
  Service "" "" ∅ ∅ (RecordTTLs 0 0) (RecordIDs "" "") "".

(** [len(s)] of a string, as a [Z]. *)
Definition len (s : string) : Z := Z.of_nat (String.length s).

(** ** service.go: the diff *)

(** [serviceOnlyInFirst]: the services of [servicesA] whose key is not in
    [servicesB]. *)
Definition serviceOnlyInFirst_step (servicesB : gmap string service)
    (k : string) (sa : service) (result : gmap string service) :
    gmap string service :=
  match servicesB !! k with
  | None => <[k := sa]> result
  | Some _ => result
  end.

Definition serviceOnlyInFirst (servicesA servicesB : gmap string service) :
    gmap string service :=
  map_fold (serviceOnlyInFirst_step servicesB) ∅ servicesA.

(** The inner loop of [nodesAreEqual]: one SRV answer of the expected node. *)
Definition srvAnswerMatches (actualSrvs : gmap Z srvAnswer)
    (p : Z) (expectedSrv : srvAnswer) : bool :=
  match actualSrvs !! p with
  | None => false
  | Some actualSrv => bool_decide (expectedSrv = actualSrv)
  end.

(** The body of the outer loop of [nodesAreEqual]: [false] where the Go code
    returns false. *)
Definition nodeMatches (actual : gmap string node)
    (h : string) (expectedNode : node) : bool :=
  match actual !! h with
  | None => false
  | Some actualNode =>
      if negb (String.eqb (aRecAnswer actualNode) (aRecAnswer expectedNode))
      then false
      else if negb (size (srvRecAnswers expectedNode)
                    =? size (srvRecAnswers actualNode))%nat
      then false
      else forallb (λ '(p, expectedSrv),
                      srvAnswerMatches (srvRecAnswers actualNode) p expectedSrv)
                   (map_to_list (srvRecAnswers expectedNode))
  end.

Definition nodesAreEqual (expected actual : gmap string node) : bool :=
  if negb (size expected =? size actual)%nat then false
  else forallb (λ '(h, expectedNode), nodeMatches actual h expectedNode)
               (map_to_list expected).

(** The payload [onlyInFirst] builds for a key present on both sides. *)
Definition mergeService (sa sb : service) : service :=
  let id := if len (svc_id sa) =? 0 then svc_id sb else svc_id sa in
  let name := if len (svc_name sa) =? 0 then svc_name sb else svc_name sa in
  let a := aRecID (ns1IDs sa) in
  let a := if len a =? 0 then aRecID (ns1IDs sb) else a in
  let s := srvRecID (ns1IDs sa) in
  let s := if len s =? 0 then srvRecID (ns1IDs sb) else s in
  let ta := aRecTTL (ttls sa) in
  let ta := if ta =? 0 then aRecTTL (ttls sb) else ta in
  let ts := srvRecTTL (ttls sa) in
  let ts := if ts =? 0 then srvRecTTL (ttls sb) else ts in
  {| svc_id := id; svc_name := name; nodes := nodes sa; healths := ∅;
     ttls := RecordTTLs ta ts; ns1IDs := RecordIDs a s; svc_consulID := "" |}.

Definition onlyInFirst_step (servicesB : gmap string service)
    (k : string) (sa : service) (result : gmap string service) :
    gmap string service :=
  match servicesB !! k with
  | None => <[k := sa]> result
  | Some sb =>
      if negb (nodesAreEqual (nodes sa) (nodes sb))
         || negb (bool_decide (ttls sa = ttls sb))
      then <[k := mergeService sa sb]> result
      else result
  end.

Definition onlyInFirst (servicesA servicesB : gmap string service) :
    gmap string service :=
  map_fold (onlyInFirst_step servicesB) ∅ servicesA.

(** ** The Go standard library functions the package calls

    [strings.TrimPrefix], [strings.TrimSuffix], [strings.Fields],
    [strconv.ParseInt] at base 10 and 64 bits, and the [%d] verb of
    [fmt.Sprintf], after their documentation. *)

Definition byte_of (c : ascii) : Z := Z.of_nat (nat_of_ascii c).

Fixpoint stripPrefix (prefix s : string) : option string :=
  match prefix with
  | EmptyString => Some s
  | String a prefix' =>
      match s with
      | EmptyString => None
      | String b s' => if Ascii.eqb a b then stripPrefix prefix' s' else None
      end
  end.

(** [strings.TrimPrefix(s, prefix)]: [s] without the leading [prefix], or [s]
    itself when it does not start with [prefix]. *)
Definition TrimPrefix (s prefix : string) : string :=
  match stripPrefix prefix s with
  | Some rest => rest
  | None => s
  end.

(** [strings.TrimSuffix(s, suffix)]. *)
Definition TrimSuffix (s suffix : string) : string :=
  let ls := String.length s in
  let lx := String.length suffix in
  if (lx <=? ls)%nat && String.eqb (substring (ls - lx) lx s) suffix
  then substring 0 (ls - lx) s
  else s.

(** The six ASCII bytes of [unicode.IsSpace]: tab, line feed, vertical tab,
    form feed, carriage return and space. *)
Definition asciiSpace (c : ascii) : bool :=
  let b := byte_of c in
  ((9 <=? b) && (b <=? 13)) || (b =? 32).

(** The two-byte UTF-8 encodings of U+0085 (NEL) and U+00A0 (NBSP). *)
Definition space2 (c1 c2 : ascii) : bool :=
  (byte_of c1 =? 194) && ((byte_of c2 =? 133) || (byte_of c2 =? 160)).

(** The three-byte UTF-8 encodings of U+1680, U+2000..U+200A, U+2028,
    U+2029, U+202F, U+205F and U+3000. *)
Definition space3 (c1 c2 c3 : ascii) : bool :=
  let b1 := byte_of c1 in
  let b2 := byte_of c2 in
  let b3 := byte_of c3 in
  ((b1 =? 225) && (b2 =? 154) && (b3 =? 128))
  || ((b1 =? 226) && (b2 =? 128)
      && (((128 <=? b3) && (b3 <=? 138)) || (b3 =? 168) || (b3 =? 169)
          || (b3 =? 175)))
  || ((b1 =? 226) && (b2 =? 129) && (b3 =? 159))
  || ((b1 =? 227) && (b2 =? 128) && (b3 =? 128)).

(** A separator ends the field being read, if any. *)
Definition endField (r : string * list string) : string * list string :=
  match r with
  | (EmptyString, fs) => (EmptyString, fs)
  | (f, fs) => (EmptyString, f :: fs)
  end.

Definition growField (c : ascii) (r : string * list string) :
    string * list string :=
  (String c (fst r), snd r).

(** [scanFields s] is the field that starts at the head of [s] (empty when [s]
    starts with white space) and the fields after it.  White space is
    recognised on the bytes: every encoding above starts with a UTF-8 lead
    byte and none of its other bytes is one, so the scan agrees with Go's
    rune-by-rune decoding, ill-formed input included. *)
Fixpoint scanFields (s : string) : string * list string :=
  match s with
  | EmptyString => (EmptyString, [])
  | String c1 s1 =>
      if asciiSpace c1 then endField (scanFields s1)
      else
        match s1 with
        | EmptyString => growField c1 (scanFields s1)
        | String c2 s2 =>
            if space2 c1 c2 then endField (scanFields s2)
            else
              match s2 with
              | EmptyString => growField c1 (scanFields s1)
              | String c3 s3 =>
                  if space3 c1 c2 c3 then endField (scanFields s3)
                  else growField c1 (scanFields s1)
              end
        end
  end.

(** [strings.Fields(s)]: the maximal runs of non-space characters of [s]. *)
Definition Fields (s : string) : list string :=
  snd (endField (scanFields s)).

Definition digitValue (c : ascii) : option Z :=
  let b := byte_of c in
  if (48 <=? b) && (b <=? 57) then Some (b - 48) else None.

Fixpoint parseDigits (acc : Z) (s : string) : option Z :=
  match s with
  | EmptyString => Some acc
  | String c s' =>
      match digitValue c with
      | None => None
      | Some d => parseDigits (10 * acc + d) s'
      end
  end.

(** [strconv.ParseInt(s, 10, 64)]: [None] where Go returns a non-nil error,
    a syntax error (no digits, or anything but an optional sign followed by
    decimal digits) or a range error (outside of int64). *)
Definition ParseInt (s : string) : option Z :=
  match s with
  | EmptyString => None
  | String c s' =>
      let neg := Ascii.eqb c "-" in
      let digits := if Ascii.eqb c "+" || neg then s' else s in
      match digits with
      | EmptyString => None
      | _ =>
          match parseDigits 0 digits with
          | None => None
          | Some un =>
              let cutoff := 2 ^ 63 in
              if negb neg && (cutoff <=? un) then None
              else if neg && (cutoff <? un) then None
              else Some (if neg then - un else un)
          end
      end
  end.

(** The [%d] verb. *)
Definition formatInt (z : Z) : string := NilZero.string_of_int (Z.to_int z).

(** [strings.HasSuffix(s, suffix)]. *)
Definition HasSuffix (s suffix : string) : bool :=
  let ls := String.length s in
  let lx := String.length suffix in
  (lx <=? ls)%nat && String.eqb (substring (ls - lx) lx s) suffix.

(** ** ns1.go: the DNS mirror and the DNS writes *)

Module NS1.

(** *** Logging and panics

    [transformZoneRecords] logs and can panic on an index out of range: a
    computation takes the log so far and returns [None] when it panics. *)

Inductive logEntry :=
  | LogDebug (msg : string) (args : list string)
  | LogError (msg : string) (args : list string).

Definition M (A : Type) : Type := list logEntry → option (A * list logEntry).

#[global] Instance M_ret : MRet M := λ A (a : A) log, Some (a, log).

#[global] Instance M_bind : MBind M := λ A B (f : A → M B) (m : M A) log,
  match m log with
  | None => None
  | Some (a, log') => f a log'
  end.

Definition panic {A : Type} : M A := λ _, None.

Definition logError (msg : string) (args : list string) : M unit :=
  λ log, Some (tt, (log ++ [LogError msg args])%list).

Definition logDebug (msg : string) (args : list string) : M unit :=
  λ log, Some (tt, (log ++ [LogDebug msg args])%list).

(** [l[i]]: a run-time panic when [i] is out of range. *)
Definition index (l : list string) (i : nat) : M string :=
  match l !! i with
  | Some x => mret x
  | None => panic
  end.

(** [for _, x := range l] over a slice, threading the loop's variables. *)
Fixpoint forRange {A B : Type} (body : B → A → M B) (b : B) (l : list A) :
    M B :=
  match l with
  | [] => mret b
  | x :: l' => b' ← body b x; forRange body b' l'
  end.

(** *** The types of the NS1 SDK, with the fields the package uses *)

Record ZoneRecord := mkZoneRecord {
  zr_Domain : string;
  zr_ID : string;
  zr_ShortAns : list string;
  zr_Type : string;
  zr_TTL : Z;
}.

Record Zone := mkZone {
  z_ID : string;
  z_Zone : string;
  z_Records : list ZoneRecord;
}.

Record Record_ := mkRecord {
  rec_ID : string;
  rec_Zone : string;
  rec_Domain : string;
  rec_Type : string;
  rec_TTL : Z;
  rec_Answers : list (list string);
  rec_Filters : list string;
}.

(** [dns.NewRecord]: the SDK appends the zone to a domain that does not end
    with it. *)
Definition NewRecord (zone domain t : string) : Record_ :=
  let domain := if HasSuffix domain zone then domain
                else domain ++ "." ++ zone in
  mkRecord "" zone domain t 0 [] [].

(** [rec.AddAnswer(a)], with [dns.NewAv4Answer] and [dns.NewAnswer] building
    the answer from its rdata. *)
Definition AddAnswer (r : Record_) (rdata : list string) : Record_ :=
  mkRecord (rec_ID r) (rec_Zone r) (rec_Domain r) (rec_Type r) (rec_TTL r)
           (rec_Answers r ++ [rdata])%list (rec_Filters r).

(** The remote calls: [true] stands for a nil error. *)
Record recordService := mkRecordService {
  Create : Record_ → bool;
  Update : Record_ → bool;
  Delete : string → string → string → bool;
  Get : string → string → string → option Record_;
}.

Inductive apiCall :=
  | CallGet (zone domain t : string)
  | CallCreate (r : Record_)
  | CallUpdate (r : Record_)
  | CallDelete (zone domain t : string).

Record zone := mkzone {
  zone_id : string;
  zone_name : string;
}.

Record ns1 := mkns1 {
  client : recordService;
  serviceZone : zone;
  ns1Prefix : string;
  services : gmap string service;
  dnsTTL : Z;
}.

(** *** transformZoneRecords *)

Definition srvAnswerString (a : srvAnswer) : string :=
  formatInt (priority a) ++ " " ++ formatInt (weight a) ++ " "
  ++ formatInt (port a) ++ " " ++ address a.

Definition setARecAnswer (nd : node) (a : string) : node :=
  Node (host nd) (datacenter nd) (node_consulID nd) a (srvRecAnswers nd).

Definition setSrvRecAnswer (nd : node) (p : Z) (a : srvAnswer) : node :=
  Node (host nd) (datacenter nd) (node_consulID nd) (aRecAnswer nd)
       (<[p := a]> (srvRecAnswers nd)).

(** The body of the loop over [record.ShortAns]; [svcNodes] is [svc.nodes].
    A parse error logs and leaves the loop's iteration ([continue]) before the
    node is stored. *)
Definition transformAnswer (recType : string)
    (svcNodes : gmap string node) (ans : string) : M (gmap string node) :=
  let ansFields := Fields ans in
  address ← (if (List.length ansFields =? 4)%nat then index ansFields 3
             else index ansFields 0);
  let ansNode := match svcNodes !! address with
                 | None => node_zero
                 | Some nd => nd
                 end in
  if String.eqb recType "A" then
    mret (<[address := setARecAnswer ansNode address]> svcNodes)
  else if String.eqb recType "SRV" && (List.length ansFields =? 4)%nat then
    f0 ← index ansFields 0;
    match ParseInt f0 with
    | None =>
        _ ← logError "Unable to parse priority in SRV answer" [ans];
        mret svcNodes
    | Some priority =>
        f1 ← index ansFields 1;
        match ParseInt f1 with
        | None =>
            _ ← logError "Unable to parse weight in SRV answer" [ans];
            mret svcNodes
        | Some weight =>
            f2 ← index ansFields 2;
            match ParseInt f2 with
            | None =>
                _ ← logError "Unable to parse port in SRV answer" [ans];
                mret svcNodes
            | Some port =>
                mret (<[address :=
                          setSrvRecAnswer ansNode port
                            (SrvAnswer priority weight port address)]>
                        svcNodes)
            end
        end
    end
  else mret (<[address := ansNode]> svcNodes).

(** [serviceName]: the record's domain without the prefix and the zone. *)
Definition recordServiceName (n : ns1) (record : ZoneRecord) : string :=
  TrimSuffix (TrimPrefix (zr_Domain record) (ns1Prefix n))
             ("." ++ zone_name (serviceZone n)).

(** The record's ID and TTL, stored by type. *)
Definition setRecordMeta (svc : service) (record : ZoneRecord) : service :=
  if String.eqb (zr_Type record) "A" then
    Service (svc_id svc) (svc_name svc) (nodes svc) (healths svc)
            (RecordTTLs (zr_TTL record) (srvRecTTL (ttls svc)))
            (RecordIDs (zr_ID record) (srvRecID (ns1IDs svc)))
            (svc_consulID svc)
  else if String.eqb (zr_Type record) "SRV" then
    Service (svc_id svc) (svc_name svc) (nodes svc) (healths svc)
            (RecordTTLs (aRecTTL (ttls svc)) (zr_TTL record))
            (RecordIDs (aRecID (ns1IDs svc)) (zr_ID record))
            (svc_consulID svc)
  else svc.

Definition setNodes (svc : service) (ns : gmap string node) : service :=
  Service (svc_id svc) (svc_name svc) ns (healths svc) (ttls svc)
          (ns1IDs svc) (svc_consulID svc).

(** The body of the loop over [ns1Zone.Records]. *)
Definition transformRecord (n : ns1) (services : gmap string service)
    (record : ZoneRecord) : M (gmap string service) :=
  if negb (String.eqb (zr_Type record) "A")
     && negb (String.eqb (zr_Type record) "SRV") then
    _ ← logDebug "Non-service record type found in zone, ignoring"
                 ["ID"; zr_ID record];
    mret services
  else
    let serviceName := recordServiceName n record in
    let svc := match services !! serviceName with
               | None => Service "" serviceName ∅ ∅ (RecordTTLs 0 0)
                                 (RecordIDs "" "") ""
               | Some s => s
               end in
    let svc := setRecordMeta svc record in
    svcNodes ← forRange (transformAnswer (zr_Type record)) (nodes svc)
                        (zr_ShortAns record);
    mret (<[serviceName := setNodes svc svcNodes]> services).

Definition transformZoneRecords (n : ns1) (ns1Zone : Zone) :
    M (gmap string service) :=
  forRange (transformRecord n) ∅ (z_Records ns1Zone).

(** [setServices], and [fetch] for a zone the provider returned. *)
Definition setServices (n : ns1) (svcs : gmap string service) : ns1 :=
  mkns1 (client n) (serviceZone n) (ns1Prefix n) svcs (dnsTTL n).

Definition fetch (n : ns1) (fetched : option Zone) : M (ns1 * bool) :=
  match fetched with
  | None => mret (n, false)
  | Some ns1Zone =>
      svcs ← transformZoneRecords n ns1Zone;
      mret (setServices n svcs, true)
  end.

(** *** generateRecord, create and remove

    The functions below return the remote calls they make, in the order of
    the loop; the two writes of a service, and the writes of different
    services, run in goroutines of their own, so that only the set of calls
    is meaningful.  A nil record pointer is [None]. *)

(** [atomic.AddInt32(count, 1)]. *)
Definition addInt32 (count : Z) : Z :=
  (count + 1 + 2 ^ 31) mod 2 ^ 32 - 2 ^ 31.

Definition resetRecord (n : ns1) (r : Record_) : Record_ :=
  mkRecord (rec_ID r) (rec_Zone r) (rec_Domain r) (rec_Type r) (dnsTTL n)
           [] (rec_Filters r).

Definition generateRecord (n : ns1) (id name t : string) :
    option Record_ * list apiCall :=
  let zoneName := zone_name (serviceZone n) in
  let domain := name ++ "." ++ zoneName in
  if String.eqb id "" then
    (Some (resetRecord n (NewRecord zoneName domain t)), [])
  else
    match Get (client n) zoneName domain t with
    | None => (None, [CallGet zoneName domain t])
    | Some r => (Some (resetRecord n r), [CallGet zoneName domain t])
    end.

(** [generateRecord], and on an error a second call with no id, whose error
    is dropped. *)
Definition generateOrNew (n : ns1) (id name t : string) :
    option Record_ * list apiCall :=
  match generateRecord n id name t with
  | (Some r, calls) => (Some r, calls)
  | (None, calls) =>
      let '(r, calls') := generateRecord n "" name t in
      (r, (calls ++ calls')%list)
  end.

(** [upsertRecordWorker]: the call, and the count after it. *)
Definition upsertRecordWorker (n : ns1) (recID : string) (r : Record_)
    (count : Z) : apiCall * Z :=
  if String.eqb recID "" then
    (CallCreate r, if Create (client n) r then addInt32 count else count)
  else
    (CallUpdate r, if Update (client n) r then addInt32 count else count).

(** The answers one node adds to the two records. *)
Definition addAnswers (nd : node) (recs : Record_ * Record_) :
    Record_ * Record_ :=
  let aRec := if negb (String.eqb (aRecAnswer nd) "")
              then AddAnswer (fst recs) [aRecAnswer nd]
              else fst recs in
  let srvRec := map_fold (λ (_ : Z) a r,
                            AddAnswer r (Fields (srvAnswerString a)))
                         (snd recs) (srvRecAnswers nd) in
  (aRec, srvRec).

(** The body of the loop of [create]. *)
Definition createService (n : ns1) (k : string) (s : service) (count : Z) :
    option (list apiCall * Z) :=
  let name := ns1Prefix n ++ k in
  let '(aRec, aCalls) := generateOrNew n (aRecID (ns1IDs s)) name "A" in
  let '(srvRec, srvCalls) := generateOrNew n (srvRecID (ns1IDs s)) name "SRV" in
  aRec ← aRec;
  srvRec ← srvRec;
  let '(aRec, srvRec) :=
    map_fold (λ (_ : string) nd recs, addAnswers nd recs) (aRec, srvRec)
             (nodes s) in
  let '(aCall, count) := upsertRecordWorker n (aRecID (ns1IDs s)) aRec count in
  let '(srvCall, count) :=
    upsertRecordWorker n (srvRecID (ns1IDs s)) srvRec count in
  Some ((aCalls ++ srvCalls ++ [aCall; srvCall])%list, count).

Definition create (n : ns1) (svcs : gmap string service) :
    option (list apiCall * Z) :=
  map_fold (λ k s acc,
              '(calls, count) ← acc;
              '(calls', count') ← createService n k s count;
              Some ((calls ++ calls')%list, count'))
           (Some ([], 0)) svcs.

Definition removeDomain (n : ns1) (k : string) : string :=
  if String.eqb k (zone_name (serviceZone n)) then zone_name (serviceZone n)
  else
    let name := ns1Prefix n ++ k in
    name ++ "." ++ zone_name (serviceZone n).

(** [removeRecordWorker]. *)
Definition removeRecordWorker (n : ns1) (zoneName domain recType : string)
    (count : Z) : apiCall * Z :=
  (CallDelete zoneName domain recType,
   if Delete (client n) zoneName domain recType then addInt32 count
   else count).

(** The body of the loop of [remove]. *)
Definition removeService (n : ns1) (k : string) (s : service) (count : Z) :
    list apiCall * Z :=
  let domain := removeDomain n k in
  let '(aCalls, count) :=
    if negb (len (aRecID (ns1IDs s)) =? 0) then
      let '(c, count) :=
        removeRecordWorker n (zone_name (serviceZone n)) domain "A" count in
      ([c], count)
    else ([], count) in
  let '(srvCalls, count) :=
    if negb (len (srvRecID (ns1IDs s)) =? 0) then
      let '(c, count) :=
        removeRecordWorker n (zone_name (serviceZone n)) domain "SRV" count in
      ([c], count)
    else ([], count) in
  ((aCalls ++ srvCalls)%list, count).

Definition remove (n : ns1) (svcs : gmap string service) :
    list apiCall * Z :=
  map_fold (λ k s acc,
              let '(calls', count') := removeService n k s (snd acc) in
              ((fst acc ++ calls')%list, count'))
           ([], 0) svcs.

(** *** transformZone, setupServiceZone and the fetch loop *)

Definition transformZone (ns1Zone : Zone) : zone :=
  mkzone (z_ID ns1Zone) (z_Zone ns1Zone).

(** [setupServiceZone], for the provider's answer to the zone read: the
    mirror, and whether the error is nil. *)
Definition setupServiceZone (n : ns1) (fetched : option Zone) : ns1 * bool :=
  match fetched with
  | None => (n, false)
  | Some ns1Zone =>
      (mkns1 (client n) (transformZone ns1Zone) (ns1Prefix n) (services n)
             (dnsTTL n), true)
  end.

(** One iteration of [fetchIndefinitely], up to its [select]: [sent] counts
    the tokens sent on the trigger channel. *)
Definition fetchIteration (n : ns1) (fetched : option Zone) (sent : nat) :
    M (ns1 * nat) :=
  '(n', ok) ← fetch n fetched;
  if ok : bool then mret (n', S sent)
  else
    _ ← logError "error fetching" ["error"];
    mret (n', sent).

(** [fetchIndefinitely] along a sequence of iterations, each with the
    provider's answer to the zone read and with whether the [select] takes the
    stop channel rather than the timer: the mirror, the tokens sent and
    whether the loop returned. *)
Fixpoint fetchIndefinitely (n : ns1) (sent : nat)
    (trace : list (option Zone * bool)) : M (ns1 * nat * bool) :=
  match trace with
  | [] => mret (n, sent, false)
  | (fetched, stop) :: trace' =>
      '(n', sent') ← fetchIteration n fetched sent;
      if stop then mret (n', sent', true)
      else fetchIndefinitely n' sent' trace'
  end.

End NS1.

(** ** consul.go: the registry mirror and the reconciliation pass *)

Module Consul.

(** The types of the Consul API, with the fields the package reads. *)
Record CatalogService := mkCatalogService {
  ServiceAddress : string;
  Address : string;
  ServicePort : Z;
  ServiceID : string;
}.

Record HealthCheck := mkHealthCheck {
  Status : string;
  hc_ServiceID : string;
}.

(** The registry at one point in time: the answers of [Catalog().Services]
    (for a wait index: the services with their tags, and [LastIndex]),
    [Catalog().Service] and [Health().Checks]; [None] is an error. *)
Record registry := mkRegistry {
  CatalogServices : Z → option (gmap string (list string) * Z);
  CatalogNodes : string → option (list CatalogService);
  HealthChecks : string → option (list HealthCheck);
}.

Record consul := mkconsul {
  ns1Prefix : string;
  services : gmap string service;
  stale : bool;
  dnsTTL : Z;
}.

Definition setServices (c : consul) (svcs : gmap string service) : consul :=
  mkconsul (ns1Prefix c) svcs (stale c) (dnsTTL c).

Definition fetchNodes (r : registry) (name : string) :
    option (list CatalogService) :=
  CatalogNodes r name.

Definition fetchHealth (r : registry) (name : string) :
    option (list HealthCheck) :=
  HealthChecks r name.

(** [fetchServices]: the services and the new index, or an error. *)
Definition fetchServices (r : registry) (waitIndex : Z) :
    option (gmap string (list string) * Z) :=
  CatalogServices r waitIndex.

Definition transformHealth (chealths : list HealthCheck) :
    gmap string health :=
  foldl (λ healths h,
           if String.eqb (Status h) "passing" then
             <[hc_ServiceID h := passing]> healths
           else if String.eqb (Status h) "critical" then
             <[hc_ServiceID h := critical]> healths
           else <[hc_ServiceID h := unknown]> healths)
        ∅ chealths.

(** The body of the loop of [transformNodes]. *)
Definition transformNode (nds : gmap string node) (n : CatalogService) :
    gmap string node :=
  let address := if len (ServiceAddress n) =? 0 then Address n
                 else ServiceAddress n in
  let nd := match nds !! address with
            | None => node_zero
            | Some nd => nd
            end in
  let nd := if String.eqb (aRecAnswer nd) ""
            then NS1.setARecAnswer nd address else nd in
  let nd := match srvRecAnswers nd !! ServicePort n with
            | None =>
                NS1.setSrvRecAnswer nd (ServicePort n)
                  (SrvAnswer 1 1 (ServicePort n) address)
            | Some _ => nd
            end in
  <[address := nd]> nds.

Definition transformNodes (cnodes : list CatalogService) : gmap string node :=
  foldl transformNode ∅ cnodes.

Definition transformServices (cservices : gmap string (list string)) :
    gmap string service :=
  map_fold (λ k (_ : list string) svcs,
              let s := Service k k ∅ ∅ (RecordTTLs 0 0) (RecordIDs "" "") k in
              <[svc_name s := s]> svcs)
           ∅ cservices.

(** The body of the loop of [fetch]: [svcs] is the map being filled.  An error
    of [fetchNodes] leaves the iteration ([continue]). *)
Definition fetchService (c : consul) (r : registry) (id : string)
    (s : service) (svcs : gmap string service) : gmap string service :=
  match fetchNodes r id with
  | None => svcs
  | Some cnodes =>
      let s := NS1.setNodes s (transformNodes cnodes) in
      let s := match fetchHealth r id with
               | Some chealths =>
                   Service (svc_id s) (svc_name s) (nodes s)
                           (transformHealth chealths) (ttls s) (ns1IDs s)
                           (svc_consulID s)
               | None => s
               end in
      let s := Service (svc_id s) (svc_name s) (nodes s) (healths s)
                       (RecordTTLs (dnsTTL c) (dnsTTL c)) (ns1IDs s)
                       (svc_consulID s) in
      <[id := s]> svcs
  end.

(** [fetch]: the mirror after the call, the index and whether the error is
    nil. *)
Definition fetch (c : consul) (r : registry) (waitIndex : Z) :
    consul * Z * bool :=
  match fetchServices r waitIndex with
  | None => (c, 0, false)
  | Some (cservices, waitIndex) =>
      let svcs := transformServices cservices in
      let svcs := map_fold (fetchService c r) svcs
                           (transformServices cservices) in
      (setServices c svcs, waitIndex, true)
  end.

(** *** fetchIndefinitely

    One iteration of the loop, in the registry [r] of that moment; [stop]
    tells whether the stop channel is closed when the iteration polls it.
    The state is the mirror and the loop's two variables. *)
Record loopState := mkLoopState {
  mirror : consul;
  waitIndex : Z;
  subsequentErrors : Z;
}.

Inductive exit := TooManyErrors | Stopped.

Definition initialState (c : consul) : loopState := mkLoopState c 1 0.

Definition iteration (st : loopState) (r : registry) (stop : bool) :
    loopState * option exit :=
  let '(c, newIndex, ok) := fetch (mirror st) r (waitIndex st) in
  if negb ok then
    let subsequentErrors := subsequentErrors st + 1 in
    let st := mkLoopState c (waitIndex st) subsequentErrors in
    if 10 <? subsequentErrors then (st, Some TooManyErrors)
    else (st, if stop then Some Stopped else None)
  else
    let st := mkLoopState c newIndex 0 in
    (st, if stop then Some Stopped else None).

(** The loop along a sequence of iterations: the state, and why the loop
    returned, if it did; the iterations after the return do not run. *)
Fixpoint fetchIndefinitely (st : loopState) (trace : list (registry * bool)) :
    loopState * option exit :=
  match trace with
  | [] => (st, None)
  | (r, stop) :: trace' =>
      match iteration st r stop with
      | (st', Some e) => (st', Some e)
      | (st', None) => fetchIndefinitely st' trace'
      end
  end.

(** *** sync: one reconciliation pass

    The body of [if cTriggered && nTriggered]: the services to upsert and the
    calls of [create], the services to remove and the calls of [remove]. *)
Record pass := mkPass {
  upsert : gmap string service;
  created : option (list NS1.apiCall * Z);
  removed_services : gmap string service;
  removed : list NS1.apiCall * Z;
}.

Definition syncPass (c : consul) (n : NS1.ns1) : pass :=
  let upsert := onlyInFirst (services c) (NS1.services n) in
  let remove := serviceOnlyInFirst (NS1.services n) (services c) in
  mkPass upsert (NS1.create n upsert) remove (NS1.remove n remove).

(** *** sync: the loop

    What the [select] of an iteration receives, with the two mirrors as they
    are at that moment. *)
Inductive signal := ConsulTrigger | NS1Trigger | Stop.

Record syncFlags := mkSyncFlags {
  cTriggered : bool;
  nTriggered : bool;
}.

(** One iteration: [None] when the loop returns, and otherwise the flags and
    the pass the iteration made, if it made one. *)
Definition syncIteration (fl : syncFlags) (sig : signal) (c : consul)
    (n : NS1.ns1) : option (syncFlags * option pass) :=
  let received :=
    match sig with
    | ConsulTrigger => Some (mkSyncFlags true (nTriggered fl))
    | NS1Trigger => Some (mkSyncFlags (cTriggered fl) true)
    | Stop => None
    end in
  match received with
  | None => None
  | Some fl =>
      if cTriggered fl && nTriggered fl
      then Some (mkSyncFlags false false, Some (syncPass c n))
      else Some (fl, None)
  end.

(** The loop along a sequence of iterations: the passes it made, in order,
    and the flags if it has not returned. *)
Fixpoint sync (fl : syncFlags) (trace : list (signal * consul * NS1.ns1)) :
    list pass * option syncFlags :=
  match trace with
  | [] => ([], Some fl)
  | (sig, c, n) :: trace' =>
      match syncIteration fl sig c n with
      | None => ([], None)
      | Some (fl', p) =>
          let '(passes, final) := sync fl' trace' in
          (match p with
           | Some p => p :: passes
           | None => passes
           end, final)
      end
  end.

End Consul.

(** ** The specification's vocabulary *)

(** Structural equality of two SRV answer maps: the same ports, and the same
    tuple at each port. *)
Definition srvAnswersEqual (a b : gmap Z srvAnswer) : Prop :=
  dom a = dom b ∧ ∀ p x y, a !! p = Some x → b !! p = Some y → x = y.

(** Structural equality of two instance sets: the same address keys and, at
    each key, equal A answers and equal SRV answers. *)
Definition instancesEqual (a b : gmap string node) : Prop :=
  dom a = dom b
  ∧ ∀ h na nb, a !! h = Some na → b !! h = Some nb →
      aRecAnswer na = aRecAnswer nb
      ∧ srvAnswersEqual (srvRecAnswers na) (srvRecAnswers nb).

(** Two snapshots that are identical up to the identifiers that the diff
    backfills: the same names, equal instance sets and equal TTLs. *)
Definition sameProjection (D O : gmap string service) : Prop :=
  dom D = dom O
  ∧ ∀ k sa sb, D !! k = Some sa → O !! k = Some sb →
      instancesEqual (nodes sa) (nodes sb) ∧ ttls sa = ttls sb.

(** Whether [onlyInFirst] takes the branch that builds a payload. *)
Definition differs (sa sb : service) : bool :=
  negb (nodesAreEqual (nodes sa) (nodes sb))
  || negb (bool_decide (ttls sa = ttls sb)).

Section vocabulary.
Import NS1.
Implicit Types (n : ns1) (k : string) (s : service) (r : Record_).

(** The domain of the records [create] works on for the key [k]. *)
Definition upsertDomain n k : string :=
  (ns1Prefix n ++ k) ++ "." ++ zone_name (serviceZone n).

(** The fields of a record that adding an answer leaves alone. *)
Definition header r : string * string * string * string * Z * list string :=
  (rec_ID r, rec_Zone r, rec_Domain r, rec_Type r, rec_TTL r, rec_Filters r).

(** What a call made by [create] for the key [k] looks like: a read at the
    key's domain, the creation of a record at that domain, or the update of a
    record that is either new at that domain or the one the provider returned
    for it; all written records carry the configured TTL. *)
Definition upsertCall n k (call : apiCall) : Prop :=
  match call with
  | CallGet z d t => z = zone_name (serviceZone n) ∧ d = upsertDomain n k
  | CallCreate r =>
      rec_TTL r = dnsTTL n ∧ rec_Zone r = zone_name (serviceZone n)
      ∧ rec_Domain r = upsertDomain n k
  | CallUpdate r =>
      rec_TTL r = dnsTTL n
      ∧ (rec_Domain r = upsertDomain n k
         ∨ ∃ t r0, Get (client n) (zone_name (serviceZone n))
                       (upsertDomain n k) t = Some r0
                   ∧ rec_Domain r = rec_Domain r0)
  | CallDelete _ _ _ => False
  end.

(** The deletes [remove] issues for one service. *)
Definition deletesOf n k s : list apiCall :=
  (if decide (aRecID (ns1IDs s) = "") then []
   else [CallDelete (zone_name (serviceZone n)) (removeDomain n k) "A"])
  ++ (if decide (srvRecID (ns1IDs s) = "") then []
      else [CallDelete (zone_name (serviceZone n)) (removeDomain n k) "SRV"]).

(** The domain a call is made at. *)
Definition callDomain (call : apiCall) : string :=
  match call with
  | CallGet _ d _ => d
  | CallCreate r => rec_Domain r
  | CallUpdate r => rec_Domain r
  | CallDelete _ d _ => d
  end.

(** The claim that a default TTL of zero never changes the TTL of a record:
    every record the pass writes for a service of the zone carries the TTL
    the zone has for it. *)
Definition zeroTTLNeverForcesChange (c : Consul.consul) (n : ns1) : Prop :=
  Consul.dnsTTL c = 0 → dnsTTL n = 0 →
  ∀ calls count,
    Consul.created (Consul.syncPass c n) = Some (calls, count) →
    ∀ r k sb,
      CallCreate r ∈ calls ∨ CallUpdate r ∈ calls →
      services n !! k = Some sb →
      rec_Domain r = upsertDomain n k →
      (rec_Type r = "A" → rec_TTL r = aRecTTL (ttls sb))
      ∧ (rec_Type r = "SRV" → rec_TTL r = srvRecTTL (ttls sb)).

(** The claim that a service named like the zone is upserted at the zone
    name. *)
Definition apexUpsertedAtZone n s : Prop :=
  ∀ calls count,
    createService n (zone_name (serviceZone n)) s 0 = Some (calls, count) →
    Forall (λ call, callDomain call = zone_name (serviceZone n)) calls.

End vocabulary.

(** The result [w] of a computation on the empty log, after the log [log]. *)
Definition extend {A : Type} (log : list NS1.logEntry)
    (w : option (A * list NS1.logEntry)) : option (A * list NS1.logEntry) :=
  match w with
  | None => None
  | Some (a, e) => Some (a, (log ++ e)%list)
  end.

(** What a computation returns, its log apart; [None] is a panic. *)
Definition value {A : Type} (m : NS1.M A) : option A := fst <$> m [].

(** The computation only appends to the log: it does not read it. *)
Definition appends {A : Type} (m : NS1.M A) : Prop :=
  ∀ log, m log = extend log (m []).

Definition parses (s : string) : bool :=
  match ParseInt s with
  | Some _ => true
  | None => false
  end.

(** A malformed SRV answer: a short-form answer with the four fields of an
    SRV answer, of which the priority, the weight or the port is not an
    integer. *)
Definition malformed (ans : string) : bool :=
  match Fields ans with
  | [p; w; po; _] => negb (parses p && parses w && parses po)
  | _ => false
  end.

(** The record without its malformed answers. *)
Definition dropMalformed (r : NS1.ZoneRecord) : NS1.ZoneRecord :=
  NS1.mkZoneRecord (NS1.zr_Domain r) (NS1.zr_ID r)
    (List.filter (λ ans, negb (malformed ans)) (NS1.zr_ShortAns r))
    (NS1.zr_Type r) (NS1.zr_TTL r).

(** The records [transformZoneRecords] does not skip. *)
Definition isServiceRecord (r : NS1.ZoneRecord) : Prop :=
  NS1.zr_Type r = "A" ∨ NS1.zr_Type r = "SRV".

(** Strings made of white space only. *)
Inductive whitespaceOnly : string → Prop :=
  | ws_empty : whitespaceOnly ""
  | ws_ascii c s :
      asciiSpace c = true → whitespaceOnly s → whitespaceOnly (String c s)
  | ws_two c1 c2 s :
      space2 c1 c2 = true → whitespaceOnly s →
      whitespaceOnly (String c1 (String c2 s))
  | ws_three c1 c2 c3 s :
      space3 c1 c2 c3 = true → whitespaceOnly s →
      whitespaceOnly (String c1 (String c2 (String c3 s))).

(** The service a record is merged into, before its answers. *)
Definition serviceBefore (n : NS1.ns1) (svcs : gmap string service)
    (r : NS1.ZoneRecord) : service :=
  NS1.setRecordMeta
    match svcs !! NS1.recordServiceName n r with
    | None => Service "" (NS1.recordServiceName n r) ∅ ∅ (RecordTTLs 0 0)
                      (RecordIDs "" "") ""
    | Some s => s
    end r.

(** The service [transformServices] builds for a name. *)
Definition bareService (k : string) : service :=
  Service k k ∅ ∅ (RecordTTLs 0 0) (RecordIDs "" "") k.

(** The service [fetch] stores for a listed name. *)
Definition fetchedService (c : Consul.consul) (r : Consul.registry)
    (k : string) : service :=
  match Consul.fetchNodes r k with
  | None => bareService k
  | Some cnodes =>
      Service k k (Consul.transformNodes cnodes)
              match Consul.fetchHealth r k with
              | Some chealths => Consul.transformHealth chealths
              | None => ∅
              end
              (RecordTTLs (Consul.dnsTTL c) (Consul.dnsTTL c))
              (RecordIDs "" "") k
  end.

(** The two halves of the claim on what a refresh leaves for a service:
    a service whose instance or health fetch failed has no instances, and
    every service has the default TTLs. *)
Definition failedEnrichmentHasNoInstances (c : Consul.consul)
    (r : Consul.registry) (waitIndex : Z) : Prop :=
  ∀ k s,
    Consul.fetchNodes r k = None ∨ Consul.fetchHealth r k = None →
    Consul.services (fst (fst (Consul.fetch c r waitIndex))) !! k = Some s →
    nodes s = ∅.

Definition snapshotTTLsAreDefault (c : Consul.consul)
    (r : Consul.registry) (waitIndex : Z) : Prop :=
  ∀ k s,
    Consul.services (fst (fst (Consul.fetch c r waitIndex))) !! k = Some s →
    ttls s = RecordTTLs (Consul.dnsTTL c) (Consul.dnsTTL c).

(** The fetch of an iteration fails, at a wait index. *)
Definition fetchFails (waitIndex : Z) (ev : Consul.registry * bool) : Prop :=
  Consul.fetchServices (fst ev) waitIndex = None.

#[local] Instance signal_eq_dec : EqDecision Consul.signal.
Proof. solve_decision. Defined.

#[local] Instance fetchFails_dec waitIndex ev :
  Decision (fetchFails waitIndex ev).
Proof. unfold fetchFails. apply _. Defined.

(** The address [transformNodes] files an instance under. *)
Definition nodeAddress (n : Consul.CatalogService) : string :=
  if len (Consul.ServiceAddress n) =? 0 then Consul.Address n
  else Consul.ServiceAddress n.

(** The nodes of a list of instances: one node per address, with the address
    as its A answer and, for each port of an instance at the address, the SRV
    answer of priority 1 and weight 1. *)
Definition registryNodes (l : list Consul.CatalogService)
    (m : gmap string node) : Prop :=
  ∀ addr,
    match m !! addr with
    | None => ∀ n, n ∈ l → nodeAddress n ≠ addr
    | Some nd =>
        host nd = "" ∧ datacenter nd = "" ∧ node_consulID nd = ""
        ∧ aRecAnswer nd = addr
        ∧ (∃ n, n ∈ l ∧ nodeAddress n = addr)
        ∧ ∀ p a, srvRecAnswers nd !! p = Some a ↔
                 a = SrvAnswer 1 1 p addr
                 ∧ ∃ n, n ∈ l ∧ nodeAddress n = addr
                        ∧ Consul.ServicePort n = p
    end.

(** The health value of a check status. *)
Definition healthOf (status : string) : health :=
  if String.eqb status "passing" then passing
  else if String.eqb status "critical" then critical
  else unknown.

(** The shape of a node the DNS mirror files under [addr]: it has no host,
    datacenter or registry ID, its A answer is empty or [addr], and each of
    its SRV answers is filed under its port and has the address [addr]. *)
Definition wfNode (addr : string) (nd : node) : Prop :=
  host nd = "" ∧ datacenter nd = "" ∧ node_consulID nd = ""
  ∧ (aRecAnswer nd = "" ∨ aRecAnswer nd = addr)
  ∧ ∀ p a, srvRecAnswers nd !! p = Some a → port a = p ∧ address a = addr.

(** The values of the type int64. *)
Definition int64 (z : Z) : Prop := - 2 ^ 63 ≤ z < 2 ^ 63.

(** A character that is no white space and starts no white space: an ASCII
    character other than the six ASCII spaces. *)
Definition plainChar (c : ascii) : bool :=
  (byte_of c <? 128) && negb (asciiSpace c).

Fixpoint plain (s : string) : bool :=
  match s with
  | EmptyString => true
  | String c s' => plainChar c && plain s'
  end.

(** The number a sequence of decimal digits denotes, after the digits read
    so far. *)
Fixpoint decimalValue (acc : Z) (d : Decimal.uint) : Z :=
  match d with
  | Decimal.Nil => acc
  | Decimal.D0 d' => decimalValue (10 * acc + 0) d'
  | Decimal.D1 d' => decimalValue (10 * acc + 1) d'
  | Decimal.D2 d' => decimalValue (10 * acc + 2) d'
  | Decimal.D3 d' => decimalValue (10 * acc + 3) d'
  | Decimal.D4 d' => decimalValue (10 * acc + 4) d'
  | Decimal.D5 d' => decimalValue (10 * acc + 5) d'
  | Decimal.D6 d' => decimalValue (10 * acc + 6) d'
  | Decimal.D7 d' => decimalValue (10 * acc + 7) d'
  | Decimal.D8 d' => decimalValue (10 * acc + 8) d'
  | Decimal.D9 d' => decimalValue (10 * acc + 9) d'
  end.

(** How many iterations of [sync] received a given signal. *)
Definition received (sig : Consul.signal)
    (trace : list (Consul.signal * Consul.consul * NS1.ns1)) : nat :=
  List.length
    (filter (λ it : Consul.signal * Consul.consul * NS1.ns1,
               fst (fst it) = sig) trace).

(** How many zone reads of a run of the DNS mirror's loop succeeded. *)
Definition zoneReads (trace : list (option NS1.Zone * bool)) : nat :=
  List.length
    (filter (λ it : option NS1.Zone * bool, is_Some (fst it)) trace).

(** The zone without the records that are neither A nor SRV records. *)
Definition serviceRecords (z : NS1.Zone) : NS1.Zone :=
  NS1.mkZone (NS1.z_ID z) (NS1.z_Zone z)
             (filter isServiceRecord (NS1.z_Records z)).

(** The records of type [t] of a list that belong to the service [k]. *)
Definition recordsOf (n : NS1.ns1) (t k : string)
    (records : list NS1.ZoneRecord) : list NS1.ZoneRecord :=
  filter (λ r, NS1.zr_Type r = t ∧ NS1.recordServiceName n r = k) records.

(** The ID and the TTL the mirror keeps for a list of records of one type of
    one service: those of the last record, and nothing without record. *)
Definition keptID (records : list NS1.ZoneRecord) : string :=
  default "" (NS1.zr_ID <$> last records).

Definition keptTTL (records : list NS1.ZoneRecord) : Z :=
  default 0 (NS1.zr_TTL <$> last records).

Section vocabulary_writes.
Import NS1.
Implicit Types (n : ns1) (k : string) (s : service) (r : Record_).

(** The reads [create] makes for a service: one per non-empty record ID. *)
Definition readsOf n k s : list apiCall :=
  ((if decide (aRecID (ns1IDs s) = "") then []
    else [CallGet (zone_name (serviceZone n)) (upsertDomain n k) "A"])
   ++ (if decide (srvRecID (ns1IDs s) = "") then []
       else [CallGet (zone_name (serviceZone n)) (upsertDomain n k) "SRV"]))%list.

(** The write of a record: a create without ID, an update with one. *)
Definition writeOf (id : string) r : apiCall :=
  if decide (id = "") then CallCreate r else CallUpdate r.

(** The record [create] starts from, for a record ID and a type: a new
    record when the ID is empty or the read fails, and otherwise the record
    read; in all cases with the configured TTL and no answer. *)
Definition baseRecord n k (id t : string) : Record_ :=
  let fresh := mkRecord "" (zone_name (serviceZone n)) (upsertDomain n k) t
                        (dnsTTL n) [] [] in
  if decide (id = "") then fresh
  else
    match Get (client n) (zone_name (serviceZone n)) (upsertDomain n k) t with
    | Some r0 =>
        mkRecord (rec_ID r0) (rec_Zone r0) (rec_Domain r0) (rec_Type r0)
                 (dnsTTL n) [] (rec_Filters r0)
    | None => fresh
    end.

(** The rdata of the A answers and of the SRV answers of a set of nodes. *)
Definition aAnswersOf (nds : gmap string node) : list (list string) :=
  omap (λ hn : string * node,
          if decide (aRecAnswer (snd hn) = "") then None
          else Some [aRecAnswer (snd hn)])
       (map_to_list nds).

Definition srvAnswersOf (nds : gmap string node) : list (list string) :=
  flat_map (λ hn : string * node,
              (λ pa : Z * srvAnswer, Fields (srvAnswerString (snd pa)))
                <$> map_to_list (srvRecAnswers (snd hn)))
           (map_to_list nds).

(** Whether the provider accepted a call that writes or deletes. *)
Definition succeeded n (call : apiCall) : bool :=
  match call with
  | CallGet _ _ _ => false
  | CallCreate r => Create (client n) r
  | CallUpdate r => Update (client n) r
  | CallDelete z d t => Delete (client n) z d t
  end.

(** The number of calls of a list that the provider accepted. *)
Definition accepted n (calls : list apiCall) : Z :=
  Z.of_nat (List.length (List.filter (succeeded n) calls)).

(** The calls [create] makes for one service, given the two records it
    writes: the reads, the write of the A record and that of the SRV
    record. *)
Definition upsertCalls n k s (aRec srvRec : Record_) : list apiCall :=
  (readsOf n k s
   ++ [writeOf (aRecID (ns1IDs s)) aRec;
       writeOf (srvRecID (ns1IDs s)) srvRec])%list.

(** The calls [create] makes for a set of services are, up to their order,
    those of [blocks], one block for each service, where the two records
    written for a service satisfy [P]. *)
Definition upsertsBy n (P : string → service → Record_ → Record_ → Prop)
    (svcs : gmap string service) (calls : list apiCall) : Prop :=
  ∃ blocks : list (list apiCall),
    calls ≡ₚ List.concat blocks
    ∧ Forall2 (λ (ks : string * service) block,
                 ∃ aRec srvRec,
                   block = upsertCalls n (fst ks) (snd ks) aRec srvRec
                   ∧ P (fst ks) (snd ks) aRec srvRec)
              (map_to_list svcs) blocks.

End vocabulary_writes.

Section vocabulary_round_trip.
Import NS1.
Implicit Types (n : ns1) (k : string) (s : service) (r : ZoneRecord).

(** The short form the provider shows of an answer: its fields, separated by
    a space. *)
Definition shortAnswer (rdata : list string) : string :=
  String.concat " " rdata.

(** An SRV answer whose text reads back: int64 fields and an address of one
    field. *)
Definition readable (a : srvAnswer) : Prop :=
  int64 (priority a) ∧ int64 (weight a) ∧ int64 (port a)
  ∧ Fields (address a) = [address a].

(** Instances that can be written to the zone and read back, as those of the
    registry snapshot are when their addresses have one field: each node is
    filed under its A answer, and each of its SRV answers is filed under its
    port, has the node's address and reads back. *)
Definition writableNodes (nds : gmap string node) : Prop :=
  ∀ addr nd, nds !! addr = Some nd →
    aRecAnswer nd = addr ∧ Fields addr = [addr]
    ∧ ∀ p a, srvRecAnswers nd !! p = Some a →
             port a = p ∧ address a = addr ∧ readable a.

(** The SRV answers of a set of nodes. *)
Definition allAnswers (nds : gmap string node) : list srvAnswer :=
  flat_map (λ hn : string * node,
              snd <$> map_to_list (srvRecAnswers (snd hn)))
           (map_to_list nds).

(** The records of a list that the mirror files under the name [k]. *)
Definition recordsFor n k (records : list ZoneRecord) : list ZoneRecord :=
  filter (λ r, recordServiceName n r = k) records.

Definition zoneFor n k (z : Zone) : Zone :=
  mkZone (z_ID z) (z_Zone z) (recordsFor n k (z_Records z)).

(** The zone holds the service [s] under the name [k] as [create] writes it:
    one A record and one SRV record of this name, in either order, whose
    answers are, in short form and in any order, the answers [create] gives
    the two records it writes for [s]. *)
Definition echoes n k s (z : Zone) : Prop :=
  ∃ rA rS,
    (filter isServiceRecord (recordsFor n k (z_Records z)) = [rA; rS]
     ∨ filter isServiceRecord (recordsFor n k (z_Records z)) = [rS; rA])
    ∧ zr_Type rA = "A" ∧ zr_Type rS = "SRV"
    ∧ zr_ShortAns rA ≡ₚ shortAnswer <$> aAnswersOf (nodes s)
    ∧ zr_ShortAns rS ≡ₚ shortAnswer <$> srvAnswersOf (nodes s).

(** The node the mirror starts from for an address, and what reading an A
    answer of one field and a readable SRV answer does to the nodes. *)
Definition defaultNode (nds : gmap string node) (addr : string) : node :=
  match nds !! addr with
  | None => node_zero
  | Some nd => nd
  end.

Definition aStep (nds : gmap string node) (x : string) : gmap string node :=
  <[x := setARecAnswer (defaultNode nds x) x]> nds.

Definition srvStep (nds : gmap string node) (a : srvAnswer) :
    gmap string node :=
  <[address a := setSrvRecAnswer (defaultNode nds (address a)) (port a) a]>
    nds.

(** The nodes read from the A answers [la] and the SRV answers [l]. *)
Definition mirrorOf (la : list string) (l : list srvAnswer)
    (nds : gmap string node) : Prop :=
  ∀ addr,
    match nds !! addr with
    | None => (addr ∉ la) ∧ ∀ a, a ∈ l → address a ≠ addr
    | Some nd =>
        aRecAnswer nd = (if decide (addr ∈ la) then addr else "")
        ∧ (addr ∈ la ∨ ∃ a, a ∈ l ∧ address a = addr)
        ∧ ∀ p x, srvRecAnswers nd !! p = Some x ↔
                 x ∈ l ∧ address x = addr ∧ port x = p
    end.

(** No two answers of the list have the same address and port. *)
Definition onePerPort (l : list srvAnswer) : Prop :=
  ∀ x y, x ∈ l → y ∈ l → address x = address y → port x = port y → x = y.

(** The nodes a snapshot has for a name. *)
Definition nodesAt (svcs : gmap string service) k : gmap string node :=
  match svcs !! k with
  | Some s => nodes s
  | None => ∅
  end.

End vocabulary_round_trip.

(** ** Inputs of the examples *)

(** A provider that accepts every write and returns, for every read, a record
    with a TTL of 60 seconds. *)
Definition exClient : NS1.recordService :=
  NS1.mkRecordService (λ _, true) (λ _, true) (λ _ _ _, true)
    (λ z d t, Some (NS1.mkRecord "rid" z d t 60 [["9.9.9.9"]] ["shuffle"])).

Definition srv1 : srvAnswer := SrvAnswer 1 1 1 "1.1.1.1".

Definition srv2 : srvAnswer := SrvAnswer 1 1 2 "2.2.2.2".

Definition exNode : node :=
  Node "" "" "" "1.1.1.1" {[ 1 := SrvAnswer 1 1 1 "1.1.1.1" ]}.

(** The registry side built with [-ns1-dns-ttl=0], and a zone that has the
    same service at a TTL of 60. *)
Definition zeroTTLConsul : Consul.consul :=
  Consul.mkconsul ""
    {[ "s1" := Service "s1" "s1" {[ "1.1.1.1" := exNode ]} ∅
                       (RecordTTLs 0 0) (RecordIDs "" "") "s1" ]}
    false 0.

Definition zeroTTLNS1 : NS1.ns1 :=
  NS1.mkns1 exClient (NS1.mkzone "z1" "example.com") ""
    {[ "s1" := Service "" "s1" {[ "1.1.1.1" := exNode ]} ∅
                       (RecordTTLs 60 60) (RecordIDs "r1" "r2") "" ]}
    0.

(** The two sides after a pass: the same service, the record IDs on the DNS
    side only. *)
Definition syncedConsul : Consul.consul :=
  Consul.mkconsul ""
    {[ "s1" := Service "s1" "s1" {[ "1.1.1.1" := exNode ]} ∅
                       (RecordTTLs 60 60) (RecordIDs "" "") "s1" ]}
    false 60.

Definition syncedNS1 : NS1.ns1 :=
  NS1.mkns1 exClient (NS1.mkzone "z1" "example.com") ""
    {[ "s1" := Service "" "s1" {[ "1.1.1.1" := exNode ]} ∅
                       (RecordTTLs 60 60) (RecordIDs "r1" "r2") "" ]}
    60.

(** A mirror of the zone [example.com], with no prefix, and a service of the
    registry named like the zone. *)
Definition apexNS1 : NS1.ns1 :=
  NS1.mkns1 exClient (NS1.mkzone "z1" "example.com") "" ∅ 60.

Definition apexService : service :=
  Service "example.com" "example.com" {[ "1.1.1.1" := exNode ]} ∅
          (RecordTTLs 60 60) (RecordIDs "" "") "example.com".

(** A zone whose SRV record has one well-formed and one malformed answer. *)
Definition exMirror : NS1.ns1 :=
  NS1.mkns1 exClient (NS1.mkzone "1" "test.zone") "" ∅ 10.

Definition exSrvRecord : NS1.ZoneRecord :=
  NS1.mkZoneRecord "s1.test.zone" "dc" ["1 1 1 1.1.1.1"; "x 1 1 2.2.2.2"]
                   "SRV" 2.

(** A registry that lists [s1] and [s2], fails on the instances of [s2] and
    on all health checks, and a mirror configured with a default TTL of 60. *)
Definition exRegistry : Consul.registry :=
  Consul.mkRegistry
    (λ _, Some ({[ "s1" := []; "s2" := [] ]}, 7))
    (λ name, if String.eqb name "s1"
             then Some [Consul.mkCatalogService "" "1.1.1.1" 80 "s1"]
             else None)
    (λ _, None).

Definition exConsul : Consul.consul := Consul.mkconsul "" ∅ false 60.

(** A zone with two A records for one service. *)
Definition twoARecords : NS1.Zone :=
  NS1.mkZone "z" "test.zone"
    [NS1.mkZoneRecord "s1.test.zone" "a1" ["1.1.1.1"] "A" 1;
     NS1.mkZoneRecord "s1.test.zone" "a2" ["2.2.2.2"] "A" 2].

(** A service of the registry, and a zone that holds it as written. *)
Definition writtenService : service :=
  Service "s1" "s1" {[ "1.1.1.1" := exNode ]} ∅ (RecordTTLs 10 10)
          (RecordIDs "" "") "s1".

Definition writtenZone : NS1.Zone :=
  NS1.mkZone "z" "test.zone"
    [NS1.mkZoneRecord "s1.test.zone" "a1" ["1.1.1.1"] "A" 10;
     NS1.mkZoneRecord "s1.test.zone" "b1" ["1 1 1 1.1.1.1"] "SRV" 10].

(** A registry that is down. *)
Definition downRegistry : Consul.registry :=
  Consul.mkRegistry (λ _, None) (λ _, None) (λ _, None).

(** * Proofs *)

(** ** The package's own tests, on the embedding *)

Section tests.
Import NS1.

(** TestNodesAreEqual. *)
Example test_nodesAreEqual :
  nodesAreEqual ∅ ∅ = true
  ∧ nodesAreEqual {[ "h1" := node_zero ]} ∅ = false
  ∧ nodesAreEqual ∅ {[ "h1" := node_zero ]} = false
  ∧ nodesAreEqual {[ "h1" := node_zero ]}
                  {[ "h1" := node_zero; "h2" := node_zero ]} = false
  ∧ nodesAreEqual {[ "h1" := Node "" "" "" "1.1.1.1" ∅ ]}
                  {[ "h1" := node_zero ]} = false
  ∧ nodesAreEqual {[ "h1" := Node "" "" "" "1.1.1.1" ∅ ]}
                  {[ "h1" := Node "" "" "" "1.1.1.1" ∅ ]} = true
  ∧ nodesAreEqual {[ "h1" := Node "" "" "" "" {[ 1 := srv1 ]} ]}
                  {[ "h1" := node_zero ]} = false
  ∧ nodesAreEqual {[ "h1" := Node "" "" "" "" {[ 1 := srv1 ]} ]}
                  {[ "h1" := Node "" "" "" "" {[ 1 := srv1; 2 := srv2 ]} ]}
    = false
  ∧ nodesAreEqual {[ "h1" := Node "" "" "" "" {[ 1 := srv1 ]} ]}
                  {[ "h1" := Node "" "" "" "" {[ 1 := srv1 ]} ]} = true.
Proof. repeat split; by vm_compute. Qed.

(** TestOnlyInFirst: "Extra service in first", "Service ID and Name only in
    second" and "TTLs don't match". *)
Example test_onlyInFirst :
  onlyInFirst {[ "s3" := service_zero; "s4" := service_zero ]}
              {[ "s3" := service_zero ]}
    = {[ "s4" := service_zero ]}
  ∧ onlyInFirst
      {[ "s10" := Service "" "" {[ "h1" := node_zero; "h2" := node_zero ]} ∅
                          (RecordTTLs 0 0) (RecordIDs "r1" "r2") "" ]}
      {[ "s10" := Service "id" "name" {[ "h2" := node_zero ]} ∅
                          (RecordTTLs 0 0) (RecordIDs "r1" "r2") "" ]}
    = {[ "s10" := Service "id" "name"
                          {[ "h1" := node_zero; "h2" := node_zero ]} ∅
                          (RecordTTLs 0 0) (RecordIDs "r1" "r2") "" ]}
  ∧ onlyInFirst
      {[ "s12" := Service "" "" ∅ ∅ (RecordTTLs 1 2) (RecordIDs "" "") "" ]}
      {[ "s12" := Service "" "" ∅ ∅ (RecordTTLs 3 4) (RecordIDs "" "") "" ]}
    = {[ "s12" := Service "" "" ∅ ∅ (RecordTTLs 1 2) (RecordIDs "" "") "" ]}.
Proof. repeat split; by vm_compute. Qed.

(** TestTransformZoneRecords. *)
Example test_transformZoneRecords :
  value (transformZoneRecords exMirror
           (mkZone "57d95da659272400013334de" "test.zone"
              [mkZoneRecord "s1.test.zone" "dd" ["1.1.1.1"] "A" 1;
               mkZoneRecord "s1.test.zone" "dc" ["1 1 1 1.1.1.1"] "SRV" 2;
               mkZoneRecord "s2.test.zone" "db" ["1 1 2 2.2.2.2"] "SRV" 3]))
  = Some {[ "s1" := Service "" "s1"
                      {[ "1.1.1.1" := Node "" "" "" "1.1.1.1" {[ 1 := srv1 ]} ]}
                      ∅ (RecordTTLs 1 2) (RecordIDs "dd" "dc") "";
            "s2" := Service "" "s2"
                      {[ "2.2.2.2" := Node "" "" "" "" {[ 2 := srv2 ]} ]}
                      ∅ (RecordTTLs 0 3) (RecordIDs "" "db") "" ]}.
Proof. by vm_compute. Qed.

(** TestCreate_WithPrefix, for one service, and TestRemove: "delete one A
    record" and "delete apex A record". *)
Example test_create_remove :
  let n := mkns1 exClient (mkzone "1" "test.zone") "TestPrefix" ∅ 10 in
  let withA := Service "" "" ∅ ∅ (RecordTTLs 0 0) (RecordIDs "r1" "") "" in
  create n {[ "s9" := Service "" "" {[ "h1" := Node "" "" "" "1.1.1.1" ∅ ]} ∅
                              (RecordTTLs 0 0) (RecordIDs "" "") "" ]}
    = Some ([CallCreate (mkRecord "" "test.zone" "TestPrefixs9.test.zone" "A"
                                  10 [["1.1.1.1"]] []);
             CallCreate (mkRecord "" "test.zone" "TestPrefixs9.test.zone"
                                  "SRV" 10 [] [])], 2)
  ∧ remove exMirror {[ "s1" := withA ]}
    = ([CallDelete "test.zone" "s1.test.zone" "A"], 1)
  ∧ remove exMirror {[ "test.zone" := withA ]}
    = ([CallDelete "test.zone" "test.zone" "A"], 1).
Proof. repeat split; by vm_compute. Qed.

(** TestConsulTransformNodes. *)
Example test_transformNodes :
  Consul.transformNodes
    [Consul.mkCatalogService "" "1.1.1.1" 3 "s1";
     Consul.mkCatalogService "" "1.1.1.1" 4 "s1";
     Consul.mkCatalogService "" "2.2.2.2" 3 "s1"]
  = {[ "1.1.1.1" := Node "" "" "" "1.1.1.1"
                         {[ 3 := SrvAnswer 1 1 3 "1.1.1.1";
                            4 := SrvAnswer 1 1 4 "1.1.1.1" ]};
       "2.2.2.2" := Node "" "" "" "2.2.2.2"
                         {[ 3 := SrvAnswer 1 1 3 "2.2.2.2" ]} ]}.
Proof. by vm_compute. Qed.

End tests.

(** ** The diff *)

Section diff.
Implicit Types (D O A B : gmap string service) (k : string).

Lemma same_keys_same_dom {K : Type} `{Countable K} {V W : Type}
    (m1 : gmap K V) (m2 : gmap K W) :
  size m1 = size m2 →
  (∀ i, is_Some (m1 !! i) → is_Some (m2 !! i)) →
  dom m1 = dom m2.
Proof.
  intros Hsize Hsub. apply set_subseteq_size_eq.
  - intros i. rewrite !elem_of_dom. apply Hsub.
  - rewrite !size_dom. lia.
Qed.

Lemma srvAnswers_loop (expected actual : gmap Z srvAnswer) :
  forallb (λ '(p, e), srvAnswerMatches actual p e) (map_to_list expected) = true
  ↔ ∀ p e, expected !! p = Some e → actual !! p = Some e.
Proof.
  rewrite forallb_forall. split.
  - intros Hall p e Hp.
    specialize (Hall (p, e)). simpl in Hall. unfold srvAnswerMatches in Hall.
    destruct (actual !! p) as [a|].
    + rewrite bool_decide_eq_true in Hall. f_equal. symmetry. apply Hall.
      apply list_elem_of_In, elem_of_map_to_list, Hp.
    + discriminate Hall. apply list_elem_of_In, elem_of_map_to_list, Hp.
  - intros Hall [p e] Hin.
    apply list_elem_of_In, elem_of_map_to_list in Hin.
    unfold srvAnswerMatches. rewrite (Hall p e Hin).
    by apply bool_decide_eq_true.
Qed.

Lemma srvAnswersEqual_check (expected actual : gmap Z srvAnswer) :
  size expected = size actual
  ∧ (∀ p e, expected !! p = Some e → actual !! p = Some e)
  ↔ srvAnswersEqual expected actual.
Proof.
  split.
  - intros [Hsize Hsub]. split.
    + apply same_keys_same_dom; [done|]. intros p [e He]. eauto.
    + intros p x y Hx Hy. apply Hsub in Hx. congruence.
  - intros [Hdom Heq]. split.
    + by rewrite <- !size_dom, Hdom.
    + intros p e He.
      assert (is_Some (actual !! p)) as [y Hy].
      { apply elem_of_dom. rewrite <- Hdom. apply elem_of_dom. eauto. }
      rewrite Hy. f_equal. symmetry. eauto.
Qed.

Lemma nodeMatches_spec (actual : gmap string node) h (e : node) :
  nodeMatches actual h e = true
  ↔ ∃ a, actual !! h = Some a ∧ aRecAnswer e = aRecAnswer a
         ∧ srvAnswersEqual (srvRecAnswers e) (srvRecAnswers a).
Proof.
  unfold nodeMatches.
  destruct (actual !! h) as [a|]; [|split; [done|by intros (? & [=] & _)]].
  destruct (String.eqb_spec (aRecAnswer a) (aRecAnswer e)) as [Ha|Ha]; simpl;
    [|split; [done|by intros (a' & [= <-] & Heq & _)]].
  destruct (Nat.eqb_spec (size (srvRecAnswers e)) (size (srvRecAnswers a)))
    as [Hs|Hs]; simpl.
  - rewrite srvAnswers_loop. split.
    + intros Hall. exists a. split; [done|]. split; [done|].
      by apply srvAnswersEqual_check.
    + intros (a' & [= <-] & _ & Heq).
      by apply srvAnswersEqual_check in Heq as [].
  - split; [done|]. intros (a' & [= <-] & _ & Heq).
    by apply srvAnswersEqual_check in Heq as [].
Qed.

(** [nodesAreEqual] decides the structural equality of the specification. *)
Lemma nodesAreEqual_spec (expected actual : gmap string node) :
  nodesAreEqual expected actual = true ↔ instancesEqual expected actual.
Proof.
  unfold nodesAreEqual.
  destruct (Nat.eqb_spec (size expected) (size actual)) as [Hs|Hs]; simpl.
  - rewrite forallb_forall. split.
    + intros Hall.
      assert (∀ h e, expected !! h = Some e → nodeMatches actual h e = true)
        as Hall'.
      { intros h e He. apply (Hall (h, e)).
        apply list_elem_of_In, elem_of_map_to_list, He. }
      split.
      * apply same_keys_same_dom; [done|]. intros h [e He].
        pose proof (Hall' _ _ He) as Hm.
        apply nodeMatches_spec in Hm as (a & -> & _). eauto.
      * intros h na nb Ha Hb.
        pose proof (Hall' _ _ Ha) as Hm.
        apply nodeMatches_spec in Hm as (a & Ha' & ? & ?).
        by simplify_eq.
    + intros [Hdom Heq] [h e] Hin.
      apply list_elem_of_In, elem_of_map_to_list in Hin.
      apply nodeMatches_spec.
      assert (is_Some (actual !! h)) as [a Ha].
      { apply elem_of_dom. rewrite <- Hdom. apply elem_of_dom. eauto. }
      exists a. split; [done|]. by apply (Heq h).
  - split; [done|]. intros [Hdom _]. destruct Hs.
    by rewrite <- !size_dom, Hdom.
Qed.

Lemma srvAnswersEqual_refl (a : gmap Z srvAnswer) : srvAnswersEqual a a.
Proof. split; [done|]. intros; congruence. Qed.

Lemma instancesEqual_refl (a : gmap string node) : instancesEqual a a.
Proof.
  split; [done|]. intros h na nb ? ?. simplify_eq.
  split; [done|]. apply srvAnswersEqual_refl.
Qed.

Lemma if_len_zero {A : Type} (x : string) (a b : A) :
  (if len x =? 0 then a else b) = if decide (x = "") then a else b.
Proof. by destruct x. Qed.

Lemma if_Z_zero {A : Type} (z : Z) (a b : A) :
  (if z =? 0 then a else b) = if decide (z = 0) then a else b.
Proof. destruct (Z.eqb_spec z 0); by case_decide. Qed.

Lemma differs_spec (sa sb : service) :
  differs sa sb = true
  ↔ ¬ instancesEqual (nodes sa) (nodes sb) ∨ ttls sa ≠ ttls sb.
Proof.
  unfold differs.
  pose proof (nodesAreEqual_spec (nodes sa) (nodes sb)) as Hn.
  destruct (nodesAreEqual _ _); simpl.
  - rewrite negb_true_iff, bool_decide_eq_false. split; [auto|].
    intros [Hne|?]; [|done]. destruct Hne. by apply Hn.
  - split; [|done]. intros _. left. by intros Heq%Hn.
Qed.

(** What [onlyInFirst] holds at a key. *)
Lemma onlyInFirst_lookup A B k :
  onlyInFirst A B !! k =
    match A !! k with
    | None => None
    | Some sa =>
        match B !! k with
        | None => Some sa
        | Some sb => if differs sa sb then Some (mergeService sa sb) else None
        end
    end.
Proof.
  unfold onlyInFirst.
  apply (map_fold_weak_ind
           (λ r m, r !! k = match m !! k with
                            | None => None
                            | Some sa =>
                                match B !! k with
                                | None => Some sa
                                | Some sb =>
                                    if differs sa sb
                                    then Some (mergeService sa sb) else None
                                end
                            end)).
  - by rewrite !lookup_empty.
  - intros i sa m r Hi IH. unfold onlyInFirst_step.
    destruct (decide (i = k)) as [->|Hne].
    + rewrite lookup_insert_eq. rewrite Hi in IH.
      destruct (B !! k) as [sb|]; [|by rewrite lookup_insert_eq].
      fold (differs sa sb). destruct (differs sa sb);
        [by rewrite lookup_insert_eq|done].
    + rewrite lookup_insert_ne by done.
      destruct (B !! i) as [sb|]; [|by rewrite lookup_insert_ne].
      fold (differs sa sb). destruct (differs sa sb);
        [by rewrite lookup_insert_ne|done].
Qed.

Lemma serviceOnlyInFirst_lookup A B k :
  serviceOnlyInFirst A B !! k =
    match B !! k with
    | None => A !! k
    | Some _ => None
    end.
Proof.
  unfold serviceOnlyInFirst.
  apply (map_fold_weak_ind
           (λ r m, r !! k = match B !! k with
                            | None => m !! k
                            | Some _ => None
                            end)).
  - rewrite !lookup_empty. by destruct (B !! k).
  - intros i sa m r Hi IH. unfold serviceOnlyInFirst_step.
    destruct (decide (i = k)) as [->|Hne].
    + rewrite lookup_insert_eq. destruct (B !! k); [done|].
      by rewrite lookup_insert_eq.
    + rewrite lookup_insert_ne by done.
      destruct (B !! i); [done|]. by rewrite lookup_insert_ne.
Qed.

End diff.

(** ** The reconciliation pass *)

Section pass.
Import Consul.

(** C1. For every desired snapshot [D] (the registry mirror's) and observed
    snapshot [O] (the DNS mirror's), the pass hands to [create] exactly the
    names of [D] that are missing from [O] or whose instance sets differ
    structurally or whose TTL pairs differ, and hands to [remove] exactly the
    names of [O] that are missing from [D]. *)
Theorem syncPass_upsert_and_remove_sets (c : consul) (n : NS1.ns1) :
  let D := services c in
  let O := NS1.services n in
  let p := syncPass c n in
  (∀ k, k ∈ dom (upsert p) ↔
        ∃ sa, D !! k = Some sa
              ∧ (O !! k = None
                 ∨ ∃ sb, O !! k = Some sb
                         ∧ (¬ instancesEqual (nodes sa) (nodes sb)
                            ∨ ttls sa ≠ ttls sb)))
  ∧ (∀ k, k ∈ dom (removed_services p) ↔ k ∈ dom O ∧ k ∉ dom D)
  ∧ created p = NS1.create n (upsert p)
  ∧ removed p = NS1.remove n (removed_services p).
Proof.
  intros D O p. split; [|split; [|done]].
  - intros k. rewrite elem_of_dom. unfold p, syncPass; simpl.
    rewrite onlyInFirst_lookup. fold D O.
    destruct (D !! k) as [sa|]; [|split; [intros [? [=]]|intros [? [[=] _]]]].
    destruct (O !! k) as [sb|].
    + pose proof (differs_spec sa sb) as Hd. destruct (differs sa sb).
      * split; [|eauto]. intros _. exists sa. split; [done|]. right.
        exists sb. split; [done|]. by apply Hd.
      * split; [intros [? [=]]|].
        intros (sa' & [= <-] & [[=]|(sb' & [= <-] & Hne)]).
        apply Hd in Hne. discriminate.
    + split; [|eauto]. intros _. exists sa. auto.
  - intros k. rewrite !elem_of_dom. unfold p, syncPass; simpl.
    rewrite serviceOnlyInFirst_lookup. fold D O.
    destruct (D !! k) as [sa|].
    + split; [intros [? [=]]|]. intros [_ Hk]. destruct Hk. eauto.
    + split; [|tauto]. intros HO. split; [done|]. by intros [? [=]].
Qed.

(** The maps of a pass between two snapshots with the same projection. *)
Lemma sameProjection_no_diff (D O : gmap string service) :
  sameProjection D O → onlyInFirst D O = ∅ ∧ serviceOnlyInFirst O D = ∅.
Proof.
  intros [Hdom Hsame]. split; apply map_eq; intros k; rewrite lookup_empty.
  - rewrite onlyInFirst_lookup.
    destruct (D !! k) as [sa|] eqn:HD; [|done].
    assert (is_Some (O !! k)) as [sb HO].
    { apply elem_of_dom. rewrite <- Hdom. apply elem_of_dom. eauto. }
    rewrite HO. destruct (Hsame k sa sb HD HO) as [Hn Ht].
    pose proof (differs_spec sa sb) as Hd.
    destruct (differs sa sb); [|done]. destruct Hd as [[?|?] _]; done.
  - rewrite serviceOnlyInFirst_lookup.
    destruct (D !! k) as [sa|] eqn:HD; [done|].
    apply not_elem_of_dom. rewrite <- Hdom. by apply not_elem_of_dom.
Qed.

Lemma sameProjection_refl (S : gmap string service) : sameProjection S S.
Proof.
  split; [done|]. intros k sa sb ? ?. simplify_eq.
  split; [apply instancesEqual_refl|done].
Qed.

Lemma create_empty (n : NS1.ns1) : NS1.create n ∅ = Some ([], 0).
Proof. unfold NS1.create. by rewrite map_fold_empty. Qed.

Lemma remove_empty (n : NS1.ns1) : NS1.remove n ∅ = ([], 0).
Proof. unfold NS1.remove. by rewrite map_fold_empty. Qed.

(** C2. A pass between a desired and an observed snapshot that are identical
    up to the backfilled identifiers upserts nothing and removes nothing: it
    makes no remote call at all. *)
Theorem syncPass_idempotent (c : consul) (n : NS1.ns1) :
  sameProjection (services c) (NS1.services n) →
  let p := syncPass c n in
  upsert p = ∅ ∧ removed_services p = ∅
  ∧ created p = Some ([], 0) ∧ removed p = ([], 0).
Proof.
  intros Hsame p. apply sameProjection_no_diff in Hsame as [Hu Hr].
  unfold p, syncPass; simpl. rewrite Hu, Hr.
  by rewrite create_empty, remove_empty.
Qed.

Lemma syncPass_idempotent_witness :
  sameProjection (services syncedConsul) (NS1.services syncedNS1)
  ∧ upsert (syncPass syncedConsul syncedNS1) = ∅
  ∧ removed_services (syncPass syncedConsul syncedNS1) = ∅
  ∧ created (syncPass syncedConsul syncedNS1) = Some ([], 0)
  ∧ removed (syncPass syncedConsul syncedNS1) = ([], 0).
Proof.
  assert (sameProjection (services syncedConsul) (NS1.services syncedNS1))
    as Hsame.
  { split; [by vm_compute|]. intros k sa sb Ha Hb. simpl in Ha, Hb.
    apply lookup_singleton_Some in Ha as [<- <-].
    apply lookup_singleton_Some in Hb as [_ <-].
    split; [|done]. apply nodesAreEqual_spec. by vm_compute. }
  split; [exact Hsame|].
  exact (syncPass_idempotent syncedConsul syncedNS1 Hsame).
Defined.

(** The same, for one snapshot [S] on both sides, and for two empty sides. *)
Lemma syncPass_same_snapshot (c : consul) (n : NS1.ns1) :
  services c = NS1.services n →
  created (syncPass c n) = Some ([], 0) ∧ removed (syncPass c n) = ([], 0).
Proof.
  intros Heq. unfold syncPass; simpl.
  destruct (sameProjection_no_diff (services c) (NS1.services n)) as [-> ->].
  { rewrite Heq. apply sameProjection_refl. }
  by rewrite create_empty, remove_empty.
Qed.

Lemma syncPass_empty (c : consul) (n : NS1.ns1) :
  services c = ∅ → NS1.services n = ∅ →
  created (syncPass c n) = Some ([], 0) ∧ removed (syncPass c n) = ([], 0).
Proof. intros Hc Hn. apply syncPass_same_snapshot. by rewrite Hc, Hn. Qed.

(** C3. In the payload the pass builds for a name present on both sides, a
    record ID is non-empty exactly when it is non-empty on one side at least,
    the desired side wins when it has one, the id, the name and the TTLs that
    are empty or zero on the desired side are those of the observed side, and
    the instances are the desired ones. *)
Theorem upsert_payload_backfill (c : consul) (n : NS1.ns1)
    (k : string) (sa sb s : service) :
  services c !! k = Some sa →
  NS1.services n !! k = Some sb →
  upsert (syncPass c n) !! k = Some s →
  (aRecID (ns1IDs s) ≠ "" ↔
     aRecID (ns1IDs sa) ≠ "" ∨ aRecID (ns1IDs sb) ≠ "")
  ∧ (srvRecID (ns1IDs s) ≠ "" ↔
       srvRecID (ns1IDs sa) ≠ "" ∨ srvRecID (ns1IDs sb) ≠ "")
  ∧ aRecID (ns1IDs s) =
      (if decide (aRecID (ns1IDs sa) = "") then aRecID (ns1IDs sb)
       else aRecID (ns1IDs sa))
  ∧ srvRecID (ns1IDs s) =
      (if decide (srvRecID (ns1IDs sa) = "") then srvRecID (ns1IDs sb)
       else srvRecID (ns1IDs sa))
  ∧ svc_id s = (if decide (svc_id sa = "") then svc_id sb else svc_id sa)
  ∧ svc_name s =
      (if decide (svc_name sa = "") then svc_name sb else svc_name sa)
  ∧ aRecTTL (ttls s) =
      (if decide (aRecTTL (ttls sa) = 0) then aRecTTL (ttls sb)
       else aRecTTL (ttls sa))
  ∧ srvRecTTL (ttls s) =
      (if decide (srvRecTTL (ttls sa) = 0) then srvRecTTL (ttls sb)
       else srvRecTTL (ttls sa))
  ∧ nodes s = nodes sa.
Proof.
  intros Ha Hb. unfold syncPass; simpl.
  rewrite onlyInFirst_lookup, Ha, Hb.
  destruct (differs sa sb); [|done]. intros [= <-].
  unfold mergeService; simpl. rewrite !if_len_zero, !if_Z_zero.
  repeat split; repeat case_decide; try done; try tauto; congruence.
Qed.

Lemma upsert_payload_backfill_witness :
  let sa := Service "s1" "s1" {[ "1.1.1.1" := exNode ]} ∅
                    (RecordTTLs 0 0) (RecordIDs "" "") "s1" in
  let sb := Service "" "s1" {[ "1.1.1.1" := exNode ]} ∅
                    (RecordTTLs 60 60) (RecordIDs "r1" "r2") "" in
  let s := Service "s1" "s1" {[ "1.1.1.1" := exNode ]} ∅
                   (RecordTTLs 60 60) (RecordIDs "r1" "r2") "" in
  (aRecID (ns1IDs s) ≠ "" ↔
     aRecID (ns1IDs sa) ≠ "" ∨ aRecID (ns1IDs sb) ≠ "")
  ∧ (srvRecID (ns1IDs s) ≠ "" ↔
       srvRecID (ns1IDs sa) ≠ "" ∨ srvRecID (ns1IDs sb) ≠ "")
  ∧ aRecID (ns1IDs s) =
      (if decide (aRecID (ns1IDs sa) = "") then aRecID (ns1IDs sb)
       else aRecID (ns1IDs sa))
  ∧ srvRecID (ns1IDs s) =
      (if decide (srvRecID (ns1IDs sa) = "") then srvRecID (ns1IDs sb)
       else srvRecID (ns1IDs sa))
  ∧ svc_id s = (if decide (svc_id sa = "") then svc_id sb else svc_id sa)
  ∧ svc_name s =
      (if decide (svc_name sa = "") then svc_name sb else svc_name sa)
  ∧ aRecTTL (ttls s) =
      (if decide (aRecTTL (ttls sa) = 0) then aRecTTL (ttls sb)
       else aRecTTL (ttls sa))
  ∧ srvRecTTL (ttls s) =
      (if decide (srvRecTTL (ttls sa) = 0) then srvRecTTL (ttls sb)
       else srvRecTTL (ttls sa))
  ∧ nodes s = nodes sa.
Proof.
  intros sa sb s.
  apply (upsert_payload_backfill zeroTTLConsul zeroTTLNS1 "s1" sa sb s);
    vm_compute; reflexivity.
Defined.

End pass.

(** ** Strings *)

Section strings.
Implicit Types (x y z : string) (c : ascii).

Lemma append_nil x : "" ++ x = x.
Proof. reflexivity. Qed.

Lemma append_cons c x y : String c x ++ y = String c (x ++ y).
Proof. reflexivity. Qed.

Lemma length_append x y :
  String.length (x ++ y) = (String.length x + String.length y)%nat.
Proof.
  induction x as [|c x IH]; [done|].
  rewrite append_cons. simpl. by rewrite IH.
Qed.

Lemma append_inv_tail x y z : x ++ z = y ++ z → x = y.
Proof.
  revert y. induction x as [|c x IH]; intros [|d y] Heq; [done| | |].
  - apply (f_equal String.length) in Heq.
    rewrite append_nil, append_cons in Heq. simpl in Heq.
    rewrite length_append in Heq. lia.
  - apply (f_equal String.length) in Heq.
    rewrite append_nil, append_cons in Heq. simpl in Heq.
    rewrite length_append in Heq. lia.
  - rewrite !append_cons in Heq. injection Heq as -> Heq.
    f_equal. by apply IH.
Qed.

Lemma substring_all z : substring 0 (String.length z) z = z.
Proof. induction z as [|c z IH]; [done|]. simpl. by rewrite IH. Qed.

Lemma substring_append_tail x z :
  substring (String.length x) (String.length z) (x ++ z) = z.
Proof.
  induction x as [|c x IH]; [apply substring_all|].
  rewrite append_cons. simpl. apply IH.
Qed.

Lemma HasSuffix_append x z : HasSuffix (x ++ z) z = true.
Proof.
  unfold HasSuffix. rewrite length_append.
  replace (String.length x + String.length z - String.length z)%nat
    with (String.length x) by lia.
  rewrite substring_append_tail, String.eqb_refl, andb_true_r.
  apply Nat.leb_le. lia.
Qed.

End strings.

(** ** The DNS writes *)

Section writes.
Import NS1.
Implicit Types (n : ns1) (k : string) (s : service) (r : Record_).

Lemma generateRecord_new n name t :
  generateRecord n "" name t =
    (Some (mkRecord "" (zone_name (serviceZone n))
                    (name ++ "." ++ zone_name (serviceZone n)) t (dnsTTL n)
                    [] []), []).
Proof.
  unfold generateRecord, NewRecord. simpl.
  replace (name ++ "." ++ zone_name (serviceZone n))
    with ((name ++ ".") ++ zone_name (serviceZone n)).
  - by rewrite HasSuffix_append.
  - induction name as [|c name IH]; [done|].
    rewrite !append_cons. by rewrite IH.
Qed.

(** [generateOrNew] never yields a nil record. *)
Lemma generateOrNew_spec n id name t :
  let zoneName := zone_name (serviceZone n) in
  let domain := name ++ "." ++ zoneName in
  ∃ r calls,
    generateOrNew n id name t = (Some r, calls)
    ∧ rec_TTL r = dnsTTL n ∧ rec_Answers r = []
    ∧ Forall (λ call, call = CallGet zoneName domain t) calls
    ∧ (id = "" → rec_Zone r = zoneName ∧ rec_Domain r = domain)
    ∧ (rec_Domain r = domain
       ∨ ∃ r0, Get (client n) zoneName domain t = Some r0
               ∧ rec_Domain r = rec_Domain r0).
Proof.
  intros zoneName domain. unfold generateOrNew.
  destruct (String.eqb_spec id "") as [->|Hid].
  - rewrite generateRecord_new. eexists _, _. split; [done|]. simpl.
    split_and!; auto.
  - unfold generateRecord at 1. fold zoneName domain.
    destruct (String.eqb_spec id "") as [?|_]; [done|].
    destruct (Get (client n) zoneName domain t) as [r0|] eqn:Hget.
    + eexists _, _. split; [done|]. simpl.
      split_and!; [done|done|by repeat constructor|done|].
      right. by exists r0.
    + rewrite generateRecord_new. eexists _, _. split; [done|]. simpl.
      split_and!; [done|done|by repeat constructor|done|by left].
Qed.

Lemma AddAnswer_header r rdata : header (AddAnswer r rdata) = header r.
Proof. done. Qed.

Lemma addAnswers_header (nd : node) (recs : Record_ * Record_) :
  header (fst (addAnswers nd recs)) = header (fst recs)
  ∧ header (snd (addAnswers nd recs)) = header (snd recs).
Proof.
  unfold addAnswers. simpl. split.
  - by destruct (negb _).
  - apply (map_fold_weak_ind (λ r' _, header r' = header (snd recs))); [done|].
    intros p a m r' _ IH. by rewrite AddAnswer_header.
Qed.

Lemma fold_addAnswers_header (nds : gmap string node)
    (recs : Record_ * Record_) :
  let recs' := map_fold (λ (_ : string) nd recs, addAnswers nd recs) recs nds in
  header (fst recs') = header (fst recs)
  ∧ header (snd recs') = header (snd recs).
Proof.
  simpl.
  apply (map_fold_weak_ind
           (λ recs' _, header (fst recs') = header (fst recs)
                       ∧ header (snd recs') = header (snd recs))); [done|].
  intros h nd m recs' _ [IHa IHs].
  destruct (addAnswers_header nd recs') as [Ha Hs]. by rewrite Ha, Hs.
Qed.

Lemma upsertRecordWorker_call n recID r count :
  fst (upsertRecordWorker n recID r count) =
    if decide (recID = "") then CallCreate r else CallUpdate r.
Proof.
  unfold upsertRecordWorker.
  destruct (String.eqb_spec recID ""); by case_decide.
Qed.

(** The body of the loop of [create] always completes, and every call it
    makes is a call for its key. *)
Lemma createService_calls n k s count :
  ∃ calls count',
    createService n k s count = Some (calls, count')
    ∧ Forall (upsertCall n k) calls
    ∧ (∃ ra, CallCreate ra ∈ calls ∨ CallUpdate ra ∈ calls).
Proof.
  unfold createService.
  destruct (generateOrNew_spec n (aRecID (ns1IDs s)) (ns1Prefix n ++ k) "A")
    as (ra & callsA & -> & HttlA & _ & HcallsA & HnewA & HdomA).
  destruct (generateOrNew_spec n (srvRecID (ns1IDs s)) (ns1Prefix n ++ k) "SRV")
    as (rs & callsS & -> & HttlS & _ & HcallsS & HnewS & HdomS).
  simpl.
  pose proof (fold_addAnswers_header (nodes s) (ra, rs)) as [Ha Hs].
  simpl in Ha, Hs.
  destruct (map_fold _ (ra, rs) (nodes s)) as [ra' rs']. simpl in Ha, Hs.
  injection Ha as _ HzA HdA HtA HttlA' _.
  injection Hs as _ HzS HdS HtS HttlS' _.
  pose proof (upsertRecordWorker_call n (aRecID (ns1IDs s)) ra' count) as HcA.
  destruct (upsertRecordWorker n (aRecID (ns1IDs s)) ra' count)
    as [callA count1]. simpl in HcA.
  pose proof (upsertRecordWorker_call n (srvRecID (ns1IDs s)) rs' count1)
    as HcS.
  destruct (upsertRecordWorker n (srvRecID (ns1IDs s)) rs' count1)
    as [callS count2]. simpl in HcS.
  eexists _, _. split; [done|]. split.
  - rewrite !Forall_app. split; [|split].
    + eapply Forall_impl; [exact HcallsA|]. by intros call ->.
    + eapply Forall_impl; [exact HcallsS|]. by intros call ->.
    + repeat constructor.
      * rewrite HcA. destruct (decide (aRecID (ns1IDs s) = "")) as [Hid|Hid];
          simpl.
        -- destruct (HnewA Hid) as [Hz Hd]. rewrite HttlA', HzA, HdA. done.
        -- split; [congruence|]. rewrite HdA.
           destruct HdomA as [?|(r0 & Hget & Hd)]; [left; assumption|].
           right. by exists "A", r0.
      * rewrite HcS. destruct (decide (srvRecID (ns1IDs s) = "")) as [Hid|Hid];
          simpl.
        -- destruct (HnewS Hid) as [Hz Hd]. rewrite HttlS', HzS, HdS. done.
        -- split; [congruence|]. rewrite HdS.
           destruct HdomS as [?|(r0 & Hget & Hd)]; [left; assumption|].
           right. by exists "SRV", r0.
  - exists ra'. rewrite HcA.
    destruct (decide (aRecID (ns1IDs s) = "")); [left|right];
      rewrite !elem_of_app, !elem_of_cons; auto.
Qed.

(** [create] always completes, and each of its calls is a call for one of the
    services it was given. *)
Lemma create_calls n (svcs : gmap string service) :
  ∃ calls count,
    create n svcs = Some (calls, count)
    ∧ Forall (λ call, ∃ k s, svcs !! k = Some s ∧ upsertCall n k call) calls.
Proof.
  unfold create.
  apply (map_fold_weak_ind
           (λ acc (m : gmap string service),
              ∃ calls count,
                acc = Some (calls, count)
                ∧ Forall (λ call, ∃ k s, m !! k = Some s ∧ upsertCall n k call)
                         calls)).
  - exists [], 0. by split.
  - intros k s m acc Hk (calls & count & -> & Hcalls). simpl.
    destruct (createService_calls n k s count)
      as (calls' & count' & -> & Hcalls' & _).
    simpl. eexists _, _. split; [done|].
    apply Forall_app. split.
    + eapply Forall_impl; [exact Hcalls|].
      intros call (k' & s' & Hk' & Hcall). exists k', s'. split; [|done].
      rewrite lookup_insert_ne; [done|]. intros ->. congruence.
    + eapply Forall_impl; [exact Hcalls'|].
      intros call Hcall. exists k, s. by rewrite lookup_insert_eq.
Qed.

Lemma upsertDomain_not_zone n k :
  upsertDomain n k ≠ zone_name (serviceZone n).
Proof.
  unfold upsertDomain. intros Heq. apply (f_equal String.length) in Heq.
  rewrite !length_append in Heq. simpl in Heq. lia.
Qed.

Lemma removeDomain_spec n k :
  removeDomain n k =
    if decide (k = zone_name (serviceZone n)) then zone_name (serviceZone n)
    else (ns1Prefix n ++ k) ++ "." ++ zone_name (serviceZone n).
Proof.
  unfold removeDomain.
  destruct (String.eqb_spec k (zone_name (serviceZone n))); by case_decide.
Qed.

Lemma removeDomain_inj n k1 k2 :
  removeDomain n k1 = removeDomain n k2 → k1 = k2.
Proof.
  rewrite !removeDomain_spec. repeat case_decide; [congruence| | |].
  - intros Heq. symmetry in Heq. by apply upsertDomain_not_zone in Heq.
  - intros Heq. by apply upsertDomain_not_zone in Heq.
  - intros Heq. apply append_inv_tail in Heq. by apply String.app_inj in Heq.
Qed.

Lemma removeService_calls n k s count :
  fst (removeService n k s count) = deletesOf n k s.
Proof.
  unfold removeService, deletesOf, removeRecordWorker, len.
  destruct (aRecID (ns1IDs s)); destruct (srvRecID (ns1IDs s)); done.
Qed.

Lemma elem_of_deletesOf n k s call :
  call ∈ deletesOf n k s ↔
    ∃ t, call = CallDelete (zone_name (serviceZone n)) (removeDomain n k) t
         ∧ ((t = "A" ∧ aRecID (ns1IDs s) ≠ "")
            ∨ (t = "SRV" ∧ srvRecID (ns1IDs s) ≠ "")).
Proof.
  unfold deletesOf. rewrite elem_of_app. split.
  - intros [Hin|Hin]; case_decide; try by apply elem_of_nil in Hin.
    + apply list_elem_of_singleton in Hin. exists "A". auto.
    + apply list_elem_of_singleton in Hin. exists "SRV". auto.
  - intros (t & -> & [[-> Hid]|[-> Hid]]); [left|right];
      (case_decide; [done|]); by apply list_elem_of_singleton.
Qed.

Lemma NoDup_deletesOf n k s : NoDup (deletesOf n k s).
Proof.
  unfold deletesOf. repeat case_decide; simpl;
    repeat constructor; rewrite ?elem_of_cons, ?elem_of_nil;
    try tauto. intros [[=]|[]].
Qed.

(** The calls of [remove]: no call twice, and the deletes of each service. *)
Lemma remove_calls n (svcs : gmap string service) :
  NoDup (fst (remove n svcs))
  ∧ ∀ call, call ∈ fst (remove n svcs) ↔
            ∃ k s, svcs !! k = Some s ∧ call ∈ deletesOf n k s.
Proof.
  unfold remove.
  apply (map_fold_weak_ind
           (λ (acc : list apiCall * Z) (m : gmap string service),
              NoDup (fst acc)
              ∧ ∀ call, call ∈ fst acc ↔
                        ∃ k s, m !! k = Some s ∧ call ∈ deletesOf n k s)).
  - split; [constructor|]. intros call. simpl. split.
    + by intros ?%elem_of_nil.
    + by intros (k & s & ?%lookup_empty_Some & _).
  - intros k s m [calls count] Hk [Hnd Hin]. simpl in *.
    pose proof (removeService_calls n k s count) as Hcalls.
    destruct (removeService n k s count) as [calls' count']. simpl in *.
    subst calls'. split.
    + apply NoDup_app. split; [done|]. split; [|apply NoDup_deletesOf].
      intros call (k' & s' & Hk' & Hin')%Hin Hin''.
      apply elem_of_deletesOf in Hin' as (t' & -> & _).
      apply elem_of_deletesOf in Hin'' as (t & [= Hd _] & _).
      apply removeDomain_inj in Hd. congruence.
    + intros call. rewrite elem_of_app, Hin. split.
      * intros [(k' & s' & Hk' & Hc)|Hc].
        -- exists k', s'. split; [|done]. rewrite lookup_insert_ne; [done|].
           intros ->. congruence.
        -- exists k, s. by rewrite lookup_insert_eq.
      * intros (k' & s' & Hk' & Hc).
        destruct (decide (k = k')) as [->|Hne].
        -- rewrite lookup_insert_eq in Hk'. injection Hk' as ->. by right.
        -- rewrite lookup_insert_ne in Hk' by done. left. eauto.
Qed.

(** C6. [remove] issues, for each service it is given, one delete per record
    type whose stored ID is non-empty and none for a type whose ID is empty,
    at the domain prefix + key + "." + zone name, or at the zone name itself
    when the key is the zone name; it issues nothing else and no delete
    twice.  The key of a service in a snapshot is its name. *)
Theorem remove_deletes_by_record_id n (svcs : gmap string service) :
  let zoneName := zone_name (serviceZone n) in
  let calls := fst (remove n svcs) in
  (∀ call, call ∈ calls ↔
           ∃ k s t, svcs !! k = Some s
                    ∧ call = CallDelete zoneName (removeDomain n k) t
                    ∧ ((t = "A" ∧ aRecID (ns1IDs s) ≠ "")
                       ∨ (t = "SRV" ∧ srvRecID (ns1IDs s) ≠ "")))
  ∧ NoDup calls
  ∧ (∀ k, removeDomain n k =
          if decide (k = zoneName) then zoneName
          else (ns1Prefix n ++ k) ++ "." ++ zoneName).
Proof.
  intros zoneName calls. destruct (remove_calls n svcs) as [Hnd Hin].
  split; [|split; [done|apply removeDomain_spec]].
  intros call. unfold calls. rewrite Hin. split.
  - intros (k & s & Hk & (t & -> & Ht)%elem_of_deletesOf). by exists k, s, t.
  - intros (k & s & t & Hk & -> & Ht). exists k, s. split; [done|].
    apply elem_of_deletesOf. by exists t.
Qed.

(** The pass of the example: the payload has the zone's TTLs, and both
    updates carry a TTL of zero. *)
Lemma zeroTTL_pass :
  Consul.upsert (Consul.syncPass zeroTTLConsul zeroTTLNS1) =
    {[ "s1" := Service "s1" "s1" {[ "1.1.1.1" := exNode ]} ∅
                       (RecordTTLs 60 60) (RecordIDs "r1" "r2") "" ]}
  ∧ Consul.created (Consul.syncPass zeroTTLConsul zeroTTLNS1) =
      Some ([CallGet "example.com" "s1.example.com" "A";
             CallGet "example.com" "s1.example.com" "SRV";
             CallUpdate (mkRecord "rid" "example.com" "s1.example.com" "A" 0
                                  [["1.1.1.1"]] ["shuffle"]);
             CallUpdate (mkRecord "rid" "example.com" "s1.example.com" "SRV"
                                  0 [["1"; "1"; "1"; "1.1.1.1"]] ["shuffle"])],
            2).
Proof. split; by vm_compute. Qed.

(** C4 as stated fails: with a default TTL of zero and the zone at 60, the
    pass updates the A record of [s1] with a TTL of zero. *)
Lemma zero_ttl_forces_change :
  ¬ zeroTTLNeverForcesChange zeroTTLConsul zeroTTLNS1.
Proof.
  intros Hclaim. destruct zeroTTL_pass as [_ Hcalls].
  destruct (Hclaim eq_refl eq_refl _ _ Hcalls
              (mkRecord "rid" "example.com" "s1.example.com" "A" 0
                        [["1.1.1.1"]] ["shuffle"])
              "s1"
              (Service "" "s1" {[ "1.1.1.1" := exNode ]} ∅
                       (RecordTTLs 60 60) (RecordIDs "r1" "r2") ""))
    as [HA _].
  - right. rewrite !elem_of_cons. auto.
  - by vm_compute.
  - by vm_compute.
  - specialize (HA eq_refl). discriminate HA.
Qed.

Lemma create_writes n (svcs : gmap string service) calls count k s :
  create n svcs = Some (calls, count) →
  svcs !! k = Some s →
  ∃ r, CallCreate r ∈ calls ∨ CallUpdate r ∈ calls.
Proof.
  unfold create. revert calls count.
  apply (map_fold_weak_ind
           (λ acc (m : gmap string service),
              ∀ calls count, acc = Some (calls, count) →
                m !! k = Some s →
                ∃ r, CallCreate r ∈ calls ∨ CallUpdate r ∈ calls)).
  - by intros calls count _ ?%lookup_empty_Some.
  - intros i x m acc Hi IH calls count Hacc Hk.
    destruct acc as [[calls0 count0]|]; [|done]. simpl in Hacc.
    destruct (createService_calls n i x count0)
      as (calls' & count' & Hcs & _ & r' & Hr').
    rewrite Hcs in Hacc. simpl in Hacc. injection Hacc as <- <-.
    destruct (decide (i = k)) as [->|Hne].
    + exists r'. rewrite !elem_of_app. tauto.
    + rewrite lookup_insert_ne in Hk by done.
      destruct (IH _ _ eq_refl Hk) as [r Hr]. exists r.
      rewrite !elem_of_app. tauto.
Qed.

(** C4, as the code has it.  A TTL of zero on the registry side of a service
    is taken from the DNS side in the upsert payload; the payload's TTLs are
    not what [create] writes: every record the pass creates or updates, and
    there is one, carries the configured default TTL, so that a default of
    zero writes a TTL of zero. *)
Theorem zero_ttl_backfilled_not_written (c : Consul.consul) (n : ns1)
    (k : string) (sa sb s : service) :
  Consul.services c !! k = Some sa →
  services n !! k = Some sb →
  Consul.upsert (Consul.syncPass c n) !! k = Some s →
  aRecTTL (ttls sa) = 0 →
  srvRecTTL (ttls sa) = 0 →
  ttls s = ttls sb
  ∧ ∃ calls count,
      Consul.created (Consul.syncPass c n) = Some (calls, count)
      ∧ (∀ r, CallCreate r ∈ calls ∨ CallUpdate r ∈ calls →
              rec_TTL r = dnsTTL n)
      ∧ ∃ r, CallCreate r ∈ calls ∨ CallUpdate r ∈ calls.
Proof.
  intros Ha Hb Hs Hta Hts. split.
  - revert Hs. unfold Consul.syncPass; simpl.
    rewrite onlyInFirst_lookup, Ha, Hb.
    destruct (differs sa sb); [|done]. intros [= <-].
    unfold mergeService; simpl. rewrite Hta, Hts. simpl.
    by destruct (ttls sb).
  - unfold Consul.syncPass in *; simpl in *.
    destruct (create_calls n (onlyInFirst (Consul.services c) (services n)))
      as (calls & count & Hcreate & Hcalls).
    exists calls, count. split; [done|]. split.
    + rewrite Forall_forall in Hcalls.
      intros r [Hr|Hr]; destruct (Hcalls _ Hr) as (k' & s' & _ & Hcall);
        simpl in Hcall; tauto.
    + eapply create_writes; eassumption.
Qed.

Lemma zero_ttl_backfilled_not_written_witness :
  ttls (Service "s1" "s1" {[ "1.1.1.1" := exNode ]} ∅
                (RecordTTLs 60 60) (RecordIDs "r1" "r2") "") =
    RecordTTLs 60 60
  ∧ ∃ calls count,
      Consul.created (Consul.syncPass zeroTTLConsul zeroTTLNS1) =
        Some (calls, count)
      ∧ (∀ r, CallCreate r ∈ calls ∨ CallUpdate r ∈ calls →
              rec_TTL r = dnsTTL zeroTTLNS1)
      ∧ ∃ r, CallCreate r ∈ calls ∨ CallUpdate r ∈ calls.
Proof.
  apply (zero_ttl_backfilled_not_written zeroTTLConsul zeroTTLNS1 "s1"
           (Service "s1" "s1" {[ "1.1.1.1" := exNode ]} ∅
                    (RecordTTLs 0 0) (RecordIDs "" "") "s1")
           (Service "" "s1" {[ "1.1.1.1" := exNode ]} ∅
                    (RecordTTLs 60 60) (RecordIDs "r1" "r2") ""));
    vm_compute; reflexivity.
Defined.

(** The body of [create] for a new service named like the zone. *)
Lemma apex_createService :
  createService apexNS1 "example.com" apexService 0 =
    Some ([CallCreate (mkRecord "" "example.com" "example.com.example.com"
                                "A" 60 [["1.1.1.1"]] []);
           CallCreate (mkRecord "" "example.com" "example.com.example.com"
                                "SRV" 60 [["1"; "1"; "1"; "1.1.1.1"]] [])],
          2).
Proof. by vm_compute. Qed.

(** C5 as stated fails: the records of the service named like the zone are
    created at [example.com.example.com]. *)
Lemma apex_upsert_not_at_zone : ¬ apexUpsertedAtZone apexNS1 apexService.
Proof.
  intros Hclaim. specialize (Hclaim _ _ apex_createService).
  apply Forall_cons in Hclaim as [Hd _]. discriminate Hd.
Qed.

(** C5, as the code has it.  [create] has no case for the zone's apex: for a
    service named like the zone, as for any other, it reads, creates and
    updates at prefix + name + "." + zone name (an update sends the record
    the provider returned for that domain), which is never the zone name. *)
Theorem create_domain_has_no_apex_case n (s : service) (count : Z) :
  let zoneName := zone_name (serviceZone n) in
  upsertDomain n zoneName = (ns1Prefix n ++ zoneName) ++ "." ++ zoneName
  ∧ upsertDomain n zoneName ≠ zoneName
  ∧ ∃ calls count',
      createService n zoneName s count = Some (calls, count')
      ∧ Forall (upsertCall n zoneName) calls
      ∧ ∃ r, CallCreate r ∈ calls ∨ CallUpdate r ∈ calls.
Proof.
  intros zoneName. split; [done|]. split; [apply upsertDomain_not_zone|].
  apply createService_calls.
Qed.

End writes.

(** ** Computations that log *)

Section logging_basics.
Import NS1.
Context {A : Type}.
Implicit Types (log : list logEntry).

Lemma appends_ret (a : A) : appends (mret a : M A).
Proof. intros log. unfold mret, M_ret, extend. by rewrite app_nil_r. Qed.

Lemma appends_panic : appends (panic : M A).
Proof. by intros log. Qed.

Lemma appends_log (m : M A) log a log' :
  appends m → m log = Some (a, log') → ∃ e, log' = (log ++ e)%list.
Proof.
  intros Hm. rewrite (Hm log). destruct (m []) as [[a' e]|]; [|done].
  intros [= _ <-]. eauto.
Qed.

Lemma value_at (m : M A) log : appends m → fst <$> m log = value m.
Proof.
  intros Hm. unfold value. rewrite (Hm log).
  by destruct (m []) as [[a e]|].
Qed.

End logging_basics.

Section logging.
Import NS1.
Context {A B : Type}.
Implicit Types (log : list logEntry).

Lemma bind_run (m : M A) (f : A → M B) log :
  (m ≫= f) log = match m log with
                 | None => None
                 | Some (a, log') => f a log'
                 end.
Proof. reflexivity. Qed.

Lemma appends_bind (m : M A) (f : A → M B) :
  appends m → (∀ a, appends (f a)) → appends (m ≫= f).
Proof.
  intros Hm Hf log. rewrite !bind_run, (Hm log).
  destruct (m []) as [[a e]|]; [|done]. simpl.
  rewrite (Hf a (log ++ e)%list), (Hf a e).
  destruct (f a []) as [[b e']|]; [|done]. simpl. by rewrite app_assoc.
Qed.

Lemma value_bind (m : M A) (f : A → M B) :
  (∀ a, appends (f a)) →
  value (m ≫= f) = value m ≫= (λ a, value (f a)).
Proof.
  intros Hf. unfold value. rewrite bind_run.
  destruct (m []) as [[a e]|]; simpl; [|done].
  exact (value_at (f a) e (Hf a)).
Qed.

End logging.

Section loops.
Import NS1.
Context {A B : Type}.
Implicit Types (log : list logEntry).

Lemma appends_forRange (body : B → A → M B) (b : B) (l : list A) :
  (∀ b x, appends (body b x)) → appends (forRange body b l).
Proof.
  intros Hbody. revert b. induction l as [|x l IH]; intros b; simpl.
  - apply appends_ret.
  - apply appends_bind; auto.
Qed.

Lemma value_forRange_cons (body : B → A → M B) (b : B) x (l : list A) :
  (∀ b x, appends (body b x)) →
  value (forRange body b (x :: l)) =
    value (body b x) ≫= (λ b', value (forRange body b' l)).
Proof.
  intros Hbody. simpl. apply value_bind.
  intros b'. by apply appends_forRange.
Qed.

(** A loop panics exactly when one of its iterations does, provided that
    whether an iteration panics depends on the element only. *)
Lemma value_forRange_None (body : B → A → M B) (bad : A → Prop) b l :
  (∀ b x, appends (body b x)) →
  (∀ b x, value (body b x) = None ↔ bad x) →
  value (forRange body b l) = None ↔ Exists bad l.
Proof.
  intros Hbody Hbad. revert b. induction l as [|x l IH]; intros b.
  - rewrite Exists_nil. by cbv.
  - rewrite value_forRange_cons, Exists_cons by done.
    destruct (value (body b x)) as [b'|] eqn:Hx; simpl.
    + rewrite IH. split; [auto|]. intros [Hx'|?]; [|done].
      apply (Hbad b) in Hx'. congruence.
    + split; [|done]. intros _. left. by apply (Hbad b).
Qed.

(** Replacing one element of a loop by one with the same value at every
    state leaves the value of the loop unchanged. *)
Lemma value_forRange_replace (body : B → A → M B) x x' pre post b :
  (∀ b x, appends (body b x)) →
  (∀ b, value (body b x) = value (body b x')) →
  value (forRange body b (pre ++ x :: post)) =
    value (forRange body b (pre ++ x' :: post)).
Proof.
  intros Hbody Hx. revert b. induction pre as [|y pre IH]; intros b.
  - simpl app. rewrite !value_forRange_cons by done. by rewrite Hx.
  - rewrite <- !app_comm_cons, !value_forRange_cons by done.
    destruct (value (body b y)); simpl; auto.
Qed.

(** A property that one iteration establishes and the others keep holds at
    the end of the loop. *)
Lemma forRange_establish (body : B → A → M B)
    (I : B → list logEntry → Prop) x l :
  (∀ b log b' log', body b x log = Some (b', log') → I b' log') →
  (∀ b y log b' log', I b log → body b y log = Some (b', log') → I b' log') →
  x ∈ l →
  ∀ b log b' log', forRange body b l log = Some (b', log') → I b' log'.
Proof.
  intros Hx Hkeep. induction l as [|y l IH]; intros Hin b log b' log'.
  { by apply elem_of_nil in Hin. }
  simpl. rewrite bind_run.
  destruct (body b y log) as [[b1 log1]|] eqn:Hy; [|done]. intros Hrest.
  assert (∀ l b log, I b log → forRange body b l log = Some (b', log') →
                     I b' log') as Hkeeps.
  { clear -Hkeep. intros l. induction l as [|z l IH]; intros b log Hb; simpl.
    - by intros [= <- <-].
    - rewrite bind_run.
      destruct (body b z log) as [[b1 log1]|] eqn:Hz; [|done]. eauto. }
  apply elem_of_cons in Hin as [<-|Hin]; eauto.
Qed.

End loops.

(** ** The DNS mirror *)

Section mirror.
Import NS1.
Implicit Types (n : ns1) (r : ZoneRecord) (ans : string).

Lemma appends_logError msg args : appends (logError msg args).
Proof. by intros log. Qed.

Lemma appends_logDebug msg args : appends (logDebug msg args).
Proof. by intros log. Qed.

Lemma appends_index l i : appends (index l i).
Proof.
  unfold index. destruct (l !! i); [apply appends_ret|apply appends_panic].
Qed.

Ltac appends :=
  repeat first
    [ apply appends_ret | apply appends_panic | apply appends_logError
    | apply appends_logDebug | apply appends_index | apply appends_bind
    | apply appends_forRange
    | progress cbv zeta
    | match goal with
      | |- appends (if ?b then _ else _) => destruct b
      | |- appends (match ?x with _ => _ end) => destruct x
      | |- ∀ _, appends _ => intro
      end ].

Lemma appends_transformAnswer t nds ans : appends (transformAnswer t nds ans).
Proof. unfold transformAnswer. appends. Qed.

Lemma appends_transformRecord n svcs r : appends (transformRecord n svcs r).
Proof.
  unfold transformRecord.
  destruct (negb _ && negb _); appends. apply appends_transformAnswer.
Qed.

Lemma appends_transformZoneRecords n z : appends (transformZoneRecords n z).
Proof.
  unfold transformZoneRecords. apply appends_forRange.
  intros svcs r. apply appends_transformRecord.
Qed.

(** An answer makes the loop panic exactly when it has no field. *)

Lemma index_run (l : list string) i (log : list logEntry) :
  index l i log = match l !! i with
                  | Some x => Some (x, log)
                  | None => None
                  end.
Proof. unfold index. by destruct (l !! i). Qed.

Lemma ret_run {A : Type} (a : A) (log : list logEntry) :
  (mret a : M A) log = Some (a, log).
Proof. reflexivity. Qed.

Lemma logError_run msg args (log : list logEntry) :
  logError msg args log = Some (tt, (log ++ [LogError msg args])%list).
Proof. reflexivity. Qed.

Ltac run :=
  repeat (progress
            (rewrite ?bind_run, ?index_run, ?ret_run, ?logError_run; simpl)).

Lemma transformAnswer_panics t nds ans :
  value (transformAnswer t nds ans) = None ↔ Fields ans = [].
Proof.
  unfold value, transformAnswer.
  destruct (Fields ans) as [|f0 [|f1 [|f2 [|f3 [|f4 fs]]]]]; simpl; [done|..];
    (split; [|done]); run;
    destruct (String.eqb t "A"); run; try done;
    destruct (String.eqb t "SRV"); run; try done.
  destruct (ParseInt f0); run; [|done].
  destruct (ParseInt f1); run; [|done].
  destruct (ParseInt f2); run; done.
Qed.

(** A malformed answer of an SRV record is logged and changes nothing. *)
Lemma transformAnswer_malformed nds ans log :
  malformed ans = true →
  ∃ msg, transformAnswer "SRV" nds ans log =
           Some (nds, (log ++ [LogError msg [ans]])%list).
Proof.
  unfold malformed, parses, transformAnswer.
  destruct (Fields ans) as [|f0 [|f1 [|f2 [|f3 [|f4 fs]]]]]; try done.
  simpl. run.
  destruct (ParseInt f0); run; [|eauto].
  destruct (ParseInt f1); run; [|eauto].
  destruct (ParseInt f2); run; [done|eauto].
Qed.

Lemma isServiceRecord_check r :
  negb (String.eqb (zr_Type r) "A") && negb (String.eqb (zr_Type r) "SRV")
  = bool_decide (¬ isServiceRecord r).
Proof.
  unfold isServiceRecord.
  destruct (String.eqb_spec (zr_Type r) "A");
    destruct (String.eqb_spec (zr_Type r) "SRV"); simpl;
    symmetry; [apply bool_decide_eq_false..|apply bool_decide_eq_true]; tauto.
Qed.

Lemma transformRecord_skip n svcs r :
  ¬ isServiceRecord r →
  transformRecord n svcs r =
    (logDebug "Non-service record type found in zone, ignoring"
              ["ID"; zr_ID r] ≫= λ _, mret svcs).
Proof.
  intros Hr. unfold transformRecord.
  by rewrite isServiceRecord_check, bool_decide_eq_true_2.
Qed.

Lemma transformRecord_service n svcs r :
  isServiceRecord r →
  transformRecord n svcs r =
    (forRange (transformAnswer (zr_Type r)) (nodes (serviceBefore n svcs r))
              (zr_ShortAns r)
     ≫= λ nds, mret (<[recordServiceName n r :=
                         setNodes (serviceBefore n svcs r) nds]> svcs)).
Proof.
  intros Hr. unfold transformRecord.
  rewrite isServiceRecord_check, bool_decide_eq_false_2; [done|tauto].
Qed.

Lemma value_ret {A : Type} (a : A) : value (mret a : M A) = Some a.
Proof. reflexivity. Qed.

(** A record makes the transformation panic exactly when it is an A or SRV
    record with an answer that has no field. *)
Lemma transformRecord_panics n svcs r :
  value (transformRecord n svcs r) = None
  ↔ isServiceRecord r ∧ Exists (λ ans, Fields ans = []) (zr_ShortAns r).
Proof.
  destruct (decide (isServiceRecord r)) as [Hr|Hr].
  - rewrite transformRecord_service, value_bind by (done || appends).
    rewrite <- (value_forRange_None (transformAnswer (zr_Type r)) _
                  (nodes (serviceBefore n svcs r)));
      [|intros; apply appends_transformAnswer
       |intros; apply transformAnswer_panics].
    destruct (value (forRange _ _ _)); simpl; [|tauto].
    rewrite value_ret. split; [done|by intros [_ ?]].
  - rewrite transformRecord_skip by done. split; [done|tauto].
Qed.

Lemma run_None {A : Type} (m : M A) log :
  appends m → m log = None ↔ value m = None.
Proof.
  intros Hm. rewrite <- (value_at m log Hm).
  destruct (m log); simpl; naive_solver.
Qed.

(** *** White space *)

Lemma scanFields_cons c1 s1 :
  scanFields (String c1 s1) =
    if asciiSpace c1 then endField (scanFields s1)
    else
      match s1 with
      | EmptyString => growField c1 (scanFields s1)
      | String c2 s2 =>
          if space2 c1 c2 then endField (scanFields s2)
          else
            match s2 with
            | EmptyString => growField c1 (scanFields s1)
            | String c3 s3 =>
                if space3 c1 c2 c3 then endField (scanFields s3)
                else growField c1 (scanFields s1)
            end
      end.
Proof. by destruct s1 as [|c2 [|c3 s3]]. Qed.

Lemma endField_empty w : endField w = ("", []) ↔ w = ("", []).
Proof. destruct w as [[|c f] fs]; simpl; naive_solver. Qed.

Lemma growField_not_empty c w : growField c w ≠ ("", []).
Proof. by destruct w. Qed.

Lemma space2_lead c1 c2 : space2 c1 c2 = true → asciiSpace c1 = false.
Proof.
  unfold space2, asciiSpace.
  destruct (Z.eqb_spec (byte_of c1) 194) as [->|]; done.
Qed.

Lemma space3_lead c1 c2 c3 :
  space3 c1 c2 c3 = true →
  asciiSpace c1 = false ∧ ∀ c, space2 c1 c = false.
Proof.
  unfold space3, space2, asciiSpace.
  destruct (Z.eqb_spec (byte_of c1) 225) as [->|];
    [done|destruct (Z.eqb_spec (byte_of c1) 226) as [->|];
            [done|destruct (Z.eqb_spec (byte_of c1) 227) as [->|]; done]].
Qed.

Lemma scanFields_whitespaceOnly s :
  scanFields s = ("", []) ↔ whitespaceOnly s.
Proof.
  split.
  - remember (String.length s) as k eqn:Hk.
    assert (String.length s ≤ k)%nat as Hle by lia. clear Hk.
    revert s Hle. induction k as [|k IH]; intros s Hle.
    { destruct s; [constructor|simpl in Hle; lia]. }
    destruct s as [|c1 s1]; [constructor|]. simpl in Hle.
    rewrite scanFields_cons.
    destruct (asciiSpace c1) eqn:H1.
    { rewrite endField_empty. intros Hs. apply ws_ascii; [done|].
      apply IH; [lia|done]. }
    destruct s1 as [|c2 s2]; [by intros ?%growField_not_empty|].
    simpl in Hle.
    destruct (space2 c1 c2) eqn:H2.
    { rewrite endField_empty. intros Hs. apply ws_two; [done|].
      apply IH; [lia|done]. }
    destruct s2 as [|c3 s3]; [by intros ?%growField_not_empty|].
    simpl in Hle.
    destruct (space3 c1 c2 c3) eqn:H3; [|by intros ?%growField_not_empty].
    rewrite endField_empty. intros Hs. apply ws_three; [done|].
    apply IH; [lia|done].
  - induction 1 as [|c s Hc _ IH|c1 c2 s Hc _ IH|c1 c2 c3 s Hc _ IH].
    + done.
    + by rewrite scanFields_cons, Hc, IH.
    + by rewrite scanFields_cons, (space2_lead _ _ Hc), Hc, IH.
    + destruct (space3_lead _ _ _ Hc) as [H1 H2].
      by rewrite scanFields_cons, H1, H2, Hc, IH.
Qed.

(** [strings.Fields] returns no field exactly on white space. *)
Lemma Fields_nil s : Fields s = [] ↔ whitespaceOnly s.
Proof.
  rewrite <- scanFields_whitespaceOnly. unfold Fields.
  destruct (scanFields s) as [[|c f] fs]; simpl; naive_solver.
Qed.

(** C10. [transformZoneRecords] completes only if every short-form answer of
    every A or SRV record has a field: it panics, on the index of the answer's
    first field, exactly when an A or SRV record of the zone carries an answer
    without fields, that is an empty or all-white-space answer. *)
Theorem transformZoneRecords_panics_on_blank_answer n (z : Zone)
    (log : list logEntry) :
  (transformZoneRecords n z log = None ↔
     ∃ r ans, r ∈ z_Records z ∧ isServiceRecord r
              ∧ ans ∈ zr_ShortAns r ∧ whitespaceOnly ans)
  ∧ (∀ t nds ans log',
       whitespaceOnly ans →
       Fields ans !! 0%nat = None ∧ transformAnswer t nds ans log' = None).
Proof.
  split.
  - rewrite run_None by apply appends_transformZoneRecords.
    unfold transformZoneRecords.
    rewrite (value_forRange_None (transformRecord n)
               (λ r, isServiceRecord r
                     ∧ Exists (λ ans, Fields ans = []) (zr_ShortAns r)));
      [|intros; apply appends_transformRecord
       |intros; apply transformRecord_panics].
    rewrite Exists_exists. split.
    + intros (r & Hr & Hs & (ans & Ha & Hf)%Exists_exists).
      exists r, ans. by rewrite <- Fields_nil.
    + intros (r & ans & Hr & Hs & Ha & Hf). exists r. split; [done|].
      split; [done|]. apply Exists_exists. exists ans.
      by rewrite Fields_nil.
  - intros t nds ans log' Hws. apply Fields_nil in Hws as Hf. split.
    + by rewrite Hf.
    + apply run_None; [apply appends_transformAnswer|].
      by apply transformAnswer_panics.
Qed.

Lemma transformZoneRecords_panics_on_blank_answer_witness :
  transformZoneRecords exMirror
    (mkZone "z" "test.zone"
            [mkZoneRecord "s1.test.zone" "dd" ["1.1.1.1"; "  "] "A" 1]) []
  = None.
Proof.
  apply (proj1 (transformZoneRecords_panics_on_blank_answer exMirror _ [])).
  exists (mkZoneRecord "s1.test.zone" "dd" ["1.1.1.1"; "  "] "A" 1), "  ".
  split; [by left|]. split; [by left|]. split; [by right; left|].
  by repeat constructor.
Defined.

(** *** Malformed SRV answers *)

(** The loop over the answers of an SRV record has the value of the loop
    over its well-formed answers. *)
Lemma value_answers_dropMalformed nds (l : list string) :
  value (forRange (transformAnswer "SRV") nds l) =
    value (forRange (transformAnswer "SRV") nds
                    (List.filter (λ ans, negb (malformed ans)) l)).
Proof.
  revert nds. induction l as [|ans l IH]; intros nds; [done|].
  rewrite value_forRange_cons by (intros; apply appends_transformAnswer).
  simpl List.filter. destruct (malformed ans) eqn:Hans; cbn [negb].
  - destruct (transformAnswer_malformed nds ans [] Hans) as [msg Hrun].
    assert (value (transformAnswer "SRV" nds ans) = Some nds) as ->.
    { unfold value. by rewrite Hrun. }
    apply IH.
  - rewrite value_forRange_cons by (intros; apply appends_transformAnswer).
    destruct (value (transformAnswer "SRV" nds ans)); simpl; auto.
Qed.

Lemma value_transformRecord_dropMalformed n svcs r :
  zr_Type r = "SRV" →
  value (transformRecord n svcs r) =
    value (transformRecord n svcs (dropMalformed r)).
Proof.
  intros Ht.
  assert (isServiceRecord r) as Hr by (by right).
  assert (isServiceRecord (dropMalformed r)) as Hr' by (by right).
  rewrite !transformRecord_service, !value_bind by (done || appends).
  change (serviceBefore n svcs (dropMalformed r)) with (serviceBefore n svcs r).
  change (zr_Type (dropMalformed r)) with (zr_Type r).
  change (recordServiceName n (dropMalformed r))
    with (recordServiceName n r).
  rewrite Ht. simpl. by rewrite <- value_answers_dropMalformed.
Qed.

(** The log only grows along the loops. *)
Lemma transformAnswer_keeps_log (P : logEntry → Prop) t nds ans log
    nds' log' :
  Exists P log → transformAnswer t nds ans log = Some (nds', log') →
  Exists P log'.
Proof.
  intros HP Hrun.
  apply appends_log in Hrun as [e ->]; [|apply appends_transformAnswer].
  apply Exists_app. by left.
Qed.

Lemma transformRecord_keeps_log (P : logEntry → Prop) n svcs r log
    svcs' log' :
  Exists P log → transformRecord n svcs r log = Some (svcs', log') →
  Exists P log'.
Proof.
  intros HP Hrun.
  apply appends_log in Hrun as [e ->]; [|apply appends_transformRecord].
  apply Exists_app. by left.
Qed.

(** Every malformed answer of an SRV record is in the log after the record. *)
Lemma transformRecord_logs_malformed n svcs r log svcs' log' ans :
  zr_Type r = "SRV" → ans ∈ zr_ShortAns r → malformed ans = true →
  transformRecord n svcs r log = Some (svcs', log') →
  Exists (λ e, ∃ msg, e = LogError msg [ans]) log'.
Proof.
  intros Ht Hans Hmal.
  rewrite transformRecord_service by (by right). rewrite bind_run, Ht.
  destruct (forRange _ _ _ log) as [[nds1 log1]|] eqn:Hloop; [|done].
  rewrite ret_run. intros [= _ <-].
  eapply (forRange_establish (transformAnswer "SRV")
            (λ _ lg, Exists (λ e, ∃ msg, e = LogError msg [ans]) lg)
            ans (zr_ShortAns r)); [| |done|exact Hloop].
  - intros nds0 log0 nds0' log0' Hrun.
    destruct (transformAnswer_malformed nds0 ans log0 Hmal) as [msg Hm].
    rewrite Hm in Hrun. injection Hrun as _ <-.
    apply Exists_app. right. constructor. eauto.
  - intros nds0 y log0 nds0' log0'. apply transformAnswer_keeps_log.
Qed.

(** An A or SRV record puts its service in the map, and services stay. *)
Lemma transformRecord_dom n svcs r log svcs' log' :
  transformRecord n svcs r log = Some (svcs', log') →
  (isServiceRecord r → recordServiceName n r ∈ dom svcs')
  ∧ dom svcs ⊆ dom svcs'.
Proof.
  destruct (decide (isServiceRecord r)) as [Hr|Hr].
  - rewrite transformRecord_service by done. rewrite bind_run.
    destruct (forRange _ _ _ log) as [[nds1 log1]|]; [|done].
    rewrite ret_run. intros [= <- _]. rewrite dom_insert_L. set_solver.
  - rewrite transformRecord_skip by done. intros [= <- _]. done.
Qed.

(** C7. A zone record of type SRV with malformed short-form answers is
    ingested as if it carried its well-formed answers only: the services that
    the transformation returns are those it returns for the zone in which the
    record has lost its malformed answers, panics included; when it returns,
    the service of the record is in the snapshot and each malformed answer of
    the record is in an error entry of the log. *)
Theorem malformed_srv_answers_dropped n (zID zName : string)
    (pre post : list ZoneRecord) r (log : list logEntry) :
  zr_Type r = "SRV" →
  let z := mkZone zID zName (pre ++ r :: post)%list in
  let z' := mkZone zID zName (pre ++ dropMalformed r :: post)%list in
  fst <$> transformZoneRecords n z log = fst <$> transformZoneRecords n z' log
  ∧ ∀ svcs log',
      transformZoneRecords n z log = Some (svcs, log') →
      recordServiceName n r ∈ dom svcs
      ∧ ∀ ans, ans ∈ zr_ShortAns r → malformed ans = true →
               ∃ msg, LogError msg [ans] ∈ log'.
Proof.
  intros Ht z z'. split.
  - rewrite !value_at by apply appends_transformZoneRecords.
    unfold transformZoneRecords. simpl.
    apply value_forRange_replace.
    + intros; apply appends_transformRecord.
    + intros svcs. by apply value_transformRecord_dropMalformed.
  - intros svcs log' Hrun. unfold transformZoneRecords in Hrun. simpl in Hrun.
    assert (r ∈ (pre ++ r :: post)%list) as Hin by set_solver.
    split.
    + eapply (forRange_establish (transformRecord n)
                (λ sv _, recordServiceName n r ∈ dom sv) r);
        [| |exact Hin|exact Hrun].
      * intros sv0 lg0 sv1 lg1 H0.
        apply transformRecord_dom in H0 as [H0 _]. apply H0. by right.
      * intros sv0 y lg0 sv1 lg1 Hk H0.
        apply transformRecord_dom in H0 as [_ H0]. by apply H0.
    + intros ans Hans Hmal.
      assert (Exists (λ e, ∃ msg, e = LogError msg [ans]) log') as Hex.
      { eapply (forRange_establish (transformRecord n)
                  (λ _ lg, Exists (λ e, ∃ msg, e = LogError msg [ans]) lg) r);
          [| |exact Hin|exact Hrun].
        - intros sv0 lg0 sv1 lg1.
          by apply transformRecord_logs_malformed.
        - intros sv0 y lg0 sv1 lg1. apply transformRecord_keeps_log. }
      apply Exists_exists in Hex as (e & He & msg & ->). eauto.
Qed.

(** In the snapshot of the DNS mirror, the key of a service is its name. *)
Lemma transformZoneRecords_key_is_name n (z : Zone) log svcs log' :
  transformZoneRecords n z log = Some (svcs, log') →
  ∀ k s, svcs !! k = Some s → svc_name s = k.
Proof.
  unfold transformZoneRecords.
  assert (∀ l sv0 lg0,
            (∀ k s, sv0 !! k = Some s → svc_name s = k) →
            forRange (transformRecord n) sv0 l lg0 = Some (svcs, log') →
            ∀ k s, svcs !! k = Some s → svc_name s = k) as Hloop.
  { induction l as [|r l IH]; intros sv0 lg0 Hsv0; simpl.
    - by intros [= <- _].
    - rewrite bind_run.
      destruct (transformRecord n sv0 r lg0) as [[sv1 lg1]|] eqn:Hr; [|done].
      apply IH. revert Hr.
      destruct (decide (isServiceRecord r)) as [Hs|Hs].
      + rewrite transformRecord_service by done. rewrite bind_run.
        destruct (forRange _ _ _ lg0) as [[nds1 lg1']|]; [|done].
        rewrite ret_run. intros [= <- _] k s.
        destruct (decide (recordServiceName n r = k)) as [<-|Hne].
        * rewrite lookup_insert_eq. intros [= <-].
          unfold setNodes, serviceBefore, setRecordMeta; simpl.
          destruct (sv0 !! recordServiceName n r) as [s0|] eqn:Hs0;
            repeat (destruct (String.eqb _ _)); simpl; eauto.
        * rewrite lookup_insert_ne by done. apply Hsv0.
      + rewrite transformRecord_skip by done. by intros [= <- _]. }
  apply Hloop. by intros k s ?%lookup_empty_Some.
Qed.

End mirror.

(** The example: the well-formed answer is kept, the malformed one is logged
    and leaves no node. *)
Example exSrvRecord_transformed :
  NS1.transformZoneRecords exMirror (NS1.mkZone "z" "test.zone" [exSrvRecord])
                           []
  = Some ({[ "s1" := Service "" "s1"
                       {[ "1.1.1.1" :=
                            Node "" "" "" ""
                                 {[ 1 := SrvAnswer 1 1 1 "1.1.1.1" ]} ]}
                       ∅ (RecordTTLs 0 2) (RecordIDs "" "dc") "" ]},
          [NS1.LogError "Unable to parse priority in SRV answer"
                        ["x 1 1 2.2.2.2"]]).
Proof. by vm_compute. Qed.

Lemma malformed_srv_answers_dropped_witness :
  let z := NS1.mkZone "z" "test.zone" [exSrvRecord] in
  let z' := NS1.mkZone "z" "test.zone" [dropMalformed exSrvRecord] in
  fst <$> NS1.transformZoneRecords exMirror z []
    = fst <$> NS1.transformZoneRecords exMirror z' []
  ∧ ∀ svcs log',
      NS1.transformZoneRecords exMirror z [] = Some (svcs, log') →
      NS1.recordServiceName exMirror exSrvRecord ∈ dom svcs
      ∧ ∀ ans, ans ∈ NS1.zr_ShortAns exSrvRecord → malformed ans = true →
               ∃ msg, NS1.LogError msg [ans] ∈ log'.
Proof.
  apply (malformed_srv_answers_dropped exMirror "z" "test.zone" [] []
           exSrvRecord []).
  reflexivity.
Defined.

(** ** The registry mirror *)

Section registry.
Import Consul.
Implicit Types (c : consul) (r : registry) (k : string) (st : loopState).

Lemma transformServices_lookup (cservices : gmap string (list string)) k :
  transformServices cservices !! k = (λ _, bareService k) <$> cservices !! k.
Proof.
  unfold transformServices.
  apply (map_fold_weak_ind
           (λ acc (m : gmap string (list string)),
              acc !! k = (λ _, bareService k) <$> m !! k)).
  - by rewrite !lookup_empty.
  - intros i x m acc Hi IH. simpl.
    destruct (decide (i = k)) as [->|Hne].
    + by rewrite !lookup_insert_eq.
    + by rewrite !lookup_insert_ne.
Qed.

(** What the loop of [fetch] leaves at a key. *)
Lemma fetchService_fold_lookup c r (svcs0 m : gmap string service) k :
  map_fold (fetchService c r) svcs0 m !! k =
    match m !! k with
    | None => svcs0 !! k
    | Some s => fetchService c r k s svcs0 !! k
    end.
Proof.
  apply (map_fold_weak_ind
           (λ acc (m : gmap string service),
              acc !! k = match m !! k with
                         | None => svcs0 !! k
                         | Some s => fetchService c r k s svcs0 !! k
                         end)).
  - by rewrite lookup_empty.
  - intros i s m' acc Hi IH.
    destruct (decide (i = k)) as [->|Hne].
    + rewrite lookup_insert_eq. rewrite Hi in IH. unfold fetchService.
      destruct (fetchNodes r k); [|done]. by rewrite !lookup_insert_eq.
    + rewrite lookup_insert_ne by done. rewrite <- IH. unfold fetchService.
      destruct (fetchNodes r i); [|done]. by rewrite lookup_insert_ne.
Qed.

(** The snapshot of a successful [fetch], key by key. *)
Lemma fetch_lookup c r waitIndex cservices idx :
  fetchServices r waitIndex = Some (cservices, idx) →
  ∃ c', fetch c r waitIndex = (c', idx, true)
        ∧ ∀ k, services c' !! k = (λ _, fetchedService c r k) <$> cservices !! k.
Proof.
  intros Hlist. unfold fetch. rewrite Hlist. eexists. split; [done|].
  intros k. simpl.
  rewrite fetchService_fold_lookup, !transformServices_lookup.
  destruct (cservices !! k) as [tags|] eqn:Hk; simpl; [|done].
  unfold fetchService, fetchedService.
  destruct (fetchNodes r k) as [cnodes|].
  - rewrite lookup_insert_eq. by destruct (fetchHealth r k).
  - by rewrite transformServices_lookup, Hk.
Qed.

(** What the refresh of the example leaves: [s1], whose health checks could
    not be fetched, has its instance; [s2], whose instances could not be
    fetched, has none and has no TTL. *)
Lemma exRegistry_fetch :
  services (fst (fst (fetch exConsul exRegistry 1))) =
    {[ "s1" := Service "s1" "s1"
                 {[ "1.1.1.1" :=
                      Node "" "" "" "1.1.1.1"
                           {[ 80 := SrvAnswer 1 1 80 "1.1.1.1" ]} ]}
                 ∅ (RecordTTLs 60 60) (RecordIDs "" "") "s1";
       "s2" := Service "s2" "s2" ∅ ∅ (RecordTTLs 0 0) (RecordIDs "" "") "s2" ]}.
Proof. by vm_compute. Qed.

(** C8 as stated fails on both counts: [s1] keeps its instance although its
    health checks could not be fetched, and the TTLs of [s2] are not the
    default. *)
Lemma refresh_claim_fails :
  ¬ failedEnrichmentHasNoInstances exConsul exRegistry 1
  ∧ ¬ snapshotTTLsAreDefault exConsul exRegistry 1.
Proof.
  split; intros Hclaim; unfold failedEnrichmentHasNoInstances,
    snapshotTTLsAreDefault in Hclaim; rewrite exRegistry_fetch in Hclaim.
  - specialize (Hclaim "s1" _ (or_intror eq_refl) eq_refl).
    apply (f_equal (λ m : gmap string node, bool_decide (m = ∅))) in Hclaim.
    by vm_compute in Hclaim.
  - specialize (Hclaim "s2" _ eq_refl). discriminate Hclaim.
Qed.

(** The TTLs of a service whose instances could not be fetched: the
    iteration of the loop of [fetch] is left before they are set. *)
Lemma fetch_node_error_leaves_zero_ttls c r (waitIndex idx : Z)
    (cservices : gmap string (list string)) k :
  fetchServices r waitIndex = Some (cservices, idx) →
  k ∈ dom cservices →
  fetchNodes r k = None →
  ∃ c', fetch c r waitIndex = (c', idx, true)
        ∧ services c' !! k = Some (bareService k)
        ∧ ttls (bareService k) = RecordTTLs 0 0.
Proof.
  intros Hlist [tags Hk]%elem_of_dom Hnodes.
  destruct (fetch_lookup c r waitIndex cservices idx Hlist)
    as (c' & Hfetch & Hsvc).
  exists c'. split; [done|]. split; [|done].
  rewrite Hsvc, Hk. simpl. unfold fetchedService. by rewrite Hnodes.
Qed.

(** C8, as the code has it.  A successful refresh keeps exactly the listed
    names.  A service whose instances could not be fetched has no instances;
    a service whose instances were fetched has them, and both its TTLs at the
    configured default, whether its health checks could be fetched or not. *)
Theorem fetch_snapshot_contents c r (waitIndex idx : Z)
    (cservices : gmap string (list string)) :
  fetchServices r waitIndex = Some (cservices, idx) →
  ∃ c', fetch c r waitIndex = (c', idx, true)
        ∧ dom (services c') = dom cservices
        ∧ ∀ k, k ∈ dom cservices →
               ∃ s, services c' !! k = Some s ∧ svc_name s = k
                    ∧ match fetchNodes r k with
                      | None => nodes s = ∅
                      | Some cnodes =>
                          nodes s = transformNodes cnodes
                          ∧ ttls s = RecordTTLs (dnsTTL c) (dnsTTL c)
                          ∧ healths s =
                              match fetchHealth r k with
                              | Some chealths => transformHealth chealths
                              | None => ∅
                              end
                      end.
Proof.
  intros Hlist.
  destruct (fetch_lookup c r waitIndex cservices idx Hlist)
    as (c' & Hfetch & Hsvc).
  exists c'. split; [done|]. split.
  - apply set_eq. intros k. rewrite !elem_of_dom, Hsvc.
    by rewrite fmap_is_Some.
  - intros k [tags Hk]%elem_of_dom. rewrite Hsvc, Hk. simpl.
    eexists. split; [done|]. unfold fetchedService, bareService.
    by destruct (fetchNodes r k).
Qed.

Lemma fetch_snapshot_contents_witness :
  ∃ c', fetch exConsul exRegistry 1 = (c', 7, true)
        ∧ dom (services c') = dom ({[ "s1" := []; "s2" := [] ]}
                                    : gmap string (list string))
        ∧ ∀ k, k ∈ dom ({[ "s1" := []; "s2" := [] ]}
                         : gmap string (list string)) →
               ∃ s, services c' !! k = Some s ∧ svc_name s = k
                    ∧ match fetchNodes exRegistry k with
                      | None => nodes s = ∅
                      | Some cnodes =>
                          nodes s = transformNodes cnodes
                          ∧ ttls s = RecordTTLs (dnsTTL exConsul)
                                                (dnsTTL exConsul)
                          ∧ healths s =
                              match fetchHealth exRegistry k with
                              | Some chealths => transformHealth chealths
                              | None => ∅
                              end
                      end.
Proof.
  apply (fetch_snapshot_contents exConsul exRegistry 1 7
           {[ "s1" := []; "s2" := [] ]}).
  reflexivity.
Defined.

(** *** The fetch loop *)

Lemma fetch_ok c r waitIndex :
  snd (fetch c r waitIndex) = true ↔ fetchServices r waitIndex ≠ None.
Proof.
  unfold fetch. destruct (fetchServices r waitIndex) as [[cs idx]|]; simpl.
  - done.
  - split; [done|]. by intros [].
Qed.

Lemma iteration_failure st r stop :
  fetchFails (waitIndex st) (r, stop) →
  iteration st r stop =
    (mkLoopState (mirror st) (waitIndex st) (subsequentErrors st + 1),
     if 10 <? subsequentErrors st + 1 then Some TooManyErrors
     else if stop then Some Stopped else None).
Proof.
  unfold fetchFails, iteration, fetch. simpl. intros ->. simpl.
  by destruct (10 <? subsequentErrors st + 1).
Qed.

Lemma iteration_success st r stop :
  ¬ fetchFails (waitIndex st) (r, stop) →
  ∃ c' idx,
    iteration st r stop =
      (mkLoopState c' idx 0, if stop then Some Stopped else None).
Proof.
  unfold fetchFails, iteration, fetch. simpl.
  destruct (fetchServices r (waitIndex st)) as [[cs idx]|]; [|done].
  intros _. simpl. eauto.
Qed.

(** Failures in a row from a state whose counter is [subsequentErrors st]:
    the loop returns once the counter passes ten. *)
Lemma failures_exit st (fails post : list (registry * bool)) :
  0 ≤ subsequentErrors st ≤ 10 →
  11 ≤ subsequentErrors st + Z.of_nat (List.length fails) →
  Forall (fetchFails (waitIndex st)) fails →
  ∃ st' e,
    fetchIndefinitely st (fails ++ post)%list = (st', Some e)
    ∧ (Forall (λ ev, snd ev = false) fails →
       e = TooManyErrors ∧ subsequentErrors st' = 11).
Proof.
  revert st. induction fails as [|[r stop] fails IH]; intros st Hge Hlen Hall.
  { simpl in Hlen. lia. }
  apply Forall_cons in Hall as [Hfail Hall]. simpl.
  rewrite (iteration_failure st r stop Hfail).
  destruct (Z.ltb_spec 10 (subsequentErrors st + 1)) as [Hlt|Hle].
  - eexists _, _. split; [done|]. intros _. split; [done|]. simpl. lia.
  - destruct stop.
    + eexists _, _. split; [done|]. by intros [[=] _]%Forall_cons.
    + destruct (IH (mkLoopState (mirror st) (waitIndex st)
                                (subsequentErrors st + 1)))
        as (st' & e & Hrun & He); simpl; [lia|simpl in Hlen; lia|done|].
      exists st', e. split; [done|]. intros [_ ?]%Forall_cons. auto.
Qed.

(** A return for too many errors ends a run of failures that brought the
    counter from zero, or from its value in [st], to eleven. *)
Lemma too_many_errors_run (trace : list (registry * bool)) st st' :
  0 ≤ subsequentErrors st ≤ 10 →
  fetchIndefinitely st trace = (st', Some TooManyErrors) →
  (∃ pre fails post stp,
     trace = (pre ++ fails ++ post)%list ∧ List.length fails = 11%nat
     ∧ fetchIndefinitely st pre = (stp, None) ∧ subsequentErrors stp = 0
     ∧ Forall (fetchFails (waitIndex stp)) fails)
  ∨ (∃ fails post,
       trace = (fails ++ post)%list
       ∧ subsequentErrors st + Z.of_nat (List.length fails) = 11
       ∧ Forall (fetchFails (waitIndex st)) fails).
Proof.
  revert st. induction trace as [|[r stop] trace IH]; intros st Hc; [done|].
  simpl. destruct (decide (fetchFails (waitIndex st) (r, stop))) as [Hf|Hf].
  - rewrite (iteration_failure st r stop Hf).
    destruct (Z.ltb_spec 10 (subsequentErrors st + 1)) as [Hlt|Hle].
    + intros _. right. exists [(r, stop)], trace.
      split; [done|]. split; [simpl; lia|]. by constructor.
    + destruct stop; [done|]. intros Hrun.
      apply IH in Hrun as [(pre & fails & post & stp & -> & Hlen & Hpre & H0
                            & Hall)
                          |(fails & post & -> & Hlen & Hall)];
        [| |simpl; lia].
      * left. exists ((r, false) :: pre), fails, post, stp.
        split; [done|]. split; [done|]. split; [|done]. simpl.
        by rewrite (iteration_failure st r false Hf),
                   (proj2 (Z.ltb_ge _ _) Hle).
      * right. exists ((r, false) :: fails), post. split; [done|].
        simpl in *. split; [lia|]. by constructor.
  - destruct (iteration_success st r stop Hf) as (c' & idx & Hit).
    rewrite Hit. destruct stop; [done|]. intros Hrun.
    apply IH in Hrun as [(pre & fails & post & stp & -> & Hlen & Hpre & H0
                          & Hall)
                        |(fails & post & -> & Hlen & Hall)];
      [| |simpl; lia].
    + left. exists ((r, false) :: pre), fails, post, stp.
      split; [done|]. split; [done|]. split; [|done]. simpl. by rewrite Hit.
    + left. exists [(r, false)], fails, post, (mkLoopState c' idx 0).
      split; [done|]. simpl in *. split; [lia|]. split; [|done].
      by rewrite Hit.
Qed.

(** C9. From a state whose error counter is zero, as the initial state and
    the state after any successful fetch are: eleven failed fetches in a row
    make the loop return, for too many errors unless it was stopped before;
    a successful fetch sets the counter to zero; and the loop returns for too
    many errors only at the end of eleven failed fetches in a row. *)
Theorem fetch_loop_failure_budget st :
  subsequentErrors st = 0 →
  (∀ fails post : list (registry * bool),
     List.length fails = 11%nat →
     Forall (fetchFails (waitIndex st)) fails →
     ∃ st' e,
       fetchIndefinitely st (fails ++ post)%list = (st', Some e)
       ∧ (Forall (λ ev, snd ev = false) fails →
          e = TooManyErrors ∧ subsequentErrors st' = 11))
  ∧ (∀ st0 r stop,
       ¬ fetchFails (waitIndex st0) (r, stop) →
       subsequentErrors (fst (iteration st0 r stop)) = 0)
  ∧ (∀ (trace : list (registry * bool)) st',
       fetchIndefinitely st trace = (st', Some TooManyErrors) →
       ∃ pre fails post stp,
         trace = (pre ++ fails ++ post)%list ∧ List.length fails = 11%nat
         ∧ fetchIndefinitely st pre = (stp, None)
         ∧ subsequentErrors stp = 0
         ∧ Forall (fetchFails (waitIndex stp)) fails).
Proof.
  intros Hzero. split; [|split].
  - intros fails post Hlen Hall. apply failures_exit; [lia|lia|done].
  - intros st0 r stop Hok.
    destruct (iteration_success st0 r stop Hok) as (c' & idx & ->). done.
  - intros trace st' Hrun.
    apply too_many_errors_run in Hrun as [?|(fails & post & -> & Hlen & Hall)];
      [done| |lia].
    exists [], fails, post, st. split; [done|]. split; [lia|]. done.
Qed.

Lemma fetch_loop_failure_budget_witness :
  let st := initialState exConsul in
  (∀ fails post : list (registry * bool),
     List.length fails = 11%nat →
     Forall (fetchFails (waitIndex st)) fails →
     ∃ st' e,
       fetchIndefinitely st (fails ++ post)%list = (st', Some e)
       ∧ (Forall (λ ev, snd ev = false) fails →
          e = TooManyErrors ∧ subsequentErrors st' = 11))
  ∧ (∀ st0 r stop,
       ¬ fetchFails (waitIndex st0) (r, stop) →
       subsequentErrors (fst (iteration st0 r stop)) = 0)
  ∧ (∀ (trace : list (registry * bool)) st',
       fetchIndefinitely st trace = (st', Some TooManyErrors) →
       ∃ pre fails post stp,
         trace = (pre ++ fails ++ post)%list ∧ List.length fails = 11%nat
         ∧ fetchIndefinitely st pre = (stp, None)
         ∧ subsequentErrors stp = 0
         ∧ Forall (fetchFails (waitIndex stp)) fails).
Proof.
  apply (fetch_loop_failure_budget (initialState exConsul)). reflexivity.
Defined.

(** Eleven polls of a registry that is down, after one good poll. *)
Example fetch_loop_eleven_failures :
  fetchIndefinitely (initialState exConsul)
    ((exRegistry, false) :: replicate 11 (downRegistry, false))
  = (mkLoopState (fst (fst (fetch exConsul exRegistry 1))) 7 11,
     Some TooManyErrors)
  ∧ fetchIndefinitely (initialState exConsul)
      ((exRegistry, false) :: replicate 10 (downRegistry, false))
    = (mkLoopState (fst (fst (fetch exConsul exRegistry 1))) 7 10, None).
Proof. split; by vm_compute. Qed.

End registry.

(** * Further properties of the package *)

(** ** The diff, continued *)

Section diff_more.
Import Consul.

Lemma srvAnswersEqual_sym (a b : gmap Z srvAnswer) :
  srvAnswersEqual a b → srvAnswersEqual b a.
Proof.
  intros [Hdom Heq]. split; [done|].
  intros p x y Hx Hy. symmetry. by apply (Heq p).
Qed.

Lemma srvAnswersEqual_trans (a b c : gmap Z srvAnswer) :
  srvAnswersEqual a b → srvAnswersEqual b c → srvAnswersEqual a c.
Proof.
  intros [Hab Hab'] [Hbc Hbc']. split; [congruence|].
  intros p x z Hx Hz.
  assert (is_Some (b !! p)) as [y Hy].
  { apply elem_of_dom. rewrite <- Hab. apply elem_of_dom. eauto. }
  rewrite (Hab' p x y Hx Hy). by apply (Hbc' p).
Qed.

Lemma instancesEqual_sym (a b : gmap string node) :
  instancesEqual a b → instancesEqual b a.
Proof.
  intros [Hdom Heq]. split; [done|].
  intros h nb na Hb Ha. destruct (Heq h na nb Ha Hb) as [HA Hsrv].
  split; [done|]. by apply srvAnswersEqual_sym.
Qed.

Lemma instancesEqual_trans (a b c : gmap string node) :
  instancesEqual a b → instancesEqual b c → instancesEqual a c.
Proof.
  intros [Hab Hab'] [Hbc Hbc']. split; [congruence|].
  intros h na nc Ha Hc.
  assert (is_Some (b !! h)) as [nb Hb].
  { apply elem_of_dom. rewrite <- Hab. apply elem_of_dom. eauto. }
  destruct (Hab' h na nb Ha Hb) as [HA1 Hs1].
  destruct (Hbc' h nb nc Hb Hc) as [HA2 Hs2].
  split; [congruence|]. by eapply srvAnswersEqual_trans.
Qed.

(** X1. [nodesAreEqual] is an equivalence on instance sets: it holds of a
    set and itself, does not depend on which argument is the expected one,
    and is transitive. *)
Theorem nodesAreEqual_equivalence :
  (∀ a, nodesAreEqual a a = true)
  ∧ (∀ a b, nodesAreEqual a b = nodesAreEqual b a)
  ∧ (∀ a b c, nodesAreEqual a b = true → nodesAreEqual b c = true →
              nodesAreEqual a c = true).
Proof.
  split; [|split].
  - intros a. apply nodesAreEqual_spec, instancesEqual_refl.
  - intros a b.
    destruct (nodesAreEqual a b) eqn:Hab, (nodesAreEqual b a) eqn:Hba;
      [done| | |done].
    + apply nodesAreEqual_spec, instancesEqual_sym, nodesAreEqual_spec in Hab.
      congruence.
    + apply nodesAreEqual_spec, instancesEqual_sym, nodesAreEqual_spec in Hba.
      congruence.
  - intros a b c Hab%nodesAreEqual_spec Hbc%nodesAreEqual_spec.
    apply nodesAreEqual_spec. by eapply instancesEqual_trans.
Qed.

(** X2. The diff at its boundaries: against an empty registry nothing is
    upserted and every service of the zone is removed, as the zone has it;
    against an empty zone every service of the registry is upserted, as the
    registry has it, and nothing is removed. *)
Theorem diff_boundaries (D O : gmap string service) :
  onlyInFirst ∅ O = ∅ ∧ serviceOnlyInFirst O ∅ = O
  ∧ onlyInFirst D ∅ = D ∧ serviceOnlyInFirst ∅ D = ∅.
Proof.
  split_and!; apply map_eq; intros k;
    rewrite ?onlyInFirst_lookup, ?serviceOnlyInFirst_lookup, ?lookup_empty;
    try done.
  - by destruct (D !! k).
  - by destruct (D !! k).
Qed.

(** X3. In a pass no name is both upserted and removed; the upserted names
    are names of the registry, and the removed services are services of the
    zone, unchanged, that the registry does not have: differing instances
    never remove a service. *)
Theorem upsert_and_remove_are_disjoint (c : consul) (n : NS1.ns1) :
  let p := syncPass c n in
  dom (upsert p) ## dom (removed_services p)
  ∧ dom (upsert p) ⊆ dom (services c)
  ∧ dom (removed_services p) ## dom (services c)
  ∧ removed_services p ⊆ NS1.services n.
Proof.
  intros p.
  assert (∀ k, is_Some (upsert p !! k) → is_Some (services c !! k)) as Hup.
  { intros k. unfold p, syncPass; simpl. rewrite onlyInFirst_lookup.
    destruct (services c !! k); [eauto|by intros [? [=]]]. }
  assert (∀ k s, removed_services p !! k = Some s →
                 services c !! k = None ∧ NS1.services n !! k = Some s)
    as Hrm.
  { intros k s. unfold p, syncPass; simpl. rewrite serviceOnlyInFirst_lookup.
    by destruct (services c !! k). }
  split_and!.
  - intros k [s Hk]%elem_of_dom%Hup [s' Hk']%elem_of_dom.
    apply Hrm in Hk' as [Hk' _]. congruence.
  - intros k ?%elem_of_dom. by apply elem_of_dom, Hup.
  - intros k [s Hk]%elem_of_dom [s' Hk']%elem_of_dom.
    apply Hrm in Hk as [Hk _]. congruence.
  - apply map_subseteq_spec. intros k s Hk. by apply Hrm in Hk as [_ ?].
Qed.

(** X4. When the services of the registry side carry no record ID, as the
    registry mirror builds them, the record IDs of every upsert payload are
    those the zone has for the name, and empty when the zone does not have
    the name. *)
Theorem payload_ids_come_from_zone (c : consul) (n : NS1.ns1) :
  (∀ k s, services c !! k = Some s → ns1IDs s = RecordIDs "" "") →
  ∀ k s, upsert (syncPass c n) !! k = Some s →
         ns1IDs s = match NS1.services n !! k with
                    | Some sb => ns1IDs sb
                    | None => RecordIDs "" ""
                    end.
Proof.
  intros Hids k s. unfold syncPass; simpl. rewrite onlyInFirst_lookup.
  destruct (services c !! k) as [sa|] eqn:Ha; [|done].
  specialize (Hids k sa Ha).
  destruct (NS1.services n !! k) as [sb|]; [|by intros [= <-]].
  destruct (differs sa sb); [|done]. intros [= <-].
  unfold mergeService; simpl. rewrite Hids. simpl. by destruct (ns1IDs sb).
Qed.

Lemma payload_ids_come_from_zone_witness :
  ∃ s, upsert (syncPass zeroTTLConsul zeroTTLNS1) !! "s1" = Some s
       ∧ ns1IDs s = RecordIDs "r1" "r2".
Proof.
  assert (∀ k s, services zeroTTLConsul !! k = Some s →
                 ns1IDs s = RecordIDs "" "") as Hids.
  { intros k s Hk. simpl in Hk.
    by apply lookup_singleton_Some in Hk as [_ <-]. }
  destruct (upsert (syncPass zeroTTLConsul zeroTTLNS1) !! "s1") as [s|] eqn:Hs.
  - exists s. split; [done|].
    exact (payload_ids_come_from_zone zeroTTLConsul zeroTTLNS1 Hids "s1" s Hs).
  - by vm_compute in Hs.
Defined.

End diff_more.

(** ** The registry mirror, continued *)

Section registry_more.
Import Consul.

Lemma setARecAnswer_same (nd : node) :
  NS1.setARecAnswer nd (aRecAnswer nd) = nd.
Proof. by destruct nd. Qed.

Lemma transformNode_insert (m : gmap string node) (n : CatalogService) :
  transformNode m n =
    <[nodeAddress n :=
        match
          srvRecAnswers
            (if String.eqb (aRecAnswer (default node_zero
                                                (m !! nodeAddress n))) ""
             then NS1.setARecAnswer (default node_zero (m !! nodeAddress n))
                                    (nodeAddress n)
             else default node_zero (m !! nodeAddress n))
          !! ServicePort n
        with
        | None =>
            NS1.setSrvRecAnswer
              (if String.eqb (aRecAnswer (default node_zero
                                                  (m !! nodeAddress n))) ""
               then NS1.setARecAnswer (default node_zero (m !! nodeAddress n))
                                      (nodeAddress n)
               else default node_zero (m !! nodeAddress n))
              (ServicePort n)
              (SrvAnswer 1 1 (ServicePort n) (nodeAddress n))
        | Some _ =>
            if String.eqb (aRecAnswer (default node_zero
                                                (m !! nodeAddress n))) ""
            then NS1.setARecAnswer (default node_zero (m !! nodeAddress n))
                                   (nodeAddress n)
            else default node_zero (m !! nodeAddress n)
        end]> m.
Proof. unfold transformNode, nodeAddress. by destruct (m !! _). Qed.

(** One more instance. *)
Lemma registryNodes_step (l : list CatalogService) (m : gmap string node)
    (n : CatalogService) :
  registryNodes l m → registryNodes (l ++ [n]) (transformNode m n).
Proof.
  intros Hm addr. rewrite transformNode_insert.
  destruct (decide (nodeAddress n = addr)) as [<-|Hne].
  - rewrite lookup_insert_eq. specialize (Hm (nodeAddress n)).
    destruct (m !! nodeAddress n) as [nd|]; simpl.
    + destruct Hm as (Hh & Hd & Hc & HA & Hex & Hsrv).
      assert ((if String.eqb (aRecAnswer nd) ""
               then NS1.setARecAnswer nd (nodeAddress n) else nd) = nd) as ->.
      { destruct (String.eqb _ _); [|done].
        by rewrite <- HA, setARecAnswer_same. }
      destruct (srvRecAnswers nd !! ServicePort n) as [a0|] eqn:Hport; simpl.
      * split_and!; try done.
        { exists n. split; [apply elem_of_app; right; by left|done]. }
        intros p a. rewrite Hsrv. split.
        -- intros (-> & n' & Hn' & ?). split; [done|]. exists n'.
           split; [|done]. apply elem_of_app. by left.
        -- intros (-> & n' & [Hn'|Hn']%elem_of_app & Ha' & Hp');
             [eauto|].
           apply list_elem_of_singleton in Hn' as ->. subst p.
           apply Hsrv in Hport as [-> Hport]. eauto.
      * simpl. split_and!; try done.
        { exists n. split; [apply elem_of_app; right; by left|done]. }
        intros p a. destruct (decide (ServicePort n = p)) as [<-|Hp].
        -- rewrite lookup_insert_eq. split.
           ++ intros [= <-]. split; [done|]. exists n.
              split; [apply elem_of_app; right; by left|done].
           ++ by intros [-> _].
        -- rewrite lookup_insert_ne by done. rewrite Hsrv. split.
           ++ intros (-> & n' & Hn' & ?). split; [done|]. exists n'.
              split; [|done]. apply elem_of_app. by left.
           ++ intros (-> & n' & [Hn'|Hn']%elem_of_app & Ha' & Hp');
                [eauto|].
              apply list_elem_of_singleton in Hn' as ->. done.
    + rewrite lookup_empty. simpl. split_and!; try done.
      { exists n. split; [apply elem_of_app; right; by left|done]. }
      intros p a. destruct (decide (ServicePort n = p)) as [<-|Hp].
      * rewrite lookup_insert_eq. split.
        -- intros [= <-]. split; [done|]. exists n.
           split; [apply elem_of_app; right; by left|done].
        -- by intros [-> _].
      * rewrite lookup_insert_ne, lookup_empty by done. split; [done|].
        intros (-> & n' & [Hn'|Hn']%elem_of_app & Ha' & Hp').
        -- by apply Hm in Hn'.
        -- apply list_elem_of_singleton in Hn' as ->. done.
  - rewrite lookup_insert_ne by done. specialize (Hm addr).
    destruct (m !! addr) as [nd|].
    + destruct Hm as (Hh & Hd & Hc & HA & (n0 & Hn0 & Ha0) & Hsrv).
      split_and!; try done.
      { exists n0. split; [apply elem_of_app; by left|done]. }
      intros p a. rewrite Hsrv. split.
      * intros (-> & n' & Hn' & ?). split; [done|]. exists n'.
        split; [|done]. apply elem_of_app. by left.
      * intros (-> & n' & [Hn'|Hn']%elem_of_app & Ha' & Hp'); [eauto|].
        apply list_elem_of_singleton in Hn' as ->. done.
    + intros n' [Hn'|Hn']%elem_of_app; [by apply Hm|].
      apply list_elem_of_singleton in Hn' as ->. done.
Qed.

Lemma transformNodes_registryNodes (l : list CatalogService) :
  registryNodes l (transformNodes l).
Proof.
  unfold transformNodes. induction l as [|n l IH] using rev_ind.
  - intros addr. simpl. rewrite lookup_empty. by intros n ?%elem_of_nil.
  - rewrite foldl_app. simpl. by apply registryNodes_step.
Qed.

(** The nodes of a list of instances are determined by its elements. *)
Lemma registryNodes_unique (l l' : list CatalogService)
    (m m' : gmap string node) :
  (∀ n, n ∈ l ↔ n ∈ l') →
  registryNodes l m → registryNodes l' m' → m = m'.
Proof.
  intros Hl Hm Hm'. apply map_eq. intros addr.
  specialize (Hm addr). specialize (Hm' addr).
  destruct (m !! addr) as [nd|], (m' !! addr) as [nd'|]; [| | |done].
  - destruct Hm as (Hh & Hd & Hc & HA & _ & Hsrv).
    destruct Hm' as (Hh' & Hd' & Hc' & HA' & _ & Hsrv').
    destruct nd as [h d ci a srv], nd' as [h' d' ci' a' srv']. simpl in *.
    subst. do 2 f_equal. apply map_eq. intros p.
    destruct (srv !! p) as [x|] eqn:Hx.
    + symmetry. apply Hsrv'. apply Hsrv in Hx as (-> & n & Hn & ?).
      split; [done|]. exists n. by rewrite <- Hl.
    + destruct (srv' !! p) as [x'|] eqn:Hx'; [|done].
      apply Hsrv' in Hx' as (-> & n & Hn & ?).
      assert (srv !! p = Some (SrvAnswer 1 1 p addr)) as Hp.
      { apply Hsrv. split; [done|]. exists n. by rewrite Hl. }
      congruence.
  - destruct Hm as (_ & _ & _ & _ & (n & Hn & Ha) & _).
    apply Hl, Hm' in Hn. done.
  - destruct Hm' as (_ & _ & _ & _ & (n & Hn & Ha) & _).
    apply Hl, Hm in Hn. done.
Qed.

(** X5. [transformNodes] files the instances of a service by address, the
    service address when there is one and the node address otherwise: one
    node per address, with the address as its A answer and one SRV answer of
    priority 1 and weight 1 per port.  The result depends on which instances
    the list has, not on their order or on repetitions. *)
Theorem transformNodes_by_address (l : list CatalogService) :
  registryNodes l (transformNodes l)
  ∧ ∀ l', (∀ n, n ∈ l ↔ n ∈ l') → transformNodes l = transformNodes l'.
Proof.
  split; [apply transformNodes_registryNodes|].
  intros l' Hl.
  eapply registryNodes_unique; [exact Hl|apply transformNodes_registryNodes..].
Qed.

Lemma transformHealth_snoc (l : list HealthCheck) (h : HealthCheck) :
  transformHealth (l ++ [h]) =
    <[hc_ServiceID h := healthOf (Status h)]> (transformHealth l).
Proof.
  unfold transformHealth, healthOf. rewrite foldl_app. simpl.
  by repeat destruct (String.eqb _ _).
Qed.

(** X6. [transformHealth] keeps, for each service ID, the status of the last
    check of the list that has this ID, read as passing, critical or, for any
    other status, unknown; an ID without check has no entry. *)
Theorem transformHealth_last_check_wins (l : list HealthCheck) (id : string) :
  transformHealth l !! id =
    (λ h, healthOf (Status h))
      <$> last (filter (λ h, hc_ServiceID h = id) l).
Proof.
  induction l as [|h l IH] using rev_ind; [done|].
  rewrite transformHealth_snoc, filter_app, filter_cons, filter_nil.
  destruct (decide (hc_ServiceID h = id)) as [<-|Hne].
  - by rewrite lookup_insert_eq, last_snoc.
  - by rewrite lookup_insert_ne, app_nil_r.
Qed.

(** X7. The snapshot of a successful refresh is well formed: each service is
    filed under its name, which is also its id and its registry id, carries
    no record ID, and its nodes are filed under their address with the SRV
    answers of priority 1 and weight 1 filed under their port. *)
Theorem fetch_snapshot_well_formed (c : consul) (r : registry)
    (waitIndex idx : Z) (cservices : gmap string (list string)) :
  fetchServices r waitIndex = Some (cservices, idx) →
  ∀ k s,
    services (fst (fst (fetch c r waitIndex))) !! k = Some s →
    svc_id s = k ∧ svc_name s = k ∧ svc_consulID s = k
    ∧ ns1IDs s = RecordIDs "" ""
    ∧ ∀ addr nd, nodes s !! addr = Some nd →
                 aRecAnswer nd = addr
                 ∧ ∀ p a, srvRecAnswers nd !! p = Some a →
                          a = SrvAnswer 1 1 p addr.
Proof.
  intros Hlist k s.
  destruct (fetch_lookup c r waitIndex cservices idx Hlist)
    as (c' & -> & Hsvc).
  simpl. rewrite Hsvc. destruct (cservices !! k) as [tags|]; [|done].
  simpl. intros [= <-]. unfold fetchedService, bareService.
  destruct (fetchNodes r k) as [cnodes|]; simpl.
  - split_and!; try done. intros addr nd Hnd.
    pose proof (transformNodes_registryNodes cnodes addr) as Hreg.
    rewrite Hnd in Hreg. destruct Hreg as (_ & _ & _ & HA & _ & Hsrv).
    split; [done|]. intros p a Ha. by apply Hsrv in Ha as [-> _].
  - split_and!; try done; by intros addr nd ?%lookup_empty_Some.
Qed.

Lemma fetch_snapshot_well_formed_witness :
  ∃ s,
    services (fst (fst (fetch exConsul exRegistry 1))) !! "s1" = Some s
    ∧ svc_id s = "s1" ∧ svc_name s = "s1" ∧ svc_consulID s = "s1"
    ∧ ns1IDs s = RecordIDs "" ""
    ∧ ∀ addr nd, nodes s !! addr = Some nd →
                 aRecAnswer nd = addr
                 ∧ ∀ p a, srvRecAnswers nd !! p = Some a →
                          a = SrvAnswer 1 1 p addr.
Proof.
  destruct (services (fst (fst (fetch exConsul exRegistry 1))) !! "s1")
    as [s|] eqn:Hs.
  - exists s. split; [done|].
    apply (fetch_snapshot_well_formed exConsul exRegistry 1 7
             {[ "s1" := []; "s2" := [] ]} eq_refl "s1" s Hs).
  - by vm_compute in Hs.
Defined.

End registry_more.

(** ** The DNS writes, continued *)

Section writes_more.
Import NS1.
Implicit Types (n : ns1) (k : string) (s : service) (r : Record_).

Lemma append_assoc (x y z : string) : (x ++ y) ++ z = x ++ (y ++ z).
Proof.
  induction x as [|c x IH]; [done|]. rewrite !append_cons. by rewrite IH.
Qed.

Lemma stripPrefix_append (x y : string) : stripPrefix x (x ++ y) = Some y.
Proof.
  induction x as [|c x IH]; [done|].
  rewrite append_cons. simpl. by rewrite Ascii.eqb_refl.
Qed.

Lemma substring_append_head (x y : string) :
  substring 0 (String.length x) (x ++ y) = x.
Proof.
  induction x as [|c x IH]; [by destruct y|].
  rewrite append_cons. simpl. by rewrite IH.
Qed.

Lemma TrimPrefix_append (x y : string) : TrimPrefix (x ++ y) x = y.
Proof. unfold TrimPrefix. by rewrite stripPrefix_append. Qed.

Lemma TrimSuffix_append (x y : string) : TrimSuffix (x ++ y) y = x.
Proof.
  unfold TrimSuffix. fold (HasSuffix (x ++ y) y).
  rewrite HasSuffix_append, length_append.
  replace (String.length x + String.length y - String.length y)%nat
    with (String.length x) by lia.
  apply substring_append_head.
Qed.

(** X8. Names round-trip through the zone: a record at the domain [create]
    uses for a key is read back by the DNS mirror as the service of that key,
    whatever the prefix, the key and the zone name.  [remove] deletes at this
    same domain exactly when the key is not the zone name. *)
Theorem domain_names_round_trip n k (id : string) (answers : list string)
    (t : string) (ttl : Z) :
  recordServiceName n (mkZoneRecord (upsertDomain n k) id answers t ttl) = k
  ∧ (removeDomain n k = upsertDomain n k ↔ k ≠ zone_name (serviceZone n)).
Proof.
  split.
  - unfold recordServiceName, upsertDomain. simpl.
    by rewrite append_assoc, TrimPrefix_append, TrimSuffix_append.
  - rewrite removeDomain_spec. case_decide as Hk; [|done].
    split; [|done]. intros Heq. symmetry in Heq.
    by apply upsertDomain_not_zone in Heq.
Qed.

(** Adding answers in a loop: the answers are those of the start and the
    added ones, in some order. *)
Lemma foldr_AddAnswer {A : Type} (f : A → option (list string))
    (l : list A) r :
  rec_Answers
    (foldr (λ x r, match f x with
                   | Some rdata => AddAnswer r rdata
                   | None => r
                   end) r l)
  ≡ₚ (rec_Answers r ++ omap f l)%list.
Proof.
  induction l as [|x l IH]; simpl; [by rewrite app_nil_r|].
  destruct (f x) as [rdata|]; simpl; [|done].
  rewrite IH. by rewrite <- app_assoc, (Permutation_app_comm _ [rdata]).
Qed.

Lemma srv_loop_answers (srvs : gmap Z srvAnswer) r :
  rec_Answers
    (map_fold (λ (_ : Z) a r, AddAnswer r (Fields (srvAnswerString a)))
              r srvs)
  ≡ₚ (rec_Answers r
      ++ ((λ pa : Z * srvAnswer, Fields (srvAnswerString (snd pa)))
            <$> map_to_list srvs))%list.
Proof.
  rewrite map_fold_foldr.
  induction (map_to_list srvs) as [|[p a] l IH]; simpl;
    [by rewrite app_nil_r|].
  rewrite IH. rewrite <- app_assoc.
  by rewrite (Permutation_app_comm _ [_]).
Qed.

Lemma node_loop_answers (nds : gmap string node) (recs : Record_ * Record_) :
  let recs' :=
    map_fold (λ (_ : string) nd recs, addAnswers nd recs) recs nds in
  rec_Answers (fst recs') ≡ₚ (rec_Answers (fst recs) ++ aAnswersOf nds)%list
  ∧ rec_Answers (snd recs')
    ≡ₚ (rec_Answers (snd recs) ++ srvAnswersOf nds)%list.
Proof.
  simpl. rewrite map_fold_foldr. unfold aAnswersOf, srvAnswersOf.
  induction (map_to_list nds) as [|[h nd] l [IHa IHs]]; simpl;
    [by rewrite !app_nil_r|].
  split.
  - destruct (String.eqb_spec (aRecAnswer nd) "") as [He|He]; simpl;
      case_decide; try done.
    rewrite IHa. rewrite <- app_assoc.
    by rewrite (Permutation_app_comm _ [_]).
  - rewrite srv_loop_answers, IHs, <- !app_assoc.
    apply Permutation_app_head, Permutation_app_comm.
Qed.

Lemma generateOrNew_baseRecord n k (id t : string) :
  generateOrNew n id (ns1Prefix n ++ k) t =
    (Some (baseRecord n k id t),
     if decide (id = "") then []
     else [CallGet (zone_name (serviceZone n)) (upsertDomain n k) t]).
Proof.
  unfold generateOrNew, baseRecord. case_decide as Hid.
  - subst id. by rewrite generateRecord_new.
  - unfold generateRecord at 1. fold (upsertDomain n k).
    destruct (String.eqb_spec id "") as [?|_]; [done|].
    destruct (Get _ _ _ _) as [r0|]; [done|].
    by rewrite generateRecord_new.
Qed.

Lemma upsertRecordWorker_count n recID r count :
  snd (upsertRecordWorker n recID r count) =
    if succeeded n (writeOf recID r) then addInt32 count else count.
Proof.
  unfold upsertRecordWorker, writeOf.
  destruct (String.eqb_spec recID ""); by case_decide.
Qed.

(** The body of the loop of [create], call by call. *)
Lemma createService_shape n k s count :
  ∃ aRec srvRec,
    let aCall := writeOf (aRecID (ns1IDs s)) aRec in
    let srvCall := writeOf (srvRecID (ns1IDs s)) srvRec in
    let count1 := if succeeded n aCall then addInt32 count else count in
    createService n k s count =
      Some ((readsOf n k s ++ [aCall; srvCall])%list,
            if succeeded n srvCall then addInt32 count1 else count1)
    ∧ header aRec = header (baseRecord n k (aRecID (ns1IDs s)) "A")
    ∧ header srvRec = header (baseRecord n k (srvRecID (ns1IDs s)) "SRV")
    ∧ rec_Answers aRec ≡ₚ aAnswersOf (nodes s)
    ∧ rec_Answers srvRec ≡ₚ srvAnswersOf (nodes s).
Proof.
  unfold createService. rewrite !generateOrNew_baseRecord. simpl.
  pose proof (fold_addAnswers_header (nodes s)
                (baseRecord n k (aRecID (ns1IDs s)) "A",
                 baseRecord n k (srvRecID (ns1IDs s)) "SRV")) as [Hha Hhs].
  pose proof (node_loop_answers (nodes s)
                (baseRecord n k (aRecID (ns1IDs s)) "A",
                 baseRecord n k (srvRecID (ns1IDs s)) "SRV")) as [Haa Has].
  simpl in Hha, Hhs, Haa, Has.
  destruct (map_fold _ _ (nodes s)) as [aRec srvRec]. simpl in *.
  exists aRec, srvRec.
  pose proof (upsertRecordWorker_call n (aRecID (ns1IDs s)) aRec count) as Hc1.
  pose proof (upsertRecordWorker_count n (aRecID (ns1IDs s)) aRec count)
    as Hn1.
  destruct (upsertRecordWorker n (aRecID (ns1IDs s)) aRec count)
    as [aCall count1]. simpl in Hc1, Hn1.
  pose proof (upsertRecordWorker_call n (srvRecID (ns1IDs s)) srvRec count1)
    as Hc2.
  pose proof (upsertRecordWorker_count n (srvRecID (ns1IDs s)) srvRec count1)
    as Hn2.
  destruct (upsertRecordWorker n (srvRecID (ns1IDs s)) srvRec count1)
    as [srvCall count2]. simpl in Hc2, Hn2.
  fold (writeOf (aRecID (ns1IDs s)) aRec) in Hc1.
  fold (writeOf (srvRecID (ns1IDs s)) srvRec) in Hc2.
  subst. split_and!; try done.
  - unfold readsOf. by rewrite <- app_assoc.
  - assert (rec_Answers (baseRecord n k (aRecID (ns1IDs s)) "A") = []) as Hb.
    { unfold baseRecord. case_decide; [done|]. by destruct (Get _ _ _ _). }
    by rewrite Hb in Haa.
  - assert (rec_Answers (baseRecord n k (srvRecID (ns1IDs s)) "SRV") = [])
      as Hb.
    { unfold baseRecord. case_decide; [done|]. by destruct (Get _ _ _ _). }
    by rewrite Hb in Has.
Qed.

(** The calls of [create], service by service. *)
Lemma create_blocks n (svcs : gmap string service) :
  ∃ calls count,
    create n svcs = Some (calls, count)
    ∧ upsertsBy n
        (λ k s aRec srvRec,
           header aRec = header (baseRecord n k (aRecID (ns1IDs s)) "A")
           ∧ header srvRec
             = header (baseRecord n k (srvRecID (ns1IDs s)) "SRV")
           ∧ rec_Answers aRec ≡ₚ aAnswersOf (nodes s)
           ∧ rec_Answers srvRec ≡ₚ srvAnswersOf (nodes s))
        svcs calls.
Proof.
  unfold create, upsertsBy. rewrite map_fold_foldr.
  induction (map_to_list svcs) as [|[k s] l (calls & count & IH & blocks & Hp & Hb)];
    simpl.
  - exists [], 0. split; [done|]. exists []. by split.
  - rewrite IH. simpl.
    destruct (createService_shape n k s count)
      as (aRec & srvRec & Hc & Hha & Hhs & Haa & Has).
    simpl in Hc. rewrite Hc. simpl. eexists _, _. split; [done|].
    exists (upsertCalls n k s aRec srvRec :: blocks). split.
    + simpl. rewrite Hp. apply Permutation_app_comm.
    + constructor; [|done]. by exists aRec, srvRec.
Qed.

(** X9. [create] always completes, and its calls are, for each service it
    is given: one read per non-empty record ID, then the write of the A
    record and that of the SRV record.  A write is a create when the ID is
    empty and an update otherwise; the record written is the one read, with
    the configured TTL, and, when the ID is empty or the read fails, a new
    record at the service's domain: after a failed read the new record is
    still sent as an update. *)
Theorem create_reads_and_writes_by_id n (svcs : gmap string service) :
  ∃ calls count,
    create n svcs = Some (calls, count)
    ∧ upsertsBy n
        (λ k s aRec srvRec,
           header aRec = header (baseRecord n k (aRecID (ns1IDs s)) "A")
           ∧ header srvRec
             = header (baseRecord n k (srvRecID (ns1IDs s)) "SRV"))
        svcs calls.
Proof.
  destruct (create_blocks n svcs) as (calls & count & Hc & blocks & Hp & Hb).
  exists calls, count. split; [done|]. exists blocks. split; [done|].
  eapply Forall2_impl; [exact Hb|].
  intros ks block (aRec & srvRec & -> & Hha & Hhs & _).
  by exists aRec, srvRec.
Qed.

(** X10. The records [create] writes for a service carry exactly the
    answers of its instances, whatever answers the records read from the
    provider had: the A record one answer for each instance with a non-empty
    address, the SRV record one answer of four fields for each SRV answer of
    each instance. *)
Theorem create_answers_are_the_instances n (svcs : gmap string service) :
  ∃ calls count,
    create n svcs = Some (calls, count)
    ∧ upsertsBy n
        (λ k s aRec srvRec,
           rec_Answers aRec ≡ₚ aAnswersOf (nodes s)
           ∧ rec_Answers srvRec ≡ₚ srvAnswersOf (nodes s))
        svcs calls.
Proof.
  destruct (create_blocks n svcs) as (calls & count & Hc & blocks & Hp & Hb).
  exists calls, count. split; [done|]. exists blocks. split; [done|].
  eapply Forall2_impl; [exact Hb|].
  intros ks block (aRec & srvRec & -> & _ & _ & Haa & Has).
  by exists aRec, srvRec.
Qed.

Lemma addInt32_small (count : Z) :
  0 ≤ count < 2 ^ 31 - 1 → addInt32 count = count + 1.
Proof.
  intros Hc. unfold addInt32. rewrite Z.mod_small; lia.
Qed.

Lemma accepted_app n (calls1 calls2 : list apiCall) :
  accepted n (calls1 ++ calls2) = accepted n calls1 + accepted n calls2.
Proof.
  unfold accepted. rewrite List.filter_app, List.length_app. lia.
Qed.

Lemma accepted_cons n (call : apiCall) (calls : list apiCall) :
  accepted n (call :: calls) = accepted n [call] + accepted n calls.
Proof. apply (accepted_app n [call] calls). Qed.

Lemma accepted_readsOf n k s : accepted n (readsOf n k s) = 0.
Proof. unfold readsOf. by repeat case_decide. Qed.

Lemma accepted_bounds n (call : apiCall) :
  0 ≤ accepted n [call] ≤ 1.
Proof. unfold accepted. simpl. destruct (succeeded n call); simpl; lia. Qed.

Lemma accepted_bump n (call : apiCall) (count : Z) :
  0 ≤ count < 2 ^ 31 - 1 →
  (if succeeded n call then addInt32 count else count)
  = count + accepted n [call].
Proof.
  intros Hc. unfold accepted. simpl.
  destruct (succeeded n call); simpl; [by rewrite addInt32_small|lia].
Qed.

Lemma createService_count n k s count :
  0 ≤ count < 2 ^ 31 - 2 →
  ∃ calls count',
    createService n k s count = Some (calls, count')
    ∧ count' = count + accepted n calls
    ∧ 0 ≤ accepted n calls ≤ 2.
Proof.
  intros Hc.
  destruct (createService_shape n k s count)
    as (aRec & srvRec & Hs & _). simpl in Hs. rewrite Hs.
  eexists _, _. split; [done|].
  rewrite accepted_app, accepted_readsOf.
  rewrite (accepted_cons n _ [_]).
  pose proof (accepted_bounds n (writeOf (aRecID (ns1IDs s)) aRec)) as Ha.
  pose proof (accepted_bounds n (writeOf (srvRecID (ns1IDs s)) srvRec)) as Hb.
  rewrite (accepted_bump n (writeOf (aRecID (ns1IDs s)) aRec) count) by lia.
  rewrite accepted_bump by lia.
  lia.
Qed.

(** X11. The number [create] returns is the number of writes the provider
    accepted, as long as twice the number of services fits the 32-bit
    counter. *)
Theorem create_counts_accepted_writes n (svcs : gmap string service)
    calls count :
  2 * Z.of_nat (size svcs) < 2 ^ 31 →
  create n svcs = Some (calls, count) →
  count = accepted n calls.
Proof.
  intros Hsize Hcreate.
  assert (2 * Z.of_nat (size svcs) < 2 ^ 31 →
          ∃ calls count,
            create n svcs = Some (calls, count)
            ∧ count = accepted n calls
            ∧ 0 ≤ count ≤ 2 * Z.of_nat (size svcs)) as Hinv.
  { unfold create.
    apply (map_fold_weak_ind
             (λ acc (m : gmap string service),
                2 * Z.of_nat (size m) < 2 ^ 31 →
                ∃ calls count,
                  acc = Some (calls, count)
                  ∧ count = accepted n calls
                  ∧ 0 ≤ count ≤ 2 * Z.of_nat (size m))).
    - intros _. exists [], 0. rewrite map_size_empty. by split_and!.
    - intros k s m acc Hk IH. rewrite map_size_insert_None by done.
      intros Hm. destruct IH as (cs & c & -> & Hcount & Hbound); [lia|].
      simpl.
      destruct (createService_count n k s c) as (cs' & c' & -> & Hc' & Hb');
        [lia|].
      simpl. eexists _, _. split; [done|].
      rewrite accepted_app. lia. }
  destruct (Hinv Hsize) as (calls' & count' & Heq & Hcount & _).
  congruence.
Qed.

Lemma create_counts_accepted_writes_witness :
  2 * Z.of_nat (size (services syncedNS1)) < 2 ^ 31
  ∧ ∃ calls, create syncedNS1 (services syncedNS1) = Some (calls, 2)
             ∧ 2 = accepted syncedNS1 calls.
Proof.
  split; [by vm_compute|].
  destruct (create syncedNS1 (services syncedNS1)) as [[calls count]|] eqn:Hc;
    [|by vm_compute in Hc].
  assert (count = 2) as -> by (vm_compute in Hc; congruence).
  exists calls. split; [done|].
  apply (create_counts_accepted_writes syncedNS1 (services syncedNS1) calls 2);
    [by vm_compute|exact Hc].
Defined.

Lemma removeService_count n k s count :
  0 ≤ count < 2 ^ 31 - 2 →
  snd (removeService n k s count) = count + accepted n (deletesOf n k s)
  ∧ 0 ≤ accepted n (deletesOf n k s) ≤ 2.
Proof.
  intros Hc. unfold removeService, deletesOf, removeRecordWorker, len.
  set (z := zone_name (serviceZone n)). set (d := removeDomain n k).
  pose proof (accepted_bounds n (CallDelete z d "A")) as Ha.
  pose proof (accepted_bounds n (CallDelete z d "SRV")) as Hb.
  pose proof (accepted_bump n (CallDelete z d "A") count) as Hba.
  pose proof (accepted_bump n (CallDelete z d "SRV") count) as Hbs.
  pose proof (accepted_bump n (CallDelete z d "SRV")
                (count + accepted n [CallDelete z d "A"])) as Hbas.
  simpl in Hba, Hbs, Hbas.
  destruct (aRecID (ns1IDs s)); destruct (srvRecID (ns1IDs s)); simpl;
    rewrite ?(accepted_cons n _ [_]);
    rewrite ?Hba by lia; rewrite ?Hbs by lia; rewrite ?Hbas by lia;
    change (accepted n []) with 0; lia.
Qed.

(** X12. The number [remove] returns is the number of deletes the provider
    accepted, as long as twice the number of services fits the 32-bit
    counter. *)
Theorem remove_counts_accepted_deletes n (svcs : gmap string service) :
  2 * Z.of_nat (size svcs) < 2 ^ 31 →
  snd (remove n svcs) = accepted n (fst (remove n svcs)).
Proof.
  intros Hsize.
  assert (2 * Z.of_nat (size svcs) < 2 ^ 31 →
          snd (remove n svcs) = accepted n (fst (remove n svcs))
          ∧ 0 ≤ snd (remove n svcs) ≤ 2 * Z.of_nat (size svcs)) as Hinv.
  { unfold remove.
    apply (map_fold_weak_ind
             (λ (acc : list apiCall * Z) (m : gmap string service),
                2 * Z.of_nat (size m) < 2 ^ 31 →
                snd acc = accepted n (fst acc)
                ∧ 0 ≤ snd acc ≤ 2 * Z.of_nat (size m))).
    - intros _. rewrite map_size_empty. by split.
    - intros k s m [cs c] Hk IH. rewrite map_size_insert_None by done.
      intros Hm. destruct IH as [Hcount Hbound]; [lia|]. simpl in *.
      pose proof (removeService_calls n k s c) as Hcalls.
      destruct (removeService_count n k s c) as [Hc' Hb']; [lia|].
      destruct (removeService n k s c) as [cs' c']. simpl in *. subst cs'.
      rewrite accepted_app. lia. }
  by destruct (Hinv Hsize).
Qed.

Lemma remove_counts_accepted_deletes_witness :
  2 * Z.of_nat (size (services syncedNS1)) < 2 ^ 31
  ∧ snd (remove syncedNS1 (services syncedNS1))
    = accepted syncedNS1 (fst (remove syncedNS1 (services syncedNS1))).
Proof.
  assert (2 * Z.of_nat (size (services syncedNS1)) < 2 ^ 31) as Hsize
    by (by vm_compute).
  split; [exact Hsize|].
  exact (remove_counts_accepted_deletes syncedNS1 (services syncedNS1) Hsize).
Defined.

End writes_more.

(** ** The DNS mirror, continued *)

Section loops_more.
Import NS1.
Context {A B : Type}.

Lemma forRange_snoc (body : B → A → M B) (b : B) (l : list A) x
    (log : list logEntry) :
  forRange body b (l ++ [x]) log =
    match forRange body b l log with
    | None => None
    | Some (b', log') => body b' x log'
    end.
Proof.
  revert b log. induction l as [|y l IH]; intros b log; simpl.
  - rewrite bind_run. by destruct (body b x log) as [[b' log']|].
  - rewrite !bind_run. by destruct (body b y log) as [[b' log']|].
Qed.

Lemma forRange_invariant (body : B → A → M B) (I : B → Prop) (l : list A) :
  (∀ b x log b' log', I b → body b x log = Some (b', log') → I b') →
  ∀ b log b' log', I b → forRange body b l log = Some (b', log') → I b'.
Proof.
  intros Hbody. induction l as [|x l IH]; intros b log b' log' Hb; simpl.
  - by intros [= <- _].
  - rewrite bind_run.
    destruct (body b x log) as [[b1 log1]|] eqn:Hx; [|done]. eauto.
Qed.

End loops_more.

Section mirror_more.
Import NS1.
Implicit Types (n : ns1) (r : ZoneRecord) (ans : string).

Local Ltac run :=
  repeat (progress
            (rewrite ?bind_run, ?index_run, ?ret_run, ?logError_run; simpl)).

Lemma value_skips_non_service n (l : list ZoneRecord)
    (svcs : gmap string service) :
  value (forRange (transformRecord n) svcs l)
  = value (forRange (transformRecord n) svcs (filter isServiceRecord l)).
Proof.
  revert svcs. induction l as [|r l IH]; intros svcs; [done|].
  destruct (decide (isServiceRecord r)) as [Hr|Hr].
  - rewrite filter_cons_True by done.
    rewrite !value_forRange_cons by apply appends_transformRecord.
    destruct (value (transformRecord n svcs r)) as [svcs'|]; simpl; auto.
  - rewrite filter_cons_False by done.
    rewrite value_forRange_cons by apply appends_transformRecord.
    rewrite transformRecord_skip by done. simpl. apply IH.
Qed.

(** X13. Records that are neither A nor SRV records leave no trace in the
    snapshot of the DNS mirror: the zone and the zone without them give the
    same services, or both make the transformation panic. *)
Theorem non_service_records_leave_no_trace n (z : Zone)
    (log : list logEntry) :
  fst <$> transformZoneRecords n z log
  = fst <$> transformZoneRecords n (serviceRecords z) log.
Proof.
  rewrite !value_at by apply appends_transformZoneRecords.
  unfold transformZoneRecords, serviceRecords. simpl z_Records.
  exact (value_skips_non_service n (z_Records z) ∅).
Qed.

Lemma wfNode_default (nds : gmap string node) addr :
  (∀ a nd, nds !! a = Some nd → wfNode a nd) →
  wfNode addr match nds !! addr with
              | None => node_zero
              | Some nd => nd
              end.
Proof.
  intros Hnds. destruct (nds !! addr) as [nd|] eqn:Hnd; [by apply Hnds|].
  unfold wfNode. simpl.
  split_and!; try done; first [by left|by intros p a ?%lookup_empty_Some].
Qed.

Lemma wfNode_insert (nds : gmap string node) addr nd :
  (∀ a nd, nds !! a = Some nd → wfNode a nd) →
  wfNode addr nd →
  ∀ a nd', <[addr := nd]> nds !! a = Some nd' → wfNode a nd'.
Proof.
  intros Hnds Hnd a nd'. destruct (decide (addr = a)) as [<-|Hne].
  - rewrite lookup_insert_eq. by intros [= <-].
  - rewrite lookup_insert_ne by done. apply Hnds.
Qed.

Lemma wfNode_setARecAnswer addr nd :
  wfNode addr nd → wfNode addr (setARecAnswer nd addr).
Proof.
  intros (? & ? & ? & _ & ?). unfold wfNode. simpl.
  split_and!; try done. by right.
Qed.

Lemma wfNode_setSrvRecAnswer addr nd (pr w p : Z) :
  wfNode addr nd →
  wfNode addr (setSrvRecAnswer nd p (SrvAnswer pr w p addr)).
Proof.
  intros (? & ? & ? & ? & Hsrv). unfold wfNode. simpl. split_and!; try done.
  intros p' a. destruct (decide (p = p')) as [<-|Hne].
  - rewrite lookup_insert_eq. by intros [= <-].
  - rewrite lookup_insert_ne by done. apply Hsrv.
Qed.

Lemma transformAnswer_wfNode t (nds : gmap string node) ans log nds' log' :
  (∀ a nd, nds !! a = Some nd → wfNode a nd) →
  transformAnswer t nds ans log = Some (nds', log') →
  ∀ a nd, nds' !! a = Some nd → wfNode a nd.
Proof.
  intros Hnds. unfold transformAnswer.
  destruct (Fields ans) as [|f0 [|f1 [|f2 [|f3 [|f4 fs]]]]]; simpl; run;
    [done|..];
    (destruct (String.eqb t "A"); run;
     [intros [= <- _];
      by apply wfNode_insert, wfNode_setARecAnswer, wfNode_default|]);
    destruct (String.eqb t "SRV"); run;
    try (intros [= <- _]; by apply wfNode_insert, wfNode_default).
  destruct (ParseInt f0); run; [|by intros [= <- _]].
  destruct (ParseInt f1); run; [|by intros [= <- _]].
  destruct (ParseInt f2); run; [|by intros [= <- _]].
  intros [= <- _].
  by apply wfNode_insert, wfNode_setSrvRecAnswer, wfNode_default.
Qed.

(** X14. The snapshot of the DNS mirror is well formed: each service is filed
    under its name and carries no ID, registry ID or health; each of its
    nodes is filed under an address, has no host, datacenter or registry ID,
    has an A answer that is empty or this address, and has its SRV answers
    filed by port, each with this address. *)
Theorem mirror_snapshot_well_formed n (z : Zone) (log : list logEntry)
    (svcs : gmap string service) (log' : list logEntry) :
  transformZoneRecords n z log = Some (svcs, log') →
  ∀ k s, svcs !! k = Some s →
         svc_name s = k ∧ svc_id s = "" ∧ svc_consulID s = ""
         ∧ healths s = ∅
         ∧ ∀ addr nd, nodes s !! addr = Some nd → wfNode addr nd.
Proof.
  unfold transformZoneRecords.
  apply (forRange_invariant (transformRecord n)
           (λ svcs : gmap string service,
              ∀ k s, svcs !! k = Some s →
                     svc_name s = k ∧ svc_id s = "" ∧ svc_consulID s = ""
                     ∧ healths s = ∅
                     ∧ ∀ addr nd, nodes s !! addr = Some nd → wfNode addr nd)).
  - intros sv0 r lg0 sv1 lg1 Hsv0.
    destruct (decide (isServiceRecord r)) as [Hr|Hr].
    + rewrite transformRecord_service by done. rewrite bind_run.
      destruct (forRange _ _ _ lg0) as [[nds1 lg1']|] eqn:Hloop; [|done].
      rewrite ret_run. intros [= <- _] k s.
      assert (svc_name (serviceBefore n sv0 r) = recordServiceName n r
              ∧ svc_id (serviceBefore n sv0 r) = ""
              ∧ svc_consulID (serviceBefore n sv0 r) = ""
              ∧ healths (serviceBefore n sv0 r) = ∅
              ∧ ∀ addr nd, nodes (serviceBefore n sv0 r) !! addr = Some nd →
                           wfNode addr nd) as (Hn & Hi & Hc & Hh & Hnds).
      { unfold serviceBefore, setRecordMeta.
        destruct (sv0 !! recordServiceName n r) as [s0|] eqn:Hs0.
        - apply Hsv0 in Hs0.
          by repeat (destruct (String.eqb _ _)).
        - repeat (destruct (String.eqb _ _)); simpl;
            split_and!; try done; by intros addr nd ?%lookup_empty_Some. }
      destruct (decide (recordServiceName n r = k)) as [<-|Hne].
      * rewrite lookup_insert_eq. intros [= <-]. simpl. split_and!; try done.
        revert Hloop.
        apply (forRange_invariant (transformAnswer (zr_Type r))
                 (λ nds : gmap string node,
                    ∀ addr nd, nds !! addr = Some nd → wfNode addr nd));
          [|done].
        intros nds ans lg nds' lg' Hwf Hans.
        by apply (transformAnswer_wfNode _ _ _ _ _ _ Hwf Hans).
      * rewrite lookup_insert_ne by done. apply Hsv0.
    + rewrite transformRecord_skip by done. by intros [= <- _].
  - by intros k s ?%lookup_empty_Some.
Qed.

Lemma mirror_snapshot_well_formed_witness :
  ∃ svcs log' s,
    transformZoneRecords exMirror (mkZone "z" "test.zone" [exSrvRecord]) []
    = Some (svcs, log')
    ∧ svcs !! "s1" = Some s
    ∧ svc_name s = "s1" ∧ svc_id s = "" ∧ svc_consulID s = ""
    ∧ healths s = ∅
    ∧ ∀ addr nd, nodes s !! addr = Some nd → wfNode addr nd.
Proof.
  destruct (transformZoneRecords exMirror
              (mkZone "z" "test.zone" [exSrvRecord]) [])
    as [[svcs log']|] eqn:Hrun; [|by vm_compute in Hrun].
  destruct (svcs !! "s1") as [s|] eqn:Hs.
  - exists svcs, log', s. split; [done|]. split; [done|].
    exact (mirror_snapshot_well_formed exMirror _ [] svcs log' Hrun "s1" s Hs).
  - vm_compute in Hrun. injection Hrun as <- _. by vm_compute in Hs.
Defined.

Lemma recordsOf_snoc n t k (l : list ZoneRecord) r :
  recordsOf n t k (l ++ [r]) =
    if decide (zr_Type r = t ∧ recordServiceName n r = k)
    then (recordsOf n t k l ++ [r])%list
    else recordsOf n t k l.
Proof.
  unfold recordsOf. rewrite filter_app.
  case_decide.
  - by rewrite filter_cons_True by done.
  - rewrite filter_cons_False by done. by rewrite app_nil_r.
Qed.

Lemma keptID_snoc (l : list ZoneRecord) r : keptID (l ++ [r]) = zr_ID r.
Proof. unfold keptID. by rewrite last_snoc. Qed.

Lemma keptTTL_snoc (l : list ZoneRecord) r : keptTTL (l ++ [r]) = zr_TTL r.
Proof. unfold keptTTL. by rewrite last_snoc. Qed.

(** What the mirror holds for the key [k] after the records [l]. *)
Lemma transformZoneRecords_meta n (l : list ZoneRecord) :
  ∀ (log : list logEntry) (svcs : gmap string service) log',
    forRange (transformRecord n) ∅ l log = Some (svcs, log') →
    ∀ k,
      match svcs !! k with
      | None => recordsOf n "A" k l = [] ∧ recordsOf n "SRV" k l = []
      | Some s =>
          (recordsOf n "A" k l ≠ [] ∨ recordsOf n "SRV" k l ≠ [])
          ∧ ns1IDs s = RecordIDs (keptID (recordsOf n "A" k l))
                                 (keptID (recordsOf n "SRV" k l))
          ∧ ttls s = RecordTTLs (keptTTL (recordsOf n "A" k l))
                                (keptTTL (recordsOf n "SRV" k l))
      end.
Proof.
  induction l as [|r l IH] using rev_ind; intros log svcs log'.
  - simpl. intros [= <- _] k. by rewrite lookup_empty.
  - rewrite forRange_snoc.
    destruct (forRange (transformRecord n) ∅ l log) as [[sv0 lg0]|] eqn:Hl;
      [|done].
    specialize (IH _ _ _ Hl). intros Hr k. specialize (IH k).
    rewrite !recordsOf_snoc. revert Hr.
    destruct (decide (isServiceRecord r)) as [Hs|Hs].
    + rewrite transformRecord_service by done. rewrite bind_run.
      destruct (forRange _ _ _ lg0) as [[nds1 lg1]|]; [|done].
      rewrite ret_run. intros [= <- _].
      destruct (decide (recordServiceName n r = k)) as [Hk|Hk].
      * rewrite <- Hk in *. rewrite lookup_insert_eq. simpl.
        unfold serviceBefore, setRecordMeta.
        destruct Hs as [Ht|Ht]; rewrite Ht; simpl;
          repeat case_decide; try (exfalso; intuition congruence);
          rewrite ?keptID_snoc, ?keptTTL_snoc;
          (split; [first [by left; intros [_ [=]]%app_eq_nil
                         |by right; intros [_ [=]]%app_eq_nil]|]);
          (destruct (sv0 !! recordServiceName n r) as [s0|]; simpl;
           [destruct IH as (_ & IH1 & IH2)|destruct IH as [IH1 IH2]];
           rewrite ?IH1, ?IH2; done).
      * rewrite lookup_insert_ne by done.
        repeat case_decide; try (exfalso; intuition congruence). exact IH.
    + rewrite transformRecord_skip by done. intros [= <- _].
      repeat case_decide;
        try (exfalso; unfold isServiceRecord in Hs; intuition congruence).
      exact IH.
Qed.

(** X15. The services of the mirror's snapshot are the names that have an A
    or an SRV record in the zone; the A record ID and TTL of a service are
    those of the last A record of this name in the zone, empty and zero if
    there is none, and likewise for SRV: of two records of one type for one
    name, the snapshot knows the second only. *)
Theorem mirror_ids_and_ttls_from_last_record n (z : Zone)
    (log : list logEntry) (svcs : gmap string service)
    (log' : list logEntry) :
  transformZoneRecords n z log = Some (svcs, log') →
  ∀ k,
    match svcs !! k with
    | None =>
        recordsOf n "A" k (z_Records z) = []
        ∧ recordsOf n "SRV" k (z_Records z) = []
    | Some s =>
        (recordsOf n "A" k (z_Records z) ≠ []
         ∨ recordsOf n "SRV" k (z_Records z) ≠ [])
        ∧ ns1IDs s = RecordIDs (keptID (recordsOf n "A" k (z_Records z)))
                               (keptID (recordsOf n "SRV" k (z_Records z)))
        ∧ ttls s = RecordTTLs (keptTTL (recordsOf n "A" k (z_Records z)))
                              (keptTTL (recordsOf n "SRV" k (z_Records z)))
    end.
Proof.
  unfold transformZoneRecords.
  exact (transformZoneRecords_meta n (z_Records z) log svcs log').
Qed.

Lemma mirror_ids_and_ttls_from_last_record_witness :
  ∃ svcs log' s,
    transformZoneRecords exMirror twoARecords [] = Some (svcs, log')
    ∧ svcs !! "s1" = Some s
    ∧ ns1IDs s = RecordIDs "a2" "" ∧ ttls s = RecordTTLs 2 0.
Proof.
  destruct (transformZoneRecords exMirror twoARecords [])
    as [[svcs log']|] eqn:Hrun; [|by vm_compute in Hrun].
  pose proof (mirror_ids_and_ttls_from_last_record exMirror twoARecords []
                svcs log' Hrun "s1") as Hmeta.
  destruct (svcs !! "s1") as [s|] eqn:Hs.
  - destruct Hmeta as (_ & Hids & Httls).
    exists svcs, log', s. split_and!; [done|done|exact Hids|exact Httls].
  - by destruct Hmeta as [Hnone _].
Defined.

(** *** An SRV answer written and read back *)

Lemma parseDigits_string_of_uint (d : Decimal.uint) (acc : Z) :
  parseDigits acc (NilEmpty.string_of_uint d) = Some (decimalValue acc d).
Proof. revert acc. induction d; intros acc; simpl; auto. Qed.

Lemma decimalValue_acc (d : Decimal.uint) (acc : positive) :
  decimalValue (Z.pos acc) d = Z.pos (Pos.of_uint_acc d acc).
Proof.
  revert acc. induction d; intros acc; simpl; [done|..];
    rewrite <- IHd; f_equal; lia.
Qed.

Lemma decimalValue_of_uint (d : Decimal.uint) :
  decimalValue 0 d = Z.of_N (Pos.of_uint d).
Proof.
  induction d; simpl; [done|done|..]; apply (decimalValue_acc d).
Qed.

Lemma decimalValue_to_uint (p : positive) :
  decimalValue 0 (Pos.to_uint p) = Z.pos p.
Proof. by rewrite decimalValue_of_uint, DecimalPos.Unsigned.of_to. Qed.

Lemma string_of_uint_head (d : Decimal.uint) :
  d ≠ Decimal.Nil →
  ∃ c s, NilEmpty.string_of_uint d = String c s
         ∧ Ascii.eqb c "+" = false ∧ Ascii.eqb c "-" = false.
Proof. destruct d; [done|..]; intros _; simpl; eauto. Qed.

Lemma formatInt_pos (p : positive) :
  formatInt (Z.pos p) = NilEmpty.string_of_uint (Pos.to_uint p).
Proof.
  unfold formatInt. simpl. unfold NilZero.string_of_uint.
  pose proof (DecimalPos.Unsigned.to_uint_nonnil p).
  by destruct (Pos.to_uint p).
Qed.

Lemma formatInt_neg (p : positive) :
  formatInt (Z.neg p) = String "-" (NilEmpty.string_of_uint (Pos.to_uint p)).
Proof.
  unfold formatInt. simpl. unfold NilZero.string_of_uint.
  pose proof (DecimalPos.Unsigned.to_uint_nonnil p).
  by destruct (Pos.to_uint p).
Qed.

(** [strconv.ParseInt] reads back what [%d] prints. *)
Lemma ParseInt_formatInt (z : Z) : int64 z → ParseInt (formatInt z) = Some z.
Proof.
  unfold int64. intros Hz. destruct z as [|p|p].
  - reflexivity.
  - rewrite formatInt_pos.
    destruct (string_of_uint_head (Pos.to_uint p))
      as (c & s & Hs & Hplus & Hminus);
      [apply DecimalPos.Unsigned.to_uint_nonnil|].
    pose proof (parseDigits_string_of_uint (Pos.to_uint p) 0) as Hd.
    rewrite decimalValue_to_uint, Hs in Hd.
    rewrite Hs. unfold ParseInt. rewrite Hplus, Hminus. simpl orb. cbv iota.
    rewrite Hd. simpl.
    destruct (Z.leb_spec (2 ^ 63) (Z.pos p)); [lia|done].
  - rewrite formatInt_neg.
    destruct (string_of_uint_head (Pos.to_uint p))
      as (c & s & Hs & _ & _);
      [apply DecimalPos.Unsigned.to_uint_nonnil|].
    pose proof (parseDigits_string_of_uint (Pos.to_uint p) 0) as Hd.
    rewrite decimalValue_to_uint, Hs in Hd.
    rewrite Hs. unfold ParseInt.
    change (Ascii.eqb "-" "-") with true.
    change (Ascii.eqb "-" "+") with false. simpl orb. cbv iota.
    rewrite Hd. simpl.
    destruct (Z.ltb_spec (2 ^ 63) (Z.pos p)); [lia|done].
Qed.

Lemma scanFields_plainChar (c : ascii) (s : string) :
  plainChar c = true →
  scanFields (String c s) = growField c (scanFields s).
Proof.
  unfold plainChar. intros [Hc Hs]%andb_prop.
  apply Z.ltb_lt in Hc. apply negb_true_iff in Hs.
  rewrite scanFields_cons, Hs.
  destruct s as [|c2 [|c3 s3]]; [done|..].
  - replace (space2 c c2) with false; [done|].
    unfold space2. by destruct (Z.eqb_spec (byte_of c) 194); [lia|].
  - replace (space2 c c2) with false.
    2:{ unfold space2. by destruct (Z.eqb_spec (byte_of c) 194); [lia|]. }
    replace (space3 c c2 c3) with false; [done|].
    unfold space3.
    destruct (Z.eqb_spec (byte_of c) 225); [lia|].
    destruct (Z.eqb_spec (byte_of c) 226); [lia|].
    by destruct (Z.eqb_spec (byte_of c) 227); [lia|].
Qed.

Lemma scanFields_plain (x s : string) :
  plain x = true →
  scanFields (x ++ s) = (x ++ fst (scanFields s), snd (scanFields s)).
Proof.
  induction x as [|c x IH]; intros Hp.
  - rewrite !append_nil. by destruct (scanFields s).
  - simpl in Hp. apply andb_prop in Hp as [Hc Hx]. rewrite !append_cons.
    rewrite scanFields_plainChar by done. by rewrite IH.
Qed.

Lemma plain_string_of_uint (d : Decimal.uint) :
  plain (NilEmpty.string_of_uint d) = true.
Proof. induction d; simpl; [done|..]; by rewrite IHd. Qed.

Lemma plain_formatInt (z : Z) : plain (formatInt z) = true.
Proof.
  destruct z as [|p|p]; [done|..].
  - rewrite formatInt_pos. apply plain_string_of_uint.
  - rewrite formatInt_neg. simpl. by rewrite plain_string_of_uint.
Qed.

Lemma formatInt_not_empty (z : Z) : formatInt z ≠ "".
Proof.
  destruct z as [|p|p]; [done| |by rewrite formatInt_neg].
  rewrite formatInt_pos.
  destruct (string_of_uint_head (Pos.to_uint p)) as (c & s & -> & _);
    [apply DecimalPos.Unsigned.to_uint_nonnil|done].
Qed.

Lemma append_empty_r (x : string) : x ++ "" = x.
Proof.
  induction x as [|c x IH]; [done|]. by rewrite append_cons, IH.
Qed.

(** A plain word before a space is one more field. *)
Lemma scanFields_word (x rest : string) (fs : list string) :
  plain x = true → x ≠ "" →
  endField (scanFields rest) = ("", fs) →
  endField (scanFields (x ++ " " ++ rest)) = ("", x :: fs).
Proof.
  intros Hx Hne Hrest. rewrite scanFields_plain by done.
  rewrite append_cons, append_nil, scanFields_cons.
  change (asciiSpace " ") with true. cbv iota. rewrite Hrest. simpl.
  rewrite append_empty_r. by destruct x.
Qed.

Lemma Fields_srvAnswerString (a : srvAnswer) :
  Fields (address a) = [address a] →
  Fields (srvAnswerString a) =
    [formatInt (priority a); formatInt (weight a); formatInt (port a);
     address a].
Proof.
  intros Haddr. unfold Fields, srvAnswerString.
  assert (endField (scanFields (address a)) = ("", [address a])) as Hend.
  { unfold Fields in Haddr.
    destruct (scanFields (address a)) as [[|c f] fs]; simpl in *;
      by rewrite Haddr. }
  by rewrite (scanFields_word _ _ _ (plain_formatInt _)
                (formatInt_not_empty _)
                (scanFields_word _ _ _ (plain_formatInt _)
                   (formatInt_not_empty _)
                   (scanFields_word _ _ _ (plain_formatInt _)
                      (formatInt_not_empty _) Hend))).
Qed.

Lemma transformAnswer_srvAnswerString (a : srvAnswer)
    (nds : gmap string node) (log : list logEntry) :
  readable a →
  transformAnswer "SRV" nds (srvAnswerString a) log =
    Some (srvStep nds a, log).
Proof.
  intros (Hp & Hw & Hpo & Haddr).
  unfold transformAnswer. rewrite (Fields_srvAnswerString a Haddr). simpl. run.
  rewrite (ParseInt_formatInt (priority a)) by done. run.
  rewrite (ParseInt_formatInt (weight a)) by done. run.
  rewrite (ParseInt_formatInt (port a)) by done. run. by destruct a.
Qed.

(** X16. An SRV answer survives the round trip through its text: for an
    answer with an address of one field, the text [create] writes has the
    four fields priority, weight, port and address, and the DNS mirror reads
    this text back as the same answer, filed under its address and its port,
    without logging anything. *)
Theorem srv_answer_round_trip (a : srvAnswer) (nds : gmap string node)
    (log : list logEntry) :
  int64 (priority a) → int64 (weight a) → int64 (port a) →
  Fields (address a) = [address a] →
  Fields (srvAnswerString a) =
    [formatInt (priority a); formatInt (weight a); formatInt (port a);
     address a]
  ∧ transformAnswer "SRV" nds (srvAnswerString a) log =
      Some (<[address a :=
                setSrvRecAnswer match nds !! address a with
                                | None => node_zero
                                | Some nd => nd
                                end (port a) a]> nds, log).
Proof.
  intros Hp Hw Hpo Haddr. split; [by apply Fields_srvAnswerString|].
  by apply transformAnswer_srvAnswerString.
Qed.

Lemma srv_answer_round_trip_witness :
  Fields (srvAnswerString srv1) =
    [formatInt 1; formatInt 1; formatInt 1; "1.1.1.1"]
  ∧ transformAnswer "SRV" ∅ (srvAnswerString srv1) [] =
      Some (<[ "1.1.1.1" := setSrvRecAnswer node_zero 1 srv1 ]> ∅, []).
Proof.
  assert (int64 1) as Hone by (unfold int64; lia).
  exact (srv_answer_round_trip srv1 ∅ [] Hone Hone Hone eq_refl).
Defined.

End mirror_more.

(** ** The loops *)

Section loops_of_the_mirrors.
Import Consul.

Lemma received_cons (sig sig' : signal) (c : consul) (n : NS1.ns1)
    (trace : list (signal * consul * NS1.ns1)) :
  received sig ((sig', c, n) :: trace) =
    ((if decide (sig' = sig) then 1 else 0) + received sig trace)%nat.
Proof.
  unfold received. case_decide.
  - by rewrite filter_cons_True by done.
  - by rewrite filter_cons_False by done.
Qed.

Lemma sync_passes (fl : syncFlags)
    (trace : list (signal * consul * NS1.ns1)) :
  (List.length (fst (sync fl trace))
   ≤ (if cTriggered fl then 1 else 0) + received ConsulTrigger trace
   ∧ List.length (fst (sync fl trace))
     ≤ (if nTriggered fl then 1 else 0) + received NS1Trigger trace)%nat
  ∧ Forall (λ p, ∃ sig c n, (sig, c, n) ∈ trace ∧ p = syncPass c n)
           (fst (sync fl trace))
  ∧ (snd (sync fl trace) = None ↔ ∃ c n, (Stop, c, n) ∈ trace).
Proof.
  revert fl. induction trace as [|[[sig c] n] trace IH]; intros fl.
  { simpl. split_and!; [lia|lia|constructor|]. split; [done|].
    by intros (c & n & ?%elem_of_nil). }
  assert (∀ p, (∃ sig' c' n', (sig', c', n') ∈ trace ∧ p = syncPass c' n') →
               ∃ sig' c' n', (sig', c', n') ∈ (sig, c, n) :: trace
                             ∧ p = syncPass c' n') as Hweaken.
  { intros p (sig' & c' & n' & Hin & ->). exists sig', c', n'.
    split; [by right|done]. }
  simpl. rewrite !received_cons. unfold syncIteration.
  destruct sig; simpl.
  - destruct (nTriggered fl) eqn:Hn; simpl.
    + destruct (IH (mkSyncFlags false false)) as (Hlen & Hall & Hstop).
      destruct (sync (mkSyncFlags false false) trace) as [passes final].
      simpl in *. split; [|split].
      * destruct (cTriggered fl); lia.
      * constructor; [exists ConsulTrigger, c, n; split; [by left|done]|].
        eapply Forall_impl; [exact Hall|exact Hweaken].
      * rewrite Hstop. split; intros (c' & n' & Hin); exists c', n'.
        -- by right.
        -- by apply elem_of_cons in Hin as [[=]|Hin].
    + destruct (IH (mkSyncFlags true false)) as (Hlen & Hall & Hstop).
      destruct (sync (mkSyncFlags true false) trace) as [passes final].
      simpl in *. split; [|split].
      * destruct (cTriggered fl); lia.
      * eapply Forall_impl; [exact Hall|exact Hweaken].
      * rewrite Hstop. split; intros (c' & n' & Hin); exists c', n'.
        -- by right.
        -- by apply elem_of_cons in Hin as [[=]|Hin].
  - destruct (cTriggered fl) eqn:Hc; simpl.
    + destruct (IH (mkSyncFlags false false)) as (Hlen & Hall & Hstop).
      destruct (sync (mkSyncFlags false false) trace) as [passes final].
      simpl in *. split; [|split].
      * destruct (nTriggered fl); lia.
      * constructor; [exists NS1Trigger, c, n; split; [by left|done]|].
        eapply Forall_impl; [exact Hall|exact Hweaken].
      * rewrite Hstop. split; intros (c' & n' & Hin); exists c', n'.
        -- by right.
        -- by apply elem_of_cons in Hin as [[=]|Hin].
    + destruct (IH (mkSyncFlags false true)) as (Hlen & Hall & Hstop).
      destruct (sync (mkSyncFlags false true) trace) as [passes final].
      simpl in *. split; [|split].
      * destruct (nTriggered fl); lia.
      * eapply Forall_impl; [exact Hall|exact Hweaken].
      * rewrite Hstop. split; intros (c' & n' & Hin); exists c', n'.
        -- by right.
        -- by apply elem_of_cons in Hin as [[=]|Hin].
  - split_and!; [lia|lia|constructor|]. split; [|done].
    intros _. exists c, n. by left.
Qed.

(** X17. The reconciliation loop makes a pass only once it has heard from
    both mirrors since the last pass: the passes of a run are at most as many
    as the triggers of the registry mirror and as those of the DNS mirror, so
    that changes of the registry wait for the next poll of the zone.  Each
    pass is the pass on the two mirrors as they are at one of the iterations,
    and the loop returns exactly on the stop signal. *)
Theorem sync_needs_both_triggers
    (trace : list (signal * consul * NS1.ns1)) :
  (List.length (fst (sync (mkSyncFlags false false) trace))
   ≤ received ConsulTrigger trace
   ∧ List.length (fst (sync (mkSyncFlags false false) trace))
     ≤ received NS1Trigger trace)%nat
  ∧ Forall (λ p, ∃ sig c n, (sig, c, n) ∈ trace ∧ p = syncPass c n)
           (fst (sync (mkSyncFlags false false) trace))
  ∧ (snd (sync (mkSyncFlags false false) trace) = None ↔
       ∃ c n, (Stop, c, n) ∈ trace).
Proof. exact (sync_passes (mkSyncFlags false false) trace). Qed.

(** X18. A registry outage keeps the last snapshot: while the listing of the
    services fails, the loop of the registry mirror leaves the mirror and the
    wait index as they were, however the run ends. *)
Theorem registry_outage_keeps_snapshot (st : loopState)
    (trace : list (registry * bool)) :
  Forall (fetchFails (waitIndex st)) trace →
  mirror (fst (fetchIndefinitely st trace)) = mirror st
  ∧ waitIndex (fst (fetchIndefinitely st trace)) = waitIndex st.
Proof.
  revert st. induction trace as [|[r stop] trace IH]; intros st Hall; [done|].
  apply Forall_cons in Hall as [Hr Hall]. simpl.
  rewrite iteration_failure by done.
  destruct (10 <? subsequentErrors st + 1); [done|].
  destruct stop; [done|].
  by destruct (IH (mkLoopState (mirror st) (waitIndex st)
                               (subsequentErrors st + 1)) Hall).
Qed.

Lemma registry_outage_keeps_snapshot_witness :
  mirror (fst (fetchIndefinitely (initialState syncedConsul)
                 [(downRegistry, false); (downRegistry, false)]))
  = syncedConsul
  ∧ waitIndex (fst (fetchIndefinitely (initialState syncedConsul)
                      [(downRegistry, false); (downRegistry, false)]))
    = 1.
Proof.
  apply (registry_outage_keeps_snapshot (initialState syncedConsul)
           [(downRegistry, false); (downRegistry, false)]).
  by repeat constructor.
Defined.

End loops_of_the_mirrors.

Section loop_of_the_dns_mirror.
Import NS1.

Lemma zoneReads_cons (fetched : option Zone) (stop : bool)
    (trace : list (option Zone * bool)) :
  zoneReads ((fetched, stop) :: trace) =
    (match fetched with
     | Some _ => 1
     | None => 0
     end + zoneReads trace)%nat.
Proof.
  unfold zoneReads. destruct fetched as [z|].
  - by rewrite filter_cons_True by (by eexists).
  - rewrite filter_cons_False; [done|]. by intros [? ?].
Qed.

(** X19. The loop of the DNS mirror has no failure budget: it returns on the
    stop signal only.  While the zone cannot be read, it logs an error per
    iteration, keeps the mirror as it was and sends no trigger, for any
    number of iterations; and in any run that is not stopped it sends one
    trigger per zone read that succeeded. *)
Theorem dns_loop_never_gives_up (n : ns1) (sent : nat)
    (trace : list (option Zone * bool)) (log : list logEntry) :
  Forall (λ it, snd it = false) trace →
  (Forall (λ it, fst it = None) trace →
   fetchIndefinitely n sent trace log =
     Some ((n, sent, false),
           (log ++ replicate (List.length trace)
                             (LogError "error fetching" ["error"]))%list))
  ∧ (∀ n' sent' returned log',
       fetchIndefinitely n sent trace log = Some ((n', sent', returned), log') →
       returned = false ∧ sent' = (sent + zoneReads trace)%nat).
Proof.
  revert n sent log.
  induction trace as [|[fetched stop] trace IH]; intros n sent log Hstop.
  { simpl. split.
    - intros _. by rewrite app_nil_r.
    - intros n' sent' returned log' [= <- <- <- _]. unfold zoneReads. simpl.
      split; [done|lia]. }
  apply Forall_cons in Hstop as [Hs Hstop]. simpl in Hs. subst stop. split.
  - intros [Hf Hdown]%Forall_cons. simpl in Hf. subst fetched. simpl.
    unfold fetchIteration, fetch. rewrite !bind_run. simpl.
    destruct (IH n sent (log ++ [LogError "error fetching" ["error"]])%list
                Hstop) as [Hrun _].
    rewrite (Hrun Hdown). by rewrite <- app_assoc.
  - intros n' sent' returned log'. simpl. rewrite bind_run.
    rewrite zoneReads_cons. unfold fetchIteration. rewrite bind_run.
    destruct fetched as [z|]; simpl.
    + rewrite bind_run.
      destruct (transformZoneRecords n z log) as [[svcs lg]|]; [|done].
      simpl. intros Hrun.
      destruct (IH (setServices n svcs) (S sent) lg Hstop) as [_ Hrest].
      destruct (Hrest _ _ _ _ Hrun) as [-> ->]. split; [done|lia].
    + intros Hrun.
      destruct (IH n sent (log ++ [LogError "error fetching" ["error"]])%list
                  Hstop) as [_ Hrest].
      destruct (Hrest _ _ _ _ Hrun) as [-> ->]. split; [done|lia].
Qed.

Lemma dns_loop_never_gives_up_witness :
  fetchIndefinitely exMirror 0 [(None, false); (None, false)] [] =
    Some ((exMirror, 0%nat, false),
          [LogError "error fetching" ["error"];
           LogError "error fetching" ["error"]])
  ∧ ∀ n' sent' returned log',
      fetchIndefinitely exMirror 0 [(None, false); (None, false)] []
      = Some ((n', sent', returned), log') →
      returned = false ∧ sent' = 0%nat.
Proof.
  assert (Forall (λ it : option Zone * bool, snd it = false)
                 [(None, false); (None, false)]) as Hstop
    by (by repeat constructor).
  assert (Forall (λ it : option Zone * bool, fst it = None)
                 [(None, false); (None, false)]) as Hdown
    by (by repeat constructor).
  destruct (dns_loop_never_gives_up exMirror 0 _ [] Hstop) as [Hrun Hany].
  split; [exact (Hrun Hdown)|exact Hany].
Defined.

End loop_of_the_dns_mirror.

(** ** Written and read back *)

Section round_trip.
Import NS1.
Implicit Types (n : ns1) (k : string) (s : service) (r : ZoneRecord).

Local Ltac run :=
  repeat (progress
            (rewrite ?bind_run, ?index_run, ?ret_run, ?logError_run; simpl)).

(** *** The services of a zone are read independently *)

Lemma nodes_serviceBefore n (svcs : gmap string service) r :
  nodes (serviceBefore n svcs r) = nodesAt svcs (recordServiceName n r).
Proof.
  unfold serviceBefore, setRecordMeta, nodesAt.
  destruct (svcs !! recordServiceName n r);
    by repeat (destruct (String.eqb _ _)).
Qed.

Lemma serviceBefore_lookup n (svcs svcs' : gmap string service) r :
  svcs !! recordServiceName n r = svcs' !! recordServiceName n r →
  serviceBefore n svcs r = serviceBefore n svcs' r.
Proof. unfold serviceBefore. by intros ->. Qed.

Lemma value_transformRecord n (svcs : gmap string service) r :
  value (transformRecord n svcs r) =
    if decide (isServiceRecord r)
    then nds ← value (forRange (transformAnswer (zr_Type r))
                               (nodes (serviceBefore n svcs r))
                               (zr_ShortAns r));
         Some (<[recordServiceName n r :=
                   setNodes (serviceBefore n svcs r) nds]> svcs)
    else Some svcs.
Proof.
  case_decide as Hr.
  - rewrite transformRecord_service by done.
    rewrite value_bind by (intros; apply appends_ret). done.
  - by rewrite transformRecord_skip.
Qed.

Lemma value_recordsFor n k (l : list ZoneRecord) :
  ∀ (sv sv' svcs : gmap string service),
    sv !! k = sv' !! k →
    value (forRange (transformRecord n) sv l) = Some svcs →
    ∃ svcs',
      value (forRange (transformRecord n) sv' (recordsFor n k l)) = Some svcs'
      ∧ svcs' !! k = svcs !! k.
Proof.
  induction l as [|r l IH]; intros sv sv' svcs Hk.
  { intros [= <-]. by exists sv'. }
  rewrite value_forRange_cons by apply appends_transformRecord.
  destruct (value (transformRecord n sv r)) as [sv1|] eqn:Hr; [|done].
  simpl. intros Hl. unfold recordsFor.
  destruct (decide (recordServiceName n r = k)) as [Hn|Hn].
  - rewrite filter_cons_True by done. fold (recordsFor n k l).
    rewrite value_forRange_cons by apply appends_transformRecord.
    rewrite value_transformRecord in Hr. rewrite value_transformRecord.
    rewrite <- Hn in Hk.
    rewrite <- (serviceBefore_lookup n sv sv' r Hk).
    destruct (decide (isServiceRecord r)).
    + destruct (value (forRange _ _ _)) as [nds|]; [|done].
      simpl in *. injection Hr as <-.
      eapply IH; [|exact Hl]. by rewrite Hn, !lookup_insert_eq.
    + injection Hr as <-. simpl. rewrite Hn in Hk. by apply (IH sv sv').
  - rewrite filter_cons_False by done. fold (recordsFor n k l).
    apply (IH sv1 sv'); [|done].
    rewrite value_transformRecord in Hr.
    destruct (decide (isServiceRecord r)).
    + destruct (value (forRange _ _ _)) as [nds|]; [|done].
      simpl in Hr. injection Hr as <-. by rewrite lookup_insert_ne.
    + by injection Hr as <-.
Qed.

(** X20. The services of a zone are read independently: whenever the
    transformation of a zone completes, what its snapshot holds for a name
    is what the transformation of the records of this name alone holds for
    it; the records of other names change nothing for this one. *)
Theorem services_are_read_independently n (z : Zone) (log : list logEntry)
    (svcs : gmap string service) (log' : list logEntry) k :
  transformZoneRecords n z log = Some (svcs, log') →
  ∃ svcs',
    fst <$> transformZoneRecords n (zoneFor n k z) log = Some svcs'
    ∧ svcs' !! k = svcs !! k.
Proof.
  intros Hrun.
  assert (value (transformZoneRecords n z) = Some svcs) as Hv.
  { rewrite <- (value_at _ log) by apply appends_transformZoneRecords.
    by rewrite Hrun. }
  rewrite value_at by apply appends_transformZoneRecords.
  by apply (value_recordsFor n k (z_Records z) ∅ ∅ svcs).
Qed.

Lemma services_are_read_independently_witness :
  ∃ svcs log' svcs',
    transformZoneRecords exMirror twoARecords [] = Some (svcs, log')
    ∧ fst <$> transformZoneRecords exMirror (zoneFor exMirror "s1" twoARecords)
                                   [] = Some svcs'
    ∧ svcs' !! "s1" = svcs !! "s1".
Proof.
  destruct (transformZoneRecords exMirror twoARecords [])
    as [[svcs log']|] eqn:Hrun; [|by vm_compute in Hrun].
  destruct (services_are_read_independently exMirror twoARecords [] svcs log'
              "s1" Hrun) as (svcs' & Hrun' & Hk).
  by exists svcs, log', svcs'.
Defined.

(** *** The answers of a service, written and read back *)

Lemma transformAnswer_A (nds : gmap string node) (x : string)
    (log : list logEntry) :
  Fields x = [x] →
  transformAnswer "A" nds x log = Some (aStep nds x, log).
Proof. intros Hx. unfold transformAnswer. rewrite Hx. simpl. by run. Qed.

Lemma forRange_A (la : list string) (nds : gmap string node)
    (log : list logEntry) :
  Forall (λ x, Fields x = [x]) la →
  forRange (transformAnswer "A") nds la log = Some (foldl aStep nds la, log).
Proof.
  revert nds. induction la as [|x la IH]; intros nds Hla; [done|].
  apply Forall_cons in Hla as [Hx Hla]. simpl.
  rewrite bind_run, transformAnswer_A by done. by apply IH.
Qed.

Lemma forRange_SRV (l : list srvAnswer) (nds : gmap string node)
    (log : list logEntry) :
  Forall readable l →
  forRange (transformAnswer "SRV") nds (srvAnswerString <$> l) log =
    Some (foldl srvStep nds l, log).
Proof.
  revert nds. induction l as [|a l IH]; intros nds Hl; [done|].
  apply Forall_cons in Hl as [Ha Hl]. simpl.
  rewrite bind_run, transformAnswer_srvAnswerString by done. by apply IH.
Qed.

Lemma mirrorOf_empty : mirrorOf [] [] ∅.
Proof.
  intros addr. rewrite lookup_empty. split; [by intros ?%elem_of_nil|].
  by intros a ?%elem_of_nil.
Qed.

Lemma mirrorOf_aStep (la : list string) (l : list srvAnswer)
    (nds : gmap string node) (x : string) :
  mirrorOf la l nds → mirrorOf (la ++ [x]) l (aStep nds x).
Proof.
  intros Hm addr. specialize (Hm addr). unfold aStep, defaultNode.
  destruct (decide (x = addr)) as [->|Hne].
  - rewrite lookup_insert_eq. simpl.
    rewrite decide_True by (apply elem_of_app; right; by left).
    split; [done|]. split; [left; apply elem_of_app; right; by left|].
    destruct (nds !! addr) as [nd|]; [by destruct Hm as (_ & _ & ?)|].
    destruct Hm as [_ Hl]. intros p a. simpl. rewrite lookup_empty.
    split; [done|]. intros (Ha & Haddr & _). by apply Hl in Ha.
  - rewrite lookup_insert_ne by done.
    assert (addr ∈ (la ++ [x])%list ↔ addr ∈ la) as Hin.
    { rewrite elem_of_app, list_elem_of_singleton.
      split; [intros [?|?]; [done|congruence]|by left]. }
    destruct (nds !! addr) as [nd|].
    + destruct Hm as (HA & Hex & Hsrv). split_and!; [|tauto|done].
      rewrite HA. by repeat case_decide; try tauto.
    + destruct Hm as [HA Hl]. split; [tauto|done].
Qed.

Lemma mirrorOf_srvStep (la : list string) (l : list srvAnswer)
    (nds : gmap string node) (a : srvAnswer) :
  mirrorOf la l nds → onePerPort (l ++ [a]) →
  mirrorOf la (l ++ [a]) (srvStep nds a).
Proof.
  intros Hm Hone addr. specialize (Hm addr). unfold srvStep, defaultNode.
  assert (a ∈ (l ++ [a])%list) as Hain by (apply elem_of_app; right; by left).
  destruct (decide (address a = addr)) as [<-|Hne].
  - rewrite lookup_insert_eq. simpl.
    assert (∀ p x,
              <[port a := a]>
                (srvRecAnswers match nds !! address a with
                               | Some nd => nd
                               | None => node_zero
                               end) !! p = Some x ↔
              x ∈ (l ++ [a])%list ∧ address x = address a ∧ port x = p)
      as Hsrv.
    { intros p x. destruct (decide (port a = p)) as [<-|Hp].
      - rewrite lookup_insert_eq. split.
        + by intros [= <-].
        + intros (Hx & Hax & Hpx). f_equal. symmetry.
          by apply (Hone x a).
      - rewrite lookup_insert_ne by done.
        assert (x ∈ (l ++ [a])%list ∧ address x = address a ∧ port x = p ↔
                x ∈ l ∧ address x = address a ∧ port x = p) as ->.
        { rewrite elem_of_app, list_elem_of_singleton. split.
          - intros ([?|?] & ? & ?); [done|congruence].
          - intros (? & ? & ?). split_and!; [by left|done|done]. }
        destruct (nds !! address a) as [nd|].
        + by destruct Hm as (_ & _ & ?).
        + destruct Hm as [_ Hl]. simpl. rewrite lookup_empty.
          split; [done|]. intros (Hx & Hax & _). by apply Hl in Hx. }
    split_and!; [|right; by exists a|exact Hsrv].
    destruct (nds !! address a) as [nd|]; [by destruct Hm as (? & _)|].
    destruct Hm as [HA _]. simpl. by rewrite decide_False.
  - rewrite lookup_insert_ne by done.
    assert (∀ x, x ∈ (l ++ [a])%list ∧ address x = addr ↔
                 x ∈ l ∧ address x = addr) as Hin.
    { intros x. rewrite elem_of_app, list_elem_of_singleton. split.
      - intros ([?|?] & ?); [done|congruence].
      - intros (? & ?). split; [by left|done]. }
    destruct (nds !! addr) as [nd|].
    + destruct Hm as (HA & Hex & Hsrv). split_and!; [done| |].
      * destruct Hex as [?|(x & Hx & Hax)]; [by left|right].
        exists x. split; [|done]. apply elem_of_app. by left.
      * intros p x. rewrite Hsrv.
        split; intros (Hx & Hax & Hpx); (split; [|done]).
        -- apply elem_of_app. by left.
        -- by destruct (proj1 (Hin x) (conj Hx Hax)).
    + destruct Hm as [HA Hl]. split; [done|].
      intros x Hx Hax. apply (Hl x); [|done].
      by destruct (proj1 (Hin x) (conj Hx Hax)).
Qed.

Lemma onePerPort_prefix (l1 l2 : list srvAnswer) :
  onePerPort (l1 ++ l2) → onePerPort l1.
Proof.
  intros Hone x y Hx Hy. apply Hone; apply elem_of_app; by left.
Qed.

Lemma mirrorOf_foldl_aStep (la : list string) :
  ∀ (la0 : list string) (l : list srvAnswer) (nds : gmap string node),
    mirrorOf la0 l nds → mirrorOf (la0 ++ la) l (foldl aStep nds la).
Proof.
  induction la as [|x la IH]; intros la0 l nds Hm; simpl.
  - by rewrite app_nil_r.
  - replace (la0 ++ x :: la)%list with ((la0 ++ [x]) ++ la)%list
      by (by rewrite <- app_assoc).
    by apply IH, mirrorOf_aStep.
Qed.

Lemma mirrorOf_foldl_srvStep (l : list srvAnswer) :
  ∀ (la : list string) (l0 : list srvAnswer) (nds : gmap string node),
    onePerPort (l0 ++ l) →
    mirrorOf la l0 nds → mirrorOf la (l0 ++ l) (foldl srvStep nds l).
Proof.
  induction l as [|a l IH]; intros la l0 nds Hone Hm; simpl.
  - by rewrite app_nil_r.
  - replace (l0 ++ a :: l)%list with ((l0 ++ [a]) ++ l)%list in Hone |- *
      by (by rewrite <- app_assoc).
    apply IH; [done|]. apply mirrorOf_srvStep; [done|].
    by apply onePerPort_prefix in Hone.
Qed.

Lemma elem_of_aAnswers (nds : gmap string node) (x : string) :
  writableNodes nds →
  x ∈ shortAnswer <$> aAnswersOf nds ↔ is_Some (nds !! x).
Proof.
  intros Hw. rewrite list_elem_of_fmap. unfold aAnswersOf. split.
  - intros (rdata & -> & Hrd).
    apply list_elem_of_omap in Hrd as ([addr nd] & Hin & Hf).
    apply elem_of_map_to_list in Hin. simpl in Hf.
    destruct (Hw addr nd Hin) as (HA & _).
    case_decide; [done|]. injection Hf as <-. simpl. rewrite HA. eauto.
  - intros [nd Hnd]. destruct (Hw x nd Hnd) as (HA & HF & _).
    exists [x]. split; [done|]. apply list_elem_of_omap.
    exists (x, nd). split; [by apply elem_of_map_to_list|]. simpl.
    rewrite HA. case_decide as He; [|done]. by rewrite He in HF.
Qed.

Lemma elem_of_allAnswers (nds : gmap string node) (a : srvAnswer) :
  a ∈ allAnswers nds ↔
    ∃ addr nd p, nds !! addr = Some nd ∧ srvRecAnswers nd !! p = Some a.
Proof.
  unfold allAnswers. rewrite list_elem_of_In, in_flat_map. split.
  - intros ([addr nd] & Hin & Ha).
    apply list_elem_of_In, elem_of_map_to_list in Hin.
    apply list_elem_of_In, list_elem_of_fmap in Ha as ([p a'] & -> & Hpa).
    apply elem_of_map_to_list in Hpa. by exists addr, nd, p.
  - intros (addr & nd & p & Hnd & Ha). exists (addr, nd).
    split; [by apply list_elem_of_In, elem_of_map_to_list|].
    apply list_elem_of_In, list_elem_of_fmap. exists (p, a).
    split; [done|]. by apply elem_of_map_to_list.
Qed.

Lemma shortAnswer_Fields (a : srvAnswer) :
  readable a → shortAnswer (Fields (srvAnswerString a)) = srvAnswerString a.
Proof.
  intros (_ & _ & _ & Haddr). by rewrite Fields_srvAnswerString.
Qed.

Lemma shortAnswer_srvAnswersOf (nds : gmap string node) :
  writableNodes nds →
  shortAnswer <$> srvAnswersOf nds = srvAnswerString <$> allAnswers nds.
Proof.
  intros Hw. unfold srvAnswersOf, allAnswers.
  assert (Forall (λ hn : string * node, nds !! fst hn = Some (snd hn))
                 (map_to_list nds)) as Hall.
  { apply Forall_forall. intros [addr nd]. apply elem_of_map_to_list. }
  induction (map_to_list nds) as [|[addr nd] L IH]; [done|].
  apply Forall_cons in Hall as [Hnd Hall]. simpl in *.
  rewrite !fmap_app. f_equal; [|by apply IH].
  rewrite <- !list_fmap_compose. apply Forall_fmap_ext, Forall_forall.
  intros [p a] Hpa%elem_of_map_to_list. simpl.
  destruct (Hw addr nd Hnd) as (_ & _ & Hsrv).
  destruct (Hsrv p a Hpa) as (_ & _ & Hr). by apply shortAnswer_Fields.
Qed.

Lemma mirrorOf_instancesEqual (nds nds' : gmap string node)
    (la : list string) (l : list srvAnswer) :
  writableNodes nds →
  (∀ x, x ∈ la ↔ is_Some (nds !! x)) →
  (∀ a, a ∈ l ↔ ∃ addr nd p, nds !! addr = Some nd
                             ∧ srvRecAnswers nd !! p = Some a) →
  mirrorOf la l nds' →
  instancesEqual nds nds'.
Proof.
  intros Hw HlA Hl Hm. split.
  - apply set_eq. intros h. rewrite !elem_of_dom. specialize (Hm h). split.
    + intros Hh%HlA. destruct (nds' !! h); [done|]. by destruct Hm.
    + intros [nb Hnb]. rewrite Hnb in Hm.
      destruct Hm as (_ & [Hin|(a & Ha & Haddr)] & _); [by apply HlA|].
      apply Hl in Ha as (addr & nd & p & Hnd & Hp).
      destruct (Hw addr nd Hnd) as (_ & _ & Hsrv).
      destruct (Hsrv p a Hp) as (_ & <- & _). by rewrite Haddr in Hnd.
  - intros h na nb Hna Hnb. specialize (Hm h). rewrite Hnb in Hm.
    destruct Hm as (HA & _ & Hsrv).
    destruct (Hw h na Hna) as (HAa & _ & Hwsrv).
    assert (∀ p x, srvRecAnswers na !! p = Some x ↔
                   srvRecAnswers nb !! p = Some x) as Hiff.
    { intros p x. rewrite Hsrv. split.
      - intros Hx. destruct (Hwsrv p x Hx) as (? & ? & _).
        split; [|done]. apply Hl. by exists h, na, p.
      - intros ((addr & nd & p' & Hnd & Hp')%Hl & Haddr & Hport).
        destruct (Hw addr nd Hnd) as (_ & _ & Hsrv').
        destruct (Hsrv' p' x Hp') as (Hpo & Had & _).
        assert (addr = h) as -> by congruence.
        assert (p' = p) as -> by congruence.
        congruence. }
    split.
    + rewrite HA, HAa. rewrite decide_True; [done|]. by apply HlA.
    + split.
      * apply set_eq. intros p. rewrite !elem_of_dom.
        split; intros [x Hx]; exists x; by apply Hiff.
      * intros p x y Hx%Hiff Hy. congruence.
Qed.

Lemma onePerPort_allAnswers (nds : gmap string node) (l : list srvAnswer) :
  writableNodes nds →
  (∀ a, a ∈ l ↔ ∃ addr nd p, nds !! addr = Some nd
                             ∧ srvRecAnswers nd !! p = Some a) →
  onePerPort l.
Proof.
  intros Hw Hl x y (ax & nx & px & Hnx & Hx)%Hl (ay & ny & py & Hny & Hy)%Hl
    Haddr Hport.
  destruct (Hw ax nx Hnx) as (_ & _ & Hsx).
  destruct (Hsx px x Hx) as (? & ? & _).
  destruct (Hw ay ny Hny) as (_ & _ & Hsy).
  destruct (Hsy py y Hy) as (? & ? & _).
  assert (ax = ay) as -> by congruence.
  assert (px = py) as -> by congruence.
  congruence.
Qed.

Lemma value_A_record n (svcs : gmap string service) r :
  zr_Type r = "A" →
  Forall (λ x, Fields x = [x]) (zr_ShortAns r) →
  value (transformRecord n svcs r) =
    Some (<[recordServiceName n r :=
              setNodes (serviceBefore n svcs r)
                       (foldl aStep (nodesAt svcs (recordServiceName n r))
                              (zr_ShortAns r))]> svcs).
Proof.
  intros Ht Hla. rewrite value_transformRecord.
  rewrite decide_True by (by left). rewrite Ht. unfold value at 1.
  rewrite forRange_A by done. simpl. by rewrite nodes_serviceBefore.
Qed.

Lemma value_SRV_record n (svcs : gmap string service) r
    (l : list srvAnswer) :
  zr_Type r = "SRV" →
  zr_ShortAns r = srvAnswerString <$> l →
  Forall readable l →
  value (transformRecord n svcs r) =
    Some (<[recordServiceName n r :=
              setNodes (serviceBefore n svcs r)
                       (foldl srvStep (nodesAt svcs (recordServiceName n r))
                              l)]> svcs).
Proof.
  intros Ht Hls Hl. rewrite value_transformRecord.
  rewrite decide_True by (by right). rewrite Ht, Hls. unfold value at 1.
  rewrite forRange_SRV by done. simpl. by rewrite nodes_serviceBefore.
Qed.

Lemma value_two_records n (svcs : gmap string service) r1 r2 :
  value (forRange (transformRecord n) svcs [r1; r2]) =
    svcs1 ← value (transformRecord n svcs r1);
    value (transformRecord n svcs1 r2).
Proof.
  rewrite value_forRange_cons by apply appends_transformRecord.
  destruct (value (transformRecord n svcs r1)) as [svcs1|]; [|done].
  change (value (forRange (transformRecord n) svcs1 [r2])
          = value (transformRecord n svcs1 r2)).
  rewrite value_forRange_cons by apply appends_transformRecord.
  by destruct (value (transformRecord n svcs1 r2)).
Qed.

(** X21. What [create] writes for a service reads back as the same
    instances: if the instances of a service are filed by address and their
    SRV answers by port, with addresses of one field, and the zone holds for
    the service's name one A record and one SRV record, in either order,
    whose answers are the answers [create] writes, in short form and in any
    order, then the snapshot of the DNS mirror has the service, with
    instances that [nodesAreEqual] finds equal to those written; the records
    of other names may be any. *)
Theorem written_service_reads_back_equal n k s (z : Zone)
    (log : list logEntry) (svcs : gmap string service)
    (log' : list logEntry) :
  writableNodes (nodes s) →
  echoes n k s z →
  transformZoneRecords n z log = Some (svcs, log') →
  ∃ s', svcs !! k = Some s' ∧ nodesAreEqual (nodes s) (nodes s') = true.
Proof.
  intros Hw (rA & rS & Horder & HtA & HtS & HpA & HpS) Hrun.
  assert (value (transformZoneRecords n z) = Some svcs) as Hv.
  { rewrite <- (value_at _ log) by apply appends_transformZoneRecords.
    by rewrite Hrun. }
  destruct (value_recordsFor n k (z_Records z) ∅ ∅ svcs eq_refl Hv)
    as (svcs1 & Hv1 & Hk).
  rewrite value_skips_non_service in Hv1. rewrite <- Hk. clear Hk Hv Hrun.
  (* the answers of the two records *)
  assert (∀ x, x ∈ zr_ShortAns rA ↔ is_Some (nodes s !! x)) as HlA.
  { intros x. rewrite HpA. by apply elem_of_aAnswers. }
  assert (Forall (λ x, Fields x = [x]) (zr_ShortAns rA)) as HsA.
  { apply Forall_forall. intros x [nd Hnd]%HlA.
    by destruct (Hw x nd Hnd) as (_ & ? & _). }
  rewrite shortAnswer_srvAnswersOf in HpS by done.
  apply (Permutation_map_inv srvAnswerString) in HpS as (l & Hls & Hperm).
  assert (∀ a, a ∈ l ↔ ∃ addr nd p, nodes s !! addr = Some nd
                                    ∧ srvRecAnswers nd !! p = Some a) as Hl.
  { intros a. rewrite <- Hperm. apply elem_of_allAnswers. }
  assert (Forall readable l) as Hrl.
  { apply Forall_forall. intros a (addr & nd & p & Hnd & Hp)%Hl.
    destruct (Hw addr nd Hnd) as (_ & _ & Hsrv).
    by destruct (Hsrv p a Hp) as (_ & _ & ?). }
  pose proof (onePerPort_allAnswers _ l Hw Hl) as Hone.
  (* the two records are filed under [k] *)
  assert (recordServiceName n rA = k ∧ recordServiceName n rS = k)
    as [HnA HnS].
  { assert (rA ∈ filter isServiceRecord (recordsFor n k (z_Records z))
            ∧ rS ∈ filter isServiceRecord (recordsFor n k (z_Records z)))
      as [HinA HinS].
    { destruct Horder as [-> | ->]; split;
        rewrite !elem_of_cons; auto. }
    apply list_elem_of_filter in HinA as [_ HinA].
    apply list_elem_of_filter in HinS as [_ HinS].
    apply list_elem_of_filter in HinA as [HinA _].
    apply list_elem_of_filter in HinS as [HinS _]. done. }
  assert (∀ nds', mirrorOf (zr_ShortAns rA) l nds' →
                  nodesAreEqual (nodes s) nds' = true) as Hequal.
  { intros nds' Hm. apply nodesAreEqual_spec.
    by apply (mirrorOf_instancesEqual _ _ (zr_ShortAns rA) l). }
  destruct Horder as [Ho | Ho]; rewrite Ho, value_two_records in Hv1.
  - rewrite (value_A_record n ∅ rA HtA HsA) in Hv1.
    change (Some ?x ≫= ?f) with (f x) in Hv1. cbv beta in Hv1.
    rewrite (value_SRV_record n _ rS l HtS Hls Hrl) in Hv1.
    injection Hv1 as <-. rewrite HnS, lookup_insert_eq.
    eexists. split; [done|]. simpl. apply Hequal.
    unfold nodesAt. rewrite HnA, lookup_insert_eq, lookup_empty. simpl.
    apply (mirrorOf_foldl_srvStep l (zr_ShortAns rA) []); [done|].
    apply (mirrorOf_foldl_aStep (zr_ShortAns rA) [] []), mirrorOf_empty.
  - rewrite (value_SRV_record n ∅ rS l HtS Hls Hrl) in Hv1.
    change (Some ?x ≫= ?f) with (f x) in Hv1. cbv beta in Hv1.
    rewrite (value_A_record n _ rA HtA HsA) in Hv1.
    injection Hv1 as <-. rewrite HnA, lookup_insert_eq.
    eexists. split; [done|]. simpl. apply Hequal.
    unfold nodesAt. rewrite HnS, lookup_insert_eq, lookup_empty. simpl.
    apply (mirrorOf_foldl_aStep (zr_ShortAns rA) [] l).
    apply (mirrorOf_foldl_srvStep l [] []); [done|]. apply mirrorOf_empty.
Qed.

Lemma written_service_reads_back_equal_witness :
  ∃ svcs log' s',
    transformZoneRecords exMirror writtenZone [] = Some (svcs, log')
    ∧ svcs !! "s1" = Some s'
    ∧ nodesAreEqual (nodes writtenService) (nodes s') = true.
Proof.
  assert (writableNodes (nodes writtenService)) as Hw.
  { intros addr nd Hnd. simpl in Hnd.
    apply lookup_singleton_Some in Hnd as [<- <-].
    split; [reflexivity|]. split; [reflexivity|].
    intros p a Ha. simpl in Ha.
    apply lookup_singleton_Some in Ha as [<- <-].
    split; [reflexivity|]. split; [reflexivity|].
    unfold readable, int64. simpl priority. simpl weight. simpl port.
    simpl address. split_and!; try lia. reflexivity. }
  assert (echoes exMirror "s1" writtenService writtenZone) as He.
  { exists (mkZoneRecord "s1.test.zone" "a1" ["1.1.1.1"] "A" 10),
           (mkZoneRecord "s1.test.zone" "b1" ["1 1 1 1.1.1.1"] "SRV" 10).
    split; [left; vm_compute; reflexivity|].
    split; [reflexivity|]. split; [reflexivity|].
    split; vm_compute; reflexivity. }
  destruct (transformZoneRecords exMirror writtenZone [])
    as [[svcs log']|] eqn:Hrun; [|vm_compute in Hrun; discriminate].
  destruct (written_service_reads_back_equal exMirror "s1" writtenService
              writtenZone [] svcs log' Hw He Hrun) as (s' & Hs' & Heq).
  exists svcs, log', s'. split; [reflexivity|]. split; assumption.
Defined.

End round_trip.
